(** * dRAG: a shallow embedding of the crawler, the chunker, the retrieval
    fusion and the source catalog, with the properties of the specification.

    Conventions of the embedding.
    - A JavaScript string is the list of its UTF-16 code units ([jsstring]);
      [str] turns an ASCII literal into one.
    - A JavaScript number that the code uses as an integer is a [Z]; the
      32-bit wrap-around of the bit operators is written out ([toInt32]).
      The scores of the retrieval fusion are binary64 floats ([float]).
    - Code that talks to a collaborator (HTTP, the vector store, the
      embedding service) runs in the monad [M]: state passing over the
      collaborator's state, a trace of the calls made, and an outcome that
      is a value, a thrown exception, or no answer at all.
    - A [while] loop over answers of a collaborator takes fuel; running out
      of fuel is the outcome [Diverges]. *)

From Stdlib Require Import ZArith NArith List Bool Lia Ascii String.
From Stdlib Require Import Floats Uint63.
From Stdlib Require Import Permutation Sorted.
From stdpp Require Import base tactics option list.
Import ListNotations.

Open Scope Z_scope.

(** ** JavaScript strings *)

Module JS.

Definition jsstring := list N.

(** An ASCII literal as a JavaScript string. *)
Definition str (s : string) : jsstring :=
  List.map N_of_ascii (list_ascii_of_string s).

Definition code_eqb (a b : N) : bool := N.eqb a b.

Fixpoint str_eqb (s t : jsstring) : bool :=
  match s, t with
  | [], [] => true
  | a :: s', b :: t' => code_eqb a b && str_eqb s' t'
  | _, _ => false
  end.

(** [arr.includes(x)] on an array of strings. *)
Definition includes (arr : list jsstring) (x : jsstring) : bool :=
  existsb (str_eqb x) arr.

(** [s.startsWith(p)]. *)
Fixpoint startsWith (s p : jsstring) : bool :=
  match p, s with
  | [], _ => true
  | b :: p', a :: s' => code_eqb a b && startsWith s' p'
  | _ :: _, [] => false
  end.

(** [s.endsWith(p)]. *)
Definition endsWith (s p : jsstring) : bool :=
  startsWith (rev s) (rev p).

(** [s.includes(p)] on strings: [p] occurs in [s]. *)
Fixpoint str_includes (s p : jsstring) : bool :=
  startsWith s p ||
  match s with
  | [] => false
  | _ :: s' => str_includes s' p
  end.

(** [s.slice(0, n)] for [0 <= n]. *)
Definition slice0 (s : jsstring) (n : nat) : jsstring := firstn n s.

(** [arr.join(sep)]. *)
Fixpoint join (sep : jsstring) (arr : list jsstring) : jsstring :=
  match arr with
  | [] => []
  | [s] => s
  | s :: rest => s ++ sep ++ join sep rest
  end.

(** A string is truthy when it is not empty. *)
Definition truthy (s : jsstring) : bool :=
  match s with [] => false | _ => true end.

(** The code units that [\s] matches and that [trim] strips: WhiteSpace and
    LineTerminator of ECMAScript. *)
Definition isWhiteSpace (c : N) : bool :=
  ((9 <=? c) && (c <=? 13) || (c =? 32) || (c =? 160) || (c =? 5760)
   || (8192 <=? c) && (c <=? 8202) || (c =? 8232) || (c =? 8233)
   || (c =? 8239) || (c =? 8287) || (c =? 12288) || (c =? 65279))%N.

Fixpoint trimStart (s : jsstring) : jsstring :=
  match s with
  | c :: s' => if isWhiteSpace c then trimStart s' else s
  | [] => []
  end.

Definition trim (s : jsstring) : jsstring :=
  rev (trimStart (rev (trimStart s))).

(** [\w]: ASCII letters, digits and the underscore. *)
Definition isWordChar (c : N) : bool :=
  ((48 <=? c) && (c <=? 57) || (65 <=? c) && (c <=? 90)
   || (97 <=? c) && (c <=? 122) || (c =? 95))%N.

Definition isDigit (c : N) : bool := ((48 <=? c) && (c <=? 57))%N.

Definition isLowerAZ (c : N) : bool := ((97 <=? c) && (c <=? 122))%N.

(** The digit of value [d < 36] as [Number.prototype.toString] writes it. *)
Definition digitChar (d : N) : N :=
  (if d <? 10 then 48 + d else 87 + d)%N.

Fixpoint digits_rev (fuel : nat) (radix n : N) : list N :=
  match fuel with
  | O => []
  | S f =>
      if (n =? 0)%N then []
      else digitChar (n mod radix) :: digits_rev f radix (n / radix)
  end.

(** [n.toString(radix)] for an integer [0 <= n]; a number of [b] bits has at
    most [b] digits in any radix from 2 to 36. *)
Definition toStringRadix (radix : N) (n : Z) : jsstring :=
  let m := Z.to_N n in
  if (m =? 0)%N then str "0"
  else rev (digits_rev (N.size_nat m) radix m).

(** The decimal text of an array index, as a template literal writes it. *)
Definition numToString (n : nat) : jsstring :=
  toStringRadix 10 (Z.of_nat n).

(** [ToInt32]: the value modulo 2^32, read as a signed 32-bit integer. *)
Definition toInt32 (z : Z) : Z :=
  let m := z mod 2 ^ 32 in
  if m >=? 2 ^ 31 then m - 2 ^ 32 else m.

(** [x << n] *)
Definition shl (x n : Z) : Z :=
  toInt32 (Z.shiftl (toInt32 x) (n mod 32)).

(** [x & y] *)
Definition bitand (x y : Z) : Z :=
  toInt32 (Z.land (toInt32 x) (toInt32 y)).

(** *** Splitting and matching

    [s.split(re)] for a regular expression that never matches the empty
    string: [m suffix] is the length of the match of [re] that starts at the
    head of [suffix] ([None] when there is none). The scan follows
    ECMAScript's split: the pieces between the matches, the last piece
    included, and no match is tried at the end of the string. [skip] counts
    the code units of the current match still to pass over; [cur] is the
    piece being read, reversed. *)
Fixpoint split_loop (m : jsstring -> option nat) (skip : nat)
    (cur : jsstring) (s : jsstring) : list jsstring :=
  match s with
  | [] => [rev cur]
  | c :: s' =>
      match skip with
      | S k => split_loop m k cur s'
      | O =>
          match m s with
          | Some (S e) => rev cur :: split_loop m e [] s'
          | _ => split_loop m 0%nat (c :: cur) s'
          end
      end
  end.

Definition split (m : jsstring -> option nat) (s : jsstring) : list jsstring :=
  split_loop m 0%nat [] s.

Fixpoint span_length (p : N -> bool) (s : jsstring) : nat :=
  match s with
  | c :: s' => if p c then S (span_length p s') else O
  | [] => O
  end.

(** [/\s+/] at the head of the string. *)
Definition re_spaces (s : jsstring) : option nat :=
  match span_length isWhiteSpace s with
  | O => None
  | n => Some n
  end.

Definition isNewline (c : N) : bool := (c =? 10)%N.
Definition isHash (c : N) : bool := (c =? 35)%N.

Definition headIs (p : N -> bool) (s : jsstring) : bool :=
  match s with c :: _ => p c | [] => false end.

(** The lookahead [(?=#{1,3}\s)]: one, two or three [#] and then a blank. *)
Definition lookahead_heading (s : jsstring) : bool :=
  match s with
  | h1 :: r1 =>
      isHash h1 &&
      (headIs isWhiteSpace r1 ||
       match r1 with
       | h2 :: r2 =>
           isHash h2 &&
           (headIs isWhiteSpace r2 ||
            match r2 with
            | h3 :: r3 => isHash h3 && headIs isWhiteSpace r3
            | [] => false
            end)
       | [] => false
       end)
  | [] => false
  end.

(** [/\n\n+|\n(?=#{1,3}\s)/] at the head of the string: two or more
    newlines (all of them), else one newline before a heading. *)
Definition re_paragraph (s : jsstring) : option nat :=
  match s with
  | c1 :: rest =>
      if isNewline c1 then
        match span_length isNewline rest with
        | S n => Some (S (S n))
        | O => if lookahead_heading rest then Some 1%nat else None
        end
      else None
  | [] => None
  end.

(** [/\n\n/] at the head of the string. *)
Definition re_blank_line (s : jsstring) : option nat :=
  match s with
  | c1 :: c2 :: _ => if isNewline c1 && isNewline c2 then Some 2%nat else None
  | _ => None
  end.

(** [/\b[a-z]{3,}\b/] at the head of the string, [prevWord] telling whether
    the code unit before it is a word character: the boundary in front needs
    a non-word unit before the first letter, the run of letters is taken
    whole (a shorter one would end between two letters, where there is no
    boundary), and the boundary behind needs a non-word unit or the end. *)
Definition re_word3 (prevWord : bool) (s : jsstring) : option jsstring :=
  let n := span_length isLowerAZ s in
  if prevWord then None
  else if (3 <=? n)%nat && negb (headIs isWordChar (skipn n s))
       then Some (firstn n s) else None.

(** [s.match(/\b[a-z]{3,}\b/g) ?? []]: all the matches, left to right, each
    search starting where the last match ended. *)
Fixpoint match_words_loop (skip : nat) (prevWord : bool) (s : jsstring)
    : list jsstring :=
  match s with
  | [] => []
  | c :: s' =>
      match skip with
      | S k => match_words_loop k (isWordChar c) s'
      | O =>
          match re_word3 prevWord s with
          | Some w => w :: match_words_loop (pred (length w)) (isWordChar c) s'
          | None => match_words_loop 0%nat (isWordChar c) s'
          end
      end
  end.

Definition match_words (s : jsstring) : list jsstring :=
  match_words_loop 0%nat false s.

(** [arr.length] *)
Definition len {A} (l : list A) : Z := Z.of_nat (length l).

(** [arr.slice(start, end)]: a negative index counts from the end. *)
Definition arr_slice {A} (arr : list A) (start end_ : Z) : list A :=
  let n := len arr in
  let k := if start <? 0 then Z.max (n + start) 0 else Z.min start n in
  let final := if end_ <? 0 then Z.max (n + end_) 0 else Z.min end_ n in
  firstn (Z.to_nat (final - k)) (skipn (Z.to_nat k) arr).

(** *** Sorting

    [arr.sort(cmp)] is stable; [after a b] says that the comparison function
    is positive on [(a, b)], that is, [a] has to come after [b]. *)
Section Sort.
Context {A : Type} (after : A -> A -> bool).

Fixpoint insert_sorted (x : A) (l : list A) : list A :=
  match l with
  | [] => [x]
  | y :: l' => if after x y then y :: insert_sorted x l' else x :: l
  end.

Definition stable_sort (l : list A) : list A :=
  fold_right insert_sorted [] l.
End Sort.

End JS.
Export JS.

(** ** What the platform provides

    The URL parser and the Unicode case mapping are not code of the
    repository: the embedding takes them as an interface. [URL_new input
    base] is [new URL(input, base)], [None] when it throws its [TypeError];
    of a parsed URL the code reads [href], [protocol], [hostname], [port] and
    [hash]. [toLowerCase] is [String.prototype.toLowerCase]; on ASCII text it
    maps [A-Z] to [a-z] and nothing else.
    [TextDecoder_decode] is [new TextDecoder().decode] on the bytes read. *)

Record URL := {
  href : jsstring;
  protocol : jsstring;
  hostname : jsstring;
  port : jsstring;
  hash : jsstring
}.

Definition isAscii (c : N) : bool := (c <? 128)%N.

Definition asciiLower (c : N) : N :=
  (if (65 <=? c) && (c <=? 90) then c + 32 else c)%N.

Class Platform := {
  URL_new : jsstring -> option jsstring -> option URL;
  toLowerCase : jsstring -> jsstring;
  toLowerCase_ascii : forall s,
    forallb isAscii s = true -> toLowerCase s = List.map asciiLower s;
  TextDecoder_decode : list N -> jsstring
}.

(** ** Types of the repository (types.ts) *)

(** A [Date]: made from the clock ([new Date()], the reading in
    milliseconds) or from a string ([new Date(text)]). *)
Inductive JsDate :=
  | DateNow (millis : Z)
  | DateOf (text : jsstring).

Record CrawledPage := {
  page_url : jsstring;
  page_title : jsstring;
  page_content : jsstring;
  page_links : list jsstring;
  page_crawledAt : JsDate
}.

Record CrawlOptions := {
  maxDepth : Z;
  maxPages : option nat;
  allowedDomains : option (list jsstring)
}.

Record ChunkMetadata := {
  meta_url : jsstring;
  meta_title : jsstring;
  meta_chunkIndex : nat;
  meta_totalChunks : nat;
  meta_context : option jsstring;
  meta_keywords : option (list jsstring)
}.

Record Chunk := {
  chunk_id : jsstring;
  chunk_text : jsstring;
  chunk_metadata : ChunkMetadata
}.

(** [Partial<ChunkOptions>]: every field may be absent. *)
Record ChunkOptions := {
  chunkSize : option Z;
  chunkOverlap : option Z;
  semantic : option bool
}.

Record SearchOptions := {
  topK : option Z;
  hybrid : option bool;
  expandQuery : option bool
}.

Record SearchResult := {
  res_text : jsstring;
  res_url : jsstring;
  res_title : jsstring;
  res_score : float
}.

Record SourceInfo := {
  src_url : jsstring;
  src_title : jsstring;
  src_pageCount : nat;
  src_chunkCount : nat;
  src_indexedAt : JsDate
}.

(** ** Configuration (config.ts) *)

Module Config.
Definition chroma_batchSize : nat := 1000.
Definition crawler_maxDepthLimit : Z := 5.
Definition crawler_defaultMaxPages : nat := 100.
Definition crawler_requestDelayMs : Z := 500.
Definition crawler_maxResponseSizeBytes : Z := 10 * 1024 * 1024.
Definition chunker_defaultChunkSize : Z := 500.
Definition chunker_defaultChunkOverlap : Z := 100.
Definition chunker_minChunkSize : Z := 50.
Definition search_maxTopK : Z := 100.
Definition search_maxQueryLength : Z := 10000.
Definition search_rrfK : float := 60%float.
End Config.

(** ** The chunker (services/chunker.ts) *)

Module Chunker.
Section WithPlatform.
Context `{Platform}.

Definition DEFAULT_CHUNK_SIZE := Config.chunker_defaultChunkSize.
Definition DEFAULT_CHUNK_OVERLAP := Config.chunker_defaultChunkOverlap.
Definition MIN_CHUNK_SIZE := Config.chunker_minChunkSize.

(** [text.split(/\s+/).length] *)
Definition wordCount (text : jsstring) : Z := len (split re_spaces text).

(** The hash of a string: 31-based, wrapped to 32 bits at every step, its
    absolute value written in base 36. *)
Definition simpleHash_step (hash : Z) (char : N) : Z :=
  let hash := shl hash 5 - hash + Z.of_N char in
  bitand hash hash.

Definition simpleHash (s : jsstring) : jsstring :=
  let hash := fold_left simpleHash_step s 0 in
  toStringRadix 36 (Z.abs hash).

Definition generateChunkId (url : jsstring) (index : nat) : jsstring :=
  let urlHash := simpleHash url in
  urlHash ++ str "-" ++ numToString index.

(** The double quote, and the blank line that joins paragraphs. *)
Definition quote : jsstring := [34%N].
Definition blankLine : jsstring := [10%N; 10%N].

Definition generateDocumentContext (page : CrawledPage) : jsstring :=
  let firstParagraph :=
    match split re_blank_line (page_content page) with
    | p :: _ => slice0 p 200
    | [] => []
    end in
  str "Document: " ++ quote ++ page_title page ++ quote ++ str " from "
    ++ page_url page ++ str ". " ++ firstParagraph ++ str "...".

(** The body of the [while] loop of [slidingWindowChunk]. With a positive
    step the loop ends within [words.length] rounds; with a step of zero or
    less it ends in its first round or never. [None]: it never ends. *)
Fixpoint slidingWindow_loop (fuel : nat) (words : list jsstring)
    (chunkSize chunkOverlap start : Z) (chunks : list jsstring)
    : option (list jsstring) :=
  match fuel with
  | O => None
  | S fuel' =>
      if start <? len words then
        let end_ := Z.min (start + chunkSize) (len words) in
        let chunk := join (str " ") (arr_slice words start end_) in
        let chunks :=
          if truthy (trim chunk) && (MIN_CHUNK_SIZE <=? wordCount chunk)
          then chunks ++ [chunk] else chunks in
        let start := start + (chunkSize - chunkOverlap) in
        if (len words - chunkOverlap <=? start) && (0 <? len chunks)
        then Some chunks
        else slidingWindow_loop fuel' words chunkSize chunkOverlap start chunks
      else Some chunks
  end.

Definition slidingWindowChunk (text : jsstring) (chunkSize chunkOverlap : Z)
    : option (list jsstring) :=
  let words := split re_spaces text in
  if len words <=? chunkSize then Some [text]
  else slidingWindow_loop (S (length words)) words chunkSize chunkOverlap 0 [].

(** The overlap kept after a chunk is closed: its last paragraphs, from the
    last one backwards, while the words kept are fewer than the overlap. *)
Fixpoint overlap_loop (reversed : list jsstring) (chunkOverlap : Z)
    (overlapParagraphs : list jsstring) (overlapSize : Z)
    : list jsstring * Z :=
  match reversed with
  | [] => (overlapParagraphs, overlapSize)
  | p :: rest =>
      if overlapSize <? chunkOverlap
      then overlap_loop rest chunkOverlap (p :: overlapParagraphs)
             (overlapSize + wordCount p)
      else (overlapParagraphs, overlapSize)
  end.

(** The [for] loop of [semanticChunkText] over the paragraphs; the state is
    [chunks], [currentChunk] and [currentSize]. *)
Fixpoint semantic_loop (paragraphs : list jsstring)
    (maxChunkSize chunkOverlap : Z)
    (chunks currentChunk : list jsstring) (currentSize : Z)
    : option (list jsstring * list jsstring * Z) :=
  match paragraphs with
  | [] => Some (chunks, currentChunk, currentSize)
  | paragraph :: rest =>
      let paragraphWords := wordCount paragraph in
      if maxChunkSize <? paragraphWords then
        let '(chunks, currentChunk, currentSize) :=
          if 0 <? len currentChunk
          then (chunks ++ [join blankLine currentChunk], [], 0)
          else (chunks, currentChunk, currentSize) in
        match slidingWindowChunk paragraph maxChunkSize chunkOverlap with
        | Some subChunks =>
            semantic_loop rest maxChunkSize chunkOverlap
              (chunks ++ subChunks) currentChunk currentSize
        | None => None
        end
      else
        let '(chunks, currentChunk, currentSize) :=
          if (maxChunkSize <? currentSize + paragraphWords)
             && (0 <? len currentChunk)
          then
            let '(overlapParagraphs, overlapSize) :=
              overlap_loop (rev currentChunk) chunkOverlap [] 0 in
            (chunks ++ [join blankLine currentChunk],
             overlapParagraphs, overlapSize)
          else (chunks, currentChunk, currentSize) in
        semantic_loop rest maxChunkSize chunkOverlap chunks
          (currentChunk ++ [paragraph]) (currentSize + paragraphWords)
  end.

Definition semanticChunkText (text : jsstring) (maxChunkSize chunkOverlap : Z)
    : option (list jsstring) :=
  let paragraphs := split re_paragraph text in
  match semantic_loop paragraphs maxChunkSize chunkOverlap [] [] 0 with
  | Some (chunks, currentChunk, currentSize) =>
      let chunks :=
        if (0 <? len currentChunk) && (MIN_CHUNK_SIZE <=? currentSize)
        then chunks ++ [join blankLine currentChunk] else chunks in
      Some (List.filter (fun c => MIN_CHUNK_SIZE <=? wordCount c) chunks)
  | None => None
  end.

Definition stopWords : list jsstring :=
  List.map str
    ["the"; "a"; "an"; "and"; "or"; "but"; "in"; "on"; "at"; "to"; "for";
     "of"; "with"; "by"; "from"; "is"; "are"; "was"; "were"; "be"; "been";
     "being"; "have"; "has"; "had"; "do"; "does"; "did"; "will"; "would";
     "could"; "should"; "may"; "might"; "must"; "shall"; "can"; "this";
     "that"; "these"; "those"; "it"; "its"; "as"; "if"; "then"; "else"]%string.

(** [wordCount.set(word, (wordCount.get(word) ?? 0) + 1)] on a [Map] kept in
    insertion order: a key that is present keeps its place. *)
Fixpoint count_word (word : jsstring) (wordCount : list (jsstring * Z))
    : list (jsstring * Z) :=
  match wordCount with
  | [] => [(word, 0 + 1)]
  | (w, n) :: rest =>
      if str_eqb w word then (w, n + 1) :: rest
      else (w, n) :: count_word word rest
  end.

Definition extractKeywords (text : jsstring) : list jsstring :=
  let words := match_words (toLowerCase text) in
  let wordCount :=
    fold_left
      (fun wordCount word =>
         if negb (includes stopWords word) then count_word word wordCount
         else wordCount)
      words [] in
  List.map fst
    (firstn 20
       (stable_sort (fun a b => 0 <? snd b - snd a) wordCount)).

(** The inner [for] loop of [chunkPages]: one chunk per piece of text, [i]
    counting from the index of the first piece. *)
Fixpoint pageChunks_loop (page : CrawledPage) (documentContext : jsstring)
    (totalChunks : nat) (i : nat) (pageChunks : list jsstring)
    (allChunks : list Chunk) : list Chunk :=
  match pageChunks with
  | [] => allChunks
  | chunkText :: rest =>
      let keywords := extractKeywords chunkText in
      let metadata := {|
        meta_url := page_url page;
        meta_title := page_title page;
        meta_chunkIndex := i;
        meta_totalChunks := totalChunks;
        meta_context := Some documentContext;
        meta_keywords := Some keywords
      |} in
      pageChunks_loop page documentContext totalChunks (S i) rest
        (allChunks ++ [{|
           chunk_id := generateChunkId (page_url page) i;
           chunk_text := chunkText;
           chunk_metadata := metadata
         |}])
  end.

(** The outer [for] loop of [chunkPages]. *)
Fixpoint pages_loop (pages : list CrawledPage) (chunkSize chunkOverlap : Z)
    (useSemantic : bool) (allChunks : list Chunk) : option (list Chunk) :=
  match pages with
  | [] => Some allChunks
  | page :: rest =>
      let documentContext := generateDocumentContext page in
      match
        if useSemantic
        then semanticChunkText (page_content page) chunkSize chunkOverlap
        else slidingWindowChunk (page_content page) chunkSize chunkOverlap
      with
      | Some pageChunks =>
          let totalChunks := length pageChunks in
          pages_loop rest chunkSize chunkOverlap useSemantic
            (pageChunks_loop page documentContext totalChunks 0 pageChunks
               allChunks)
      | None => None
      end
  end.

(** [chunkPages(pages, options)]; [None] when a sliding window never ends
    (an overlap that is not below the chunk size). *)
Definition chunkPages (pages : list CrawledPage)
    (options : option ChunkOptions) : option (list Chunk) :=
  let chunkSize :=
    default DEFAULT_CHUNK_SIZE (options ≫= chunkSize) in
  let chunkOverlap :=
    default DEFAULT_CHUNK_OVERLAP (options ≫= chunkOverlap) in
  let useSemantic := default true (options ≫= semantic) in
  pages_loop pages chunkSize chunkOverlap useSemantic [].
End WithPlatform.
End Chunker.

(** ** Regular expressions of the crawler

    The hostname patterns and the file-extension pattern are matched with
    [RegExp.prototype.test]: is there a match anywhere in the string. They
    use literals, classes, sequence, alternation and repetition only, so a
    matcher by derivatives decides them. *)

Module Regex.

Inductive regex :=
  | Never                         (* matches nothing *)
  | Eps                           (* the empty string *)
  | InClass (p : N -> bool)         (* one code unit of a class *)
  | Seq (r1 r2 : regex)
  | Alt (r1 r2 : regex)
  | Star (r : regex).

Definition Chr (c : N) : regex := InClass (N.eqb c).
Definition Any : regex := InClass (fun _ => true).
Definition Plus (r : regex) : regex := Seq r (Star r).

(** A literal, and a literal under the [i] flag. *)
Definition Lit (s : jsstring) : regex :=
  fold_right (fun c r => Seq (Chr c) r) Eps s.
Definition LitCI (s : jsstring) : regex :=
  fold_right (fun c r => Seq (InClass (fun d => N.eqb (asciiLower d) (asciiLower c))) r)
    Eps s.
Definition Alts (rs : list regex) : regex := fold_right Alt Never rs.

Fixpoint nullable (r : regex) : bool :=
  match r with
  | Never => false
  | Eps => true
  | InClass _ => false
  | Seq r1 r2 => nullable r1 && nullable r2
  | Alt r1 r2 => nullable r1 || nullable r2
  | Star _ => true
  end.

Fixpoint deriv (c : N) (r : regex) : regex :=
  match r with
  | Never => Never
  | Eps => Never
  | InClass p => if p c then Eps else Never
  | Seq r1 r2 =>
      if nullable r1 then Alt (Seq (deriv c r1) r2) (deriv c r2)
      else Seq (deriv c r1) r2
  | Alt r1 r2 => Alt (deriv c r1) (deriv c r2)
  | Star r1 => Seq (deriv c r1) (Star r1)
  end.

(** The whole string is a word of [r]. *)
Definition matches (r : regex) (s : jsstring) : bool :=
  nullable (fold_left (fun r c => deriv c r) s r).

(** A pattern as written: [^] in front or not, [$] behind or not. *)
Record pattern := {
  anchoredStart : bool;
  body : regex;
  anchoredEnd : bool
}.

(** [pattern.test(s)] *)
Definition test (p : pattern) (s : jsstring) : bool :=
  matches
    (Seq (if anchoredStart p then Eps else Star Any)
       (Seq (body p) (if anchoredEnd p then Eps else Star Any)))
    s.

Definition dot : regex := Chr 46.
Definition digits : regex := Plus (InClass isDigit).
Definition range (lo hi : N) : regex :=
  InClass (fun c => (lo <=? c) && (c <=? hi))%N.

End Regex.

(** ** The URL guard (services/crawler.ts) *)

Module UrlGuard.
Import Regex.
Section WithPlatform.
Context `{Platform}.

Definition BLOCKED_HOSTNAMES : list jsstring :=
  List.map str
    ["localhost"; "127.0.0.1"; "0.0.0.0"; "[::1]";
     "metadata.google.internal"; "169.254.169.254"]%string.

Definition BLOCKED_HOSTNAME_PATTERNS : list pattern :=
  [ (* /^10\.\d+\.\d+\.\d+$/ *)
    {| anchoredStart := true;
       body := Seq (Lit (str "10"))
                 (Seq dot (Seq digits (Seq dot (Seq digits (Seq dot digits)))));
       anchoredEnd := true |};
    (* /^172\.(1[6-9]|2\d|3[0-1])\.\d+\.\d+$/ *)
    {| anchoredStart := true;
       body := Seq (Lit (str "172"))
                 (Seq dot
                    (Seq (Alts [Seq (Chr 49) (range 54 57);
                                Seq (Chr 50) (InClass isDigit);
                                Seq (Chr 51) (range 48 49)])
                       (Seq dot (Seq digits (Seq dot digits)))));
       anchoredEnd := true |};
    (* /^192\.168\.\d+\.\d+$/ *)
    {| anchoredStart := true;
       body := Seq (Lit (str "192"))
                 (Seq dot (Seq (Lit (str "168"))
                    (Seq dot (Seq digits (Seq dot digits)))));
       anchoredEnd := true |};
    (* /\.local$/ *)
    {| anchoredStart := false; body := Lit (str ".local");
       anchoredEnd := true |};
    (* /\.internal$/ *)
    {| anchoredStart := false; body := Lit (str ".internal");
       anchoredEnd := true |} ].

Definition isBlockedUrl (url : jsstring) : bool :=
  match URL_new url None with
  | Some parsed =>
      let hostname := toLowerCase (hostname parsed) in
      if includes BLOCKED_HOSTNAMES hostname then true
      else if existsb (fun pattern => test pattern hostname)
                BLOCKED_HOSTNAME_PATTERNS then true
      else if truthy (port parsed)
              && negb (includes [str "80"; str "443"; []] (port parsed))
      then true
      else false
  | None => true (* Block invalid URLs *)
  end.
End WithPlatform.
End UrlGuard.

(** ** Effects

    What a JavaScript [throw] carries: an [Error] object with its message,
    or some other value. *)

Inductive thrown :=
  | ErrorObject (message : jsstring)
  | OtherValue.

(** [error instanceof Error ? error.message : "Unknown error"] *)
Definition errorMessage (error : thrown) : jsstring :=
  match error with
  | ErrorObject message => message
  | OtherValue => str "Unknown error"
  end.

(** How an awaited call ends: with a value, with an exception, or not at
    all. *)
Inductive outcome (A : Type) :=
  | Returns (a : A)
  | Throws (e : thrown)
  | Diverges.
Arguments Returns {A} a.
Arguments Throws {A} e.
Arguments Diverges {A}.

(** The calls a run makes to its collaborators, in order. [EvVisit] marks
    the crawler taking a queue item to fetch, with the depth it was queued
    at. *)
Inductive event :=
  | EvFetch (url : jsstring)
  | EvSleep (ms : Z)
  | EvVisit (url : jsstring) (depth : Z)
  | EvConnect
  | EvGet (limit offset : nat)
  | EvDelete (ids : list jsstring).

(** The world of a run: the state of the collaborators (of any type [B]),
    the trace so far, and the module variable [collection] of the vector
    store (is the handle there already). *)
Record World (B : Type) := {
  backend : B;
  trace : list event;
  connected : bool
}.
Arguments backend {B} w.
Arguments trace {B} w.
Arguments connected {B} w.

Definition M (B A : Type) : Type := World B -> outcome A * World B.

Section Monad.
Context {B : Type}.

Definition ret {A} (a : A) : M B A := fun w => (Returns a, w).

Definition bind {A C} (m : M B A) (k : A -> M B C) : M B C :=
  fun w =>
    match m w with
    | (Returns a, w') => k a w'
    | (Throws e, w') => (Throws e, w')
    | (Diverges, w') => (Diverges, w')
    end.

Definition throw {A} (e : thrown) : M B A := fun w => (Throws e, w).

Definition diverge {A} : M B A := fun w => (Diverges, w).

(** [try { m } catch (error) { handler error }] *)
Definition try_catch {A} (m : M B A) (handler : thrown -> M B A) : M B A :=
  fun w =>
    match m w with
    | (Throws e, w') => handler e w'
    | r => r
    end.

(** [try { m } finally { }] with a [finally] that has no effect of its own
    on the model (clearing the timer): the same as [m]. *)
Definition try_finally {A} (m : M B A) : M B A := m.

Definition tell (ev : event) : M B unit :=
  fun w =>
    (Returns tt,
     {| backend := backend w; trace := trace w ++ [ev];
        connected := connected w |}).

(** A call to a collaborator: the event, then the collaborator's answer
    and its new state. The collaborator sees its own state only. *)
Definition call {A} (ev : event) (oracle : B -> outcome A * B) : M B A :=
  fun w =>
    let '(r, b') := oracle (backend w) in
    (r, {| backend := b'; trace := trace w ++ [ev];
           connected := connected w |}).

Definition set_connected : M B unit :=
  fun w =>
    (Returns tt,
     {| backend := backend w; trace := trace w; connected := true |}).

Definition get_connected : M B bool := fun w => (Returns (connected w), w).
End Monad.

Notation "x <- m ;; k" := (bind m (fun x => k))
  (at level 100, m at next level, right associativity).
Notation "m ;;; k" := (bind m (fun _ => k))
  (at level 100, right associativity).

(** ** HTTP as the crawler sees it

    A response: its status, the three headers the code reads, and the body,
    absent or a stream. A stream is the sequence of its reads: chunks of
    bytes, closed by the end of the stream or broken by an error. *)

Inductive stream :=
  | StreamDone
  | StreamChunk (bytes : list N) (rest : stream)
  | StreamError (e : thrown).

Record Response := {
  status : Z;
  header_location : option jsstring;
  header_contentType : option jsstring;
  header_contentLength : option jsstring;
  response_body : option stream
}.

(** [response.ok] *)
Definition ok (r : Response) : bool :=
  (200 <=? status r) && (status r <=? 299).

(** [parseInt(s, 10)]: blanks, a sign, then digits; [None] is [NaN]. *)
Fixpoint parseDigits (acc : Z) (s : jsstring) : Z :=
  match s with
  | c :: s' =>
      if isDigit c then parseDigits (10 * acc + (Z.of_N c - 48)) s' else acc
  | [] => acc
  end.

Definition parseInt10 (s : jsstring) : option Z :=
  let s := trimStart s in
  let '(sign, s) :=
    match s with
    | c :: s' =>
        if (c =? 45)%N then (-1, s')
        else if (c =? 43)%N then (1, s') else (1, s)
    | [] => (1, s)
    end in
  if headIs isDigit s then Some (sign * parseDigits 0 s) else None.

(** What cheerio gives for a document once the unwanted elements
    ([script, style, nav, footer, header, aside, .sidebar, .navigation]) are
    removed: the texts the parser asks for, and the [href] attributes of the
    [a[href]] elements in document order. cheerio is not code of the
    repository: [load] is a parameter of the crawler. *)
Record Dom := {
  dom_title : jsstring;       (* $("title").text() *)
  dom_h1 : jsstring;          (* $("h1").first().text() *)
  dom_main : jsstring;        (* $("main").text() *)
  dom_article : jsstring;     (* $("article").text() *)
  dom_roleMain : jsstring;    (* $('[role="main"]').text() *)
  dom_body : jsstring;        (* $("body").text() *)
  dom_hrefs : list jsstring
}.

(** ** The crawler (services/crawler.ts) *)

Module Crawler.
Import Regex UrlGuard.

(** [s.replace(re, rep)] with the [g] flag, for a regular expression that
    never matches the empty string ([m] as for [split]). *)
Fixpoint replace_loop (m : jsstring -> option nat) (rep : jsstring)
    (skip : nat) (s : jsstring) : jsstring :=
  match s with
  | [] => []
  | c :: s' =>
      match skip with
      | S k => replace_loop m rep k s'
      | O =>
          match m s with
          | Some (S e) => rep ++ replace_loop m rep e s'
          | _ => c :: replace_loop m rep 0%nat s'
          end
      end
  end.

Definition replaceAll (m : jsstring -> option nat) (rep s : jsstring) : jsstring :=
  replace_loop m rep 0%nat s.

(** One more than the index of the last code unit of [l] that satisfies
    [p]. *)
Fixpoint last_index_succ (p : N -> bool) (l : jsstring) (i : nat)
    (best : option nat) : option nat :=
  match l with
  | [] => best
  | c :: l' => last_index_succ p l' (S i) (if p c then Some (S i) else best)
  end.

(** [/\n\s*\n/] at the head of the string: a newline, blanks, a newline; the
    blanks are taken as far as a newline still follows. *)
Definition re_newline_gap (s : jsstring) : option nat :=
  match s with
  | c1 :: rest =>
      if isNewline c1 then
        let blanks := firstn (span_length isWhiteSpace rest) rest in
        match last_index_succ isNewline blanks 0%nat None with
        | Some j => Some (S j)
        | None => None
        end
      else None
  | [] => None
  end.

Definition cleanText (text : jsstring) : jsstring :=
  trim
    (replaceAll re_newline_gap [10%N]
       (replaceAll re_spaces (str " ") text)).

(** [a || b] on strings. *)
Definition or_else (a b : jsstring) : jsstring := if truthy a then a else b.

(** A [Set] of strings, in insertion order. *)
Definition set_has (s : list jsstring) (x : jsstring) : bool := includes s x.
Definition set_add (s : list jsstring) (x : jsstring) : list jsstring :=
  if includes s x then s else s ++ [x].

(** /\.(pdf|zip|png|jpg|gif|svg|css|js)$/i *)
Definition re_binary_extension : pattern :=
  {| anchoredStart := false;
     body := Seq dot
               (Alts (List.map (fun e => LitCI (str e))
                        ["pdf"; "zip"; "png"; "jpg"; "gif"; "svg"; "css"; "js"]%string));
     anchoredEnd := true |}.

(** The [TypeError] of [new URL] on text it cannot parse. *)
Definition invalidUrl : thrown := ErrorObject (str "Invalid URL").

Section WithPlatform.
Context `{Platform}.

Definition MAX_DEPTH_LIMIT := Config.crawler_maxDepthLimit.
Definition DEFAULT_MAX_PAGES := Config.crawler_defaultMaxPages.
Definition REQUEST_DELAY_MS := Config.crawler_requestDelayMs.
Definition MAX_RESPONSE_SIZE_BYTES := Config.crawler_maxResponseSizeBytes.

(** [parsePage(url, html)]; [load] is cheerio on the document and [now]
    the clock read by [new Date()]. *)
Definition parsePage (load : jsstring -> Dom) (now : Z)
    (url html : jsstring) : CrawledPage :=
  let d := load html in
  let title := or_else (trim (dom_title d)) (or_else (trim (dom_h1 d)) url) in
  let mainContent :=
    or_else (dom_main d)
      (or_else (dom_article d) (or_else (dom_roleMain d) (dom_body d))) in
  let content := cleanText mainContent in
  let links :=
    fold_left
      (fun links href_ =>
         if truthy href_ then
           match URL_new href_ (Some url) with
           | Some u =>
               let absoluteUrl := href u in
               if startsWith absoluteUrl (str "http")
               then links ++ [absoluteUrl] else links
           | None => links (* Invalid URL, skip *)
           end
         else links)
      (dom_hrefs d) [] in
  {| page_url := url;
     page_title := title;
     page_content := content;
     page_links := fold_left set_add links [];
     page_crawledAt := DateNow now |}.

Definition filterValidLinks (links allowedDomains visited : list jsstring)
    : list jsstring :=
  List.filter
    (fun link =>
       if set_has visited link then false
       else
         match URL_new link None with
         | Some url =>
             if truthy (hash url) || test re_binary_extension link
             then false
             else
               existsb
                 (fun domain =>
                    str_eqb (hostname url) domain
                    || endsWith (hostname url) (str "." ++ domain))
                 allowedDomains
         | None => false
         end)
    links.

Section Fetcher.
Context {B : Type}.
(** cheerio, the HTTP client ([fetch] with [redirect: "manual"]) and the
    clock. The client may answer, throw (a network error, the abort of
    the timeout) or never answer. *)
Variable load : jsstring -> Dom.
Variable fetch : jsstring -> B -> outcome Response * B.
Variable clock : B -> Z.

Definition now : M B Z := fun w => (Returns (clock (backend w)), w).

(** The [while] loop of [readResponseWithLimit] over the reads of the
    stream. *)
Fixpoint read_loop (reader : stream) (chunks : list (list N))
    (totalSize : Z) : M B (option jsstring) :=
  match reader with
  | StreamDone => ret (Some (TextDecoder_decode (concat chunks)))
  | StreamChunk chunk rest =>
      let totalSize := totalSize + Z.of_nat (length chunk) in
      if MAX_RESPONSE_SIZE_BYTES <? totalSize
      then ret None (* reader.cancel() *)
      else read_loop rest (chunks ++ [chunk]) totalSize
  | StreamError e => throw e
  end.

Definition readResponseWithLimit (response : Response) (url : jsstring)
    : M B (option jsstring) :=
  match response_body response with
  | None => ret None
  | Some reader => read_loop reader [] 0
  end.

Definition isRedirect (response : Response) : bool :=
  (300 <=? status response) && (status response <? 400).

Definition isHtml (response : Response) : bool :=
  str_includes (default [] (header_contentType response)) (str "text/html").

(** [contentLength && parseInt(contentLength, 10) > MAX_RESPONSE_SIZE_BYTES] *)
Definition tooLarge (response : Response) : bool :=
  match header_contentLength response with
  | Some contentLength =>
      truthy contentLength &&
      match parseInt10 contentLength with
      | Some n => MAX_RESPONSE_SIZE_BYTES <? n
      | None => false
      end
  | None => false
  end.

(** The common tail of the two fetch functions: the checks on the content
    type and the size, the read, the parse. *)
Definition readAndParse (response : Response) (url : jsstring)
    : M B (option CrawledPage) :=
  if negb (isHtml response) then ret None
  else if tooLarge response then ret None
  else
    html <- readResponseWithLimit response url ;;
    match html with
    | Some html =>
        if truthy html then
          t <- now ;; ret (Some (parsePage load t url html))
        else ret None
    | None => ret None
    end.

Definition fetchWithoutRedirect (url : jsstring) : M B (option CrawledPage) :=
  response <- call (EvFetch url) (fetch url) ;;
  (* Don't follow further redirects *)
  if negb (ok response) || isRedirect response then ret None
  else readAndParse response url.

Definition fetchAndParsePage (url : jsstring) : M B (option CrawledPage) :=
  try_finally
    (response <- call (EvFetch url) (fetch url) ;;
     if isRedirect response then
       match header_location response with
       | Some location =>
           if truthy location then
             match URL_new location (Some url) with
             | Some u =>
                 let redirectUrl := href u in
                 if isBlockedUrl redirectUrl then ret None
                 else
                   (* single hop only to prevent redirect chains *)
                   fetchWithoutRedirect redirectUrl
             | None => throw invalidUrl
             end
           else ret None
       | None => ret None
       end
     else if negb (ok response) then ret None
     else readAndParse response url).
End Fetcher.

Section Crawl.
Context {B : Type}.
(** The fetcher the crawl loop calls: [fetchAndParsePage] above, or any
    other behaviour. *)
Variable fetchAndParsePage : jsstring -> M B (option CrawledPage).

Definition sleep (ms : Z) : M B unit := tell (EvSleep ms).

(** [if (queue.length > 0) await sleep(REQUEST_DELAY_MS)] *)
Definition rateLimit {A} (queue : list A) : M B unit :=
  match queue with
  | [] => ret tt
  | _ => sleep REQUEST_DELAY_MS
  end.

(** The [while (queue.length > 0 && pages.length < maxPages)] loop, in two
    parts. [crawl_scan] is the loop from one push of a page to the next: it
    goes down the queue, skipping and fetching, and the queue only shrinks;
    when a page is pushed it hands over to [resume] with the new queue.
    [crawl_loop] counts the pushes: [budget] is [maxPages - pages.length],
    and the loop runs while it is positive. *)
Fixpoint crawl_scan (maxDepth : Z) (domains : list jsstring)
    (resume : list (jsstring * Z) -> list jsstring -> list CrawledPage
              -> M B (list CrawledPage))
    (pages : list CrawledPage)
    (queue : list (jsstring * Z)) (visited : list jsstring)
    {struct queue} : M B (list CrawledPage) :=
  match queue with
  | [] => ret pages
  | (url, depth) :: queue =>
      if set_has visited url || (maxDepth <? depth)
      then crawl_scan maxDepth domains resume pages queue visited
      else if isBlockedUrl url
      then crawl_scan maxDepth domains resume pages queue visited
      else
        let visited := set_add visited url in
        fun w =>
          match (tell (EvVisit url depth) ;;; fetchAndParsePage url) w with
          | (Returns (Some page), w') =>
              let queue' :=
                if depth <? maxDepth
                then queue ++
                     List.map (fun link => (link, depth + 1))
                       (filterValidLinks (page_links page) domains visited)
                else queue in
              (rateLimit queue' ;;; resume queue' visited (pages ++ [page])) w'
          | (Returns None, w') =>
              (rateLimit queue ;;;
               crawl_scan maxDepth domains resume pages queue visited) w'
          | (Throws error, w') =>
              (* logger.error(`Failed to crawl ${url}`, error) *)
              crawl_scan maxDepth domains resume pages queue visited w'
          | (Diverges, w') => (Diverges, w')
          end
  end.

Fixpoint crawl_loop (maxDepth : Z) (domains : list jsstring) (budget : nat)
    (queue : list (jsstring * Z)) (visited : list jsstring)
    (pages : list CrawledPage) {struct budget} : M B (list CrawledPage) :=
  match budget with
  | O => ret pages
  | S budget' =>
      crawl_scan maxDepth domains (crawl_loop maxDepth domains budget')
        pages queue visited
  end.

Definition crawlWebsite (startUrl : jsstring) (options : CrawlOptions)
    : M B (list CrawledPage) :=
  (* Enforce max depth limit *)
  let maxDepth := Z.min (maxDepth options) MAX_DEPTH_LIMIT in
  let maxPages := default DEFAULT_MAX_PAGES (maxPages options) in
  (* SSRF check on start URL *)
  if isBlockedUrl startUrl then
    throw (ErrorObject
             (str "URL is not allowed: internal or private network detected"))
  else
    match URL_new startUrl None with
    | Some u =>
        let startDomain := hostname u in
        let domains := default [startDomain] (allowedDomains options) in
        crawl_loop maxDepth domains maxPages [(startUrl, 0)] [] []
    | None => throw invalidUrl
    end.
End Crawl.
End WithPlatform.
End Crawler.

(** ** The vector store (services/vectorstore.ts) *)

(** The metadata persisted with a chunk, and what [collection.get] answers:
    the ids, and the metadata when asked for. *)
Record Metadata := {
  md_url : jsstring;
  md_title : jsstring;
  md_chunkIndex : nat;
  md_totalChunks : nat;
  md_keywords : jsstring;
  md_indexedAt : jsstring
}.

Record GetResponse := {
  ids : list jsstring;
  metadatas : option (list (option Metadata))
}.

Module VectorStore.
Section WithPlatform.
Context `{Platform}.

Definition BATCH_SIZE : nat := Config.chroma_batchSize.
Definition RRF_K : float := Config.search_rrfK.

Definition getBaseUrl (url : jsstring) : jsstring :=
  match URL_new url None with
  | Some parsed => protocol parsed ++ str "//" ++ hostname parsed
  | None => url
  end.

(** *** Reciprocal rank fusion *)

(** An array index as a number. *)
Definition num (i : nat) : float :=
  PrimFloat.of_uint63 (Uint63.of_Z (Z.of_nat i)).

(** [`${result.url}:${result.text.slice(0, 100)}`] *)
Definition dedupKey (result : SearchResult) : jsstring :=
  res_url result ++ str ":" ++ slice0 (res_text result) 100.

Record Scored := {
  scored_result : SearchResult;
  scored_score : float
}.

(** [existing.score += rrfScore] on the entry of [key], where it stands. *)
Fixpoint addScore (key : jsstring) (rrfScore : float)
    (scores : list (jsstring * Scored)) : list (jsstring * Scored) :=
  match scores with
  | [] => []
  | (k', e) :: rest =>
      if str_eqb k' key
      then (k', {| scored_result := scored_result e;
                   scored_score := (scored_score e + rrfScore)%float |}) :: rest
      else (k', e) :: addScore key rrfScore rest
  end.

(** [scores.get(key)] is there *)
Definition hasKey {V} (key : jsstring) (m : list (jsstring * V)) : bool :=
  existsb (fun kv => str_eqb (fst kv) key) m.

(** One [forEach((result, i) => ...)] pass over a ranked list; [i] is the
    rank of the head of [results]. *)
Fixpoint rrf_pass (k : float) (results : list SearchResult) (i : nat)
    (scores : list (jsstring * Scored)) : list (jsstring * Scored) :=
  match results with
  | [] => scores
  | result :: rest =>
      let key := dedupKey result in
      let rrfScore := (1 / (k + num i + 1))%float in
      let scores :=
        if hasKey key scores then addScore key rrfScore scores
        else scores ++ [(key, {| scored_result := result;
                                 scored_score := rrfScore |})] in
      rrf_pass k rest (S i) scores
  end.

(** The [Map] after both passes. *)
Definition rrfScores (results1 results2 : list SearchResult) (k : float)
    : list (jsstring * Scored) :=
  rrf_pass k results2 0 (rrf_pass k results1 0 []).

(** The last parameter is optional: [k: number = RRF_K]. *)
Definition reciprocalRankFusion (results1 results2 : list SearchResult)
    (topK : Z) (k : option float) : list SearchResult :=
  let k := default RRF_K k in
  let scores := rrfScores results1 results2 k in
  List.map
    (fun e => {| res_text := res_text (scored_result e);
                 res_url := res_url (scored_result e);
                 res_title := res_title (scored_result e);
                 res_score := scored_score e |})
    (arr_slice
       (stable_sort
          (fun a b => (0 <? scored_score b - scored_score a)%float)
          (List.map snd scores))
       0 topK).

(** *** The source catalog *)

Record SourceEntry := {
  entry_title : jsstring;
  entry_pageUrls : list jsstring;
  entry_chunkCount : nat;
  entry_indexedAt : jsstring
}.

(** [source.pageUrls.add(url); source.chunkCount++] on the entry of
    [baseUrl]. *)
Fixpoint touchSource (baseUrl url : jsstring)
    (sourceMap : list (jsstring * SourceEntry))
    : list (jsstring * SourceEntry) :=
  match sourceMap with
  | [] => []
  | (k', source) :: rest =>
      if str_eqb k' baseUrl
      then (k', {| entry_title := entry_title source;
                   entry_pageUrls := Crawler.set_add (entry_pageUrls source) url;
                   entry_chunkCount := S (entry_chunkCount source);
                   entry_indexedAt := entry_indexedAt source |}) :: rest
      else (k', source) :: touchSource baseUrl url rest
  end.

(** The body of [for (const meta of batch.metadatas)]. *)
Definition addMeta (sourceMap : list (jsstring * SourceEntry))
    (meta : option Metadata) : list (jsstring * SourceEntry) :=
  match meta with
  | None => sourceMap
  | Some meta =>
      let url := md_url meta in
      let baseUrl := getBaseUrl url in
      let sourceMap :=
        if negb (hasKey baseUrl sourceMap)
        then sourceMap ++
             [(baseUrl, {| entry_title := md_title meta;
                           entry_pageUrls := [];
                           entry_chunkCount := 0;
                           entry_indexedAt := md_indexedAt meta |})]
        else sourceMap in
      touchSource baseUrl url sourceMap
  end.

Definition toSourceInfo (kv : jsstring * SourceEntry) : SourceInfo :=
  let '(url, data) := kv in
  {| src_url := url;
     src_title := entry_title data;
     src_pageCount := length (entry_pageUrls data);
     src_chunkCount := entry_chunkCount data;
     src_indexedAt := DateOf (entry_indexedAt data) |}.

(** The ids of a batch whose metadata has a url that starts with
    [baseUrl]; [i] is the index of the head of [ids]. *)
Fixpoint selectIds (baseUrl : jsstring) (batch_ids : list jsstring)
    (batch_metadatas : list (option Metadata)) (i : nat) : list jsstring :=
  match batch_ids with
  | [] => []
  | id :: rest =>
      let selected :=
        match nth_error batch_metadatas i with
        | Some (Some meta) => startsWith (md_url meta) baseUrl
        | _ => false
        end in
      if selected then id :: selectIds baseUrl rest batch_metadatas (S i)
      else selectIds baseUrl rest batch_metadatas (S i)
  end.

Section Store.
Context {B : Type}.
(** The Chroma client: opening the collection, a page of it
    ([include: metadatas], [limit], [offset]), deleting by id. *)
Variable connect : B -> outcome unit * B.
Variable col_get : nat -> nat -> B -> outcome GetResponse * B.
Variable col_delete : list jsstring -> B -> outcome unit * B.

(** The handle is made on first use and kept. *)
Definition getCollection : M B unit :=
  collection <- get_connected ;;
  if collection : bool then ret tt
  else call EvConnect connect ;;; set_connected.

(** The [while (hasMore)] loop of [listSources]. *)
Fixpoint listSources_loop (fuel : nat)
    (sourceMap : list (jsstring * SourceEntry)) (offset : nat)
    : M B (list (jsstring * SourceEntry)) :=
  match fuel with
  | O => diverge
  | S fuel' =>
      batch <- call (EvGet BATCH_SIZE offset) (col_get BATCH_SIZE offset) ;;
      match metadatas batch with
      | None => ret sourceMap
      | Some batch_metadatas =>
          if (length batch_metadatas =? 0)%nat then ret sourceMap
          else
            let sourceMap := fold_left addMeta batch_metadatas sourceMap in
            let offset := (offset + length batch_metadatas)%nat in
            if (length batch_metadatas =? BATCH_SIZE)%nat
            then listSources_loop fuel' sourceMap offset
            else ret sourceMap
      end
  end.

Definition listSources (fuel : nat) : M B (list SourceInfo) :=
  getCollection ;;;
  sourceMap <- listSources_loop fuel [] 0%nat ;;
  ret (List.map toSourceInfo sourceMap).

(** The [while (hasMore)] loop of [deleteByUrl]. *)
Fixpoint deleteByUrl_loop (fuel : nat) (baseUrl : jsstring)
    (totalDeleted offset : nat) : M B nat :=
  match fuel with
  | O => diverge
  | S fuel' =>
      batch <- call (EvGet BATCH_SIZE offset) (col_get BATCH_SIZE offset) ;;
      match metadatas batch with
      | None => ret totalDeleted
      | Some batch_metadatas =>
          if (length (ids batch) =? 0)%nat then ret totalDeleted
          else
            let idsToDelete :=
              selectIds baseUrl (ids batch) batch_metadatas 0 in
            (if (0 <? length idsToDelete)%nat
             then call (EvDelete idsToDelete) (col_delete idsToDelete)
             else ret tt) ;;;
            let totalDeleted :=
              if (0 <? length idsToDelete)%nat
              then (totalDeleted + length idsToDelete)%nat
              else totalDeleted in
            let offset :=
              if (length idsToDelete =? 0)%nat
              then (offset + length (ids batch))%nat else offset in
            if (length (ids batch) =? BATCH_SIZE)%nat
            then deleteByUrl_loop fuel' baseUrl totalDeleted offset
            else ret totalDeleted
      end
  end.

Definition deleteByUrl (fuel : nat) (url : jsstring) : M B nat :=
  getCollection ;;;
  let baseUrl := getBaseUrl url in
  deleteByUrl_loop fuel baseUrl 0%nat 0%nat.
End Store.
End WithPlatform.
End VectorStore.

(** ** The tools (tools/*.ts) and the server's handler (index.ts) *)

(** A number that arrives from the caller: an integer, or anything else (a
    fraction, [NaN], an infinity). *)
Inductive number :=
  | Integer (z : Z)
  | NonInteger.

Record CrawlAndIndexInput := {
  crawl_url : jsstring;
  crawl_max_depth : option number
}.

Record CrawlAndIndexResult := {
  crawl_success : bool;
  crawl_pagesIndexed : nat;
  crawl_chunksCreated : nat;
  crawl_result_url : jsstring;
  crawl_error : option jsstring
}.

Record SearchDocsInput := {
  search_query : option jsstring;   (* [None]: no string with a [trim] *)
  search_top_k : option Z;
  search_hybrid : option bool;
  search_expand_query : option bool
}.

Record SearchDocsResult := {
  search_results : list SearchResult;
  search_result_query : jsstring;
  search_totalResults : nat;
  search_error : option jsstring
}.

Record ListSourcesResult := {
  list_sources : list SourceInfo;
  list_totalSources : nat
}.

Record DeleteSourceInput := { delete_url : jsstring }.

Record DeleteSourceResult := {
  delete_success : bool;
  delete_deletedChunks : nat;
  delete_result_url : jsstring;
  delete_error : option jsstring
}.

Module Tools.
Section WithServices.
Context `{Platform} {B : Type}.
(** The services the tools call: the embedding client's check, the
    crawler, the store's writer, the search and the source catalog. Each
    may answer, throw or never answer. *)
Variable ensureModelAvailable : M B bool.
Variable crawlWebsite : jsstring -> CrawlOptions -> M B (list CrawledPage).
Variable addChunks : list Chunk -> M B nat.
Variable searchSimilar : jsstring -> SearchOptions -> M B (list SearchResult).
Variable listSources : M B (list SourceInfo).
Variable deleteByUrl : jsstring -> M B nat.

Definition MAX_TOP_K := Config.search_maxTopK.
Definition MAX_QUERY_LENGTH := Config.search_maxQueryLength.

Definition crawlFailure (url message : jsstring) : CrawlAndIndexResult :=
  {| crawl_success := false; crawl_pagesIndexed := 0; crawl_chunksCreated := 0;
     crawl_result_url := url; crawl_error := Some message |}.

(** [max_depth !== undefined && (!Number.isInteger(max_depth) || max_depth < 0)] *)
Definition invalidDepth (max_depth : option number) : bool :=
  match max_depth with
  | None => false
  | Some NonInteger => true
  | Some (Integer z) => z <? 0
  end.

Definition crawlAndIndex (input : CrawlAndIndexInput)
    : M B CrawlAndIndexResult :=
  let url := crawl_url input in
  let max_depth := crawl_max_depth input in
  if invalidDepth max_depth then
    ret (crawlFailure url (str "max_depth must be a non-negative integer"))
  else
    let effectiveMaxDepth :=
      match max_depth with Some (Integer z) => z | _ => 2 end in
    try_catch
      (match URL_new url None with
       | Some parsedUrl =>
           if negb (includes [str "http:"; str "https:"] (protocol parsedUrl))
           then ret (crawlFailure url
                       (str "Invalid URL: must use http or https protocol"))
           else
             modelReady <- ensureModelAvailable ;;
             if negb modelReady then
               ret (crawlFailure url
                      (str "Embedding model not available. Is Ollama running?"))
             else
               pages <- crawlWebsite url
                          {| maxDepth := effectiveMaxDepth;
                             maxPages := None; allowedDomains := None |} ;;
               if (length pages =? 0)%nat then
                 ret (crawlFailure url (str "No pages found to index"))
               else
                 match Chunker.chunkPages pages None with
                 | Some chunks =>
                     addedCount <- addChunks chunks ;;
                     ret {| crawl_success := true;
                            crawl_pagesIndexed := length pages;
                            crawl_chunksCreated := addedCount;
                            crawl_result_url := url;
                            crawl_error := None |}
                 | None => diverge
                 end
       | None => throw Crawler.invalidUrl
       end)
      (fun error => ret (crawlFailure url (errorMessage error))).

Definition searchDocs (input : SearchDocsInput) : M B SearchDocsResult :=
  let top_k := default 5 (search_top_k input) in
  let hybrid := default true (search_hybrid input) in
  let expand_query := default false (search_expand_query input) in
  let trimmedQuery := default [] (trim <$> search_query input) in
  (* Validate query length to prevent DoS *)
  if MAX_QUERY_LENGTH <? len trimmedQuery then
    ret {| search_results := [];
           search_result_query := slice0 trimmedQuery 100 ++ str "...";
           search_totalResults := 0;
           search_error :=
             Some (str "Query exceeds maximum length of "
                     ++ toStringRadix 10 MAX_QUERY_LENGTH
                     ++ str " characters") |}
  else if negb (truthy trimmedQuery) then
    ret {| search_results := []; search_result_query := [];
           search_totalResults := 0; search_error := None |}
  else
    let validatedTopK := Z.min (Z.max 1 top_k) MAX_TOP_K in
    results <- searchSimilar trimmedQuery
                 {| topK := Some validatedTopK; hybrid := Some hybrid;
                    expandQuery := Some expand_query |} ;;
    ret {| search_results := results;
           search_result_query := trimmedQuery;
           search_totalResults := length results;
           search_error := None |}.

Definition listIndexedSources : M B ListSourcesResult :=
  sources <- listSources ;;
  ret {| list_sources := sources; list_totalSources := length sources |}.

Definition deleteFailure (url message : jsstring) : DeleteSourceResult :=
  {| delete_success := false; delete_deletedChunks := 0;
     delete_result_url := url; delete_error := Some message |}.

Definition deleteSource (input : DeleteSourceInput) : M B DeleteSourceResult :=
  let url := delete_url input in
  try_catch
    (match URL_new url None with
     | Some _ =>
         deletedCount <- deleteByUrl url ;;
         if (deletedCount =? 0)%nat then
           ret (deleteFailure url (str "No documents found matching this URL"))
         else
           ret {| delete_success := true; delete_deletedChunks := deletedCount;
                  delete_result_url := url; delete_error := None |}
     | None => throw Crawler.invalidUrl
     end)
    (fun error => ret (deleteFailure url (errorMessage error))).

(** *** The handler of tool calls (index.ts) *)

Inductive ToolCall :=
  | CallCrawlAndIndex (input : CrawlAndIndexInput)
  | CallSearchDocs (input : SearchDocsInput)
  | CallListSources
  | CallDeleteSource (input : DeleteSourceInput)
  | CallOther (name : jsstring).

(** The text of a response: [JSON.stringify] of a tool's result, or a
    message. *)
Inductive ToolText :=
  | JsonCrawl (r : CrawlAndIndexResult)
  | JsonSearch (r : SearchDocsResult)
  | JsonList (r : ListSourcesResult)
  | JsonDelete (r : DeleteSourceResult)
  | Text (s : jsstring).

Record ToolResponse := {
  content : ToolText;
  isError : bool
}.

Definition handleCallTool (request : ToolCall) : M B ToolResponse :=
  try_catch
    (match request with
     | CallCrawlAndIndex input =>
         result <- crawlAndIndex input ;;
         ret {| content := JsonCrawl result; isError := false |}
     | CallSearchDocs input =>
         result <- searchDocs input ;;
         ret {| content := JsonSearch result; isError := false |}
     | CallListSources =>
         result <- listIndexedSources ;;
         ret {| content := JsonList result; isError := false |}
     | CallDeleteSource input =>
         result <- deleteSource input ;;
         ret {| content := JsonDelete result; isError := false |}
     | CallOther name =>
         ret {| content := Text (str "Unknown tool: " ++ name);
                isError := true |}
     end)
    (fun error =>
       ret {| content := Text (str "Error: " ++ errorMessage error);
              isError := true |}).
End WithServices.
End Tools.

(** ** A small platform, to run the code on concrete inputs

    A parser for URLs of the shape [scheme://host[:port][/path][#fragment]]
    that does what the WHATWG parser does on them: the scheme and the host in
    lower case, the default port of the scheme dropped, an empty path made
    [/]. With a base it also resolves a path that starts with [/]. Anything
    else fails to parse. Bytes decode as ASCII. *)

Module Simple.

Fixpoint break_at (p : N -> bool) (s : jsstring) : jsstring * jsstring :=
  match s with
  | [] => ([], [])
  | c :: s' =>
      if p c then ([], s)
      else let '(a, b) := break_at p s' in (c :: a, b)
  end.

Definition isColon (c : N) : bool := (c =? 58)%N.
Definition isSlash (c : N) : bool := (c =? 47)%N.
Definition isPathStart (c : N) : bool := ((c =? 47) || (c =? 63) || (c =? 35))%N.
Definition isAsciiLetter (c : N) : bool := isLowerAZ (asciiLower c).
Definition isHostChar (c : N) : bool :=
  isWordChar c || (c =? 45)%N || (c =? 46)%N.

Definition defaultPort (scheme : jsstring) : jsstring :=
  if str_eqb scheme (str "http") then str "80"
  else if str_eqb scheme (str "https") then str "443"
  else [].

Definition parseAbsolute (input : jsstring) : option URL :=
  let '(scheme, rest) := break_at isColon input in
  match rest with
  | _ :: c1 :: c2 :: rest =>
      if negb (truthy scheme) || negb (forallb isAsciiLetter scheme)
         || negb (isSlash c1 && isSlash c2) then None
      else
        let scheme := List.map asciiLower scheme in
        let '(authority, tail) := break_at isPathStart rest in
        let '(host, portPart) := break_at isColon authority in
        let port := match portPart with _ :: p => p | [] => [] end in
        if negb (truthy host) || negb (forallb isHostChar host)
           || negb (forallb isDigit port) then None
        else
          let host := List.map asciiLower host in
          let port := if str_eqb port (defaultPort scheme) then [] else port in
          let '(path, fragment) := break_at isHash tail in
          let path := if truthy path then path else str "/" in
          let fragment := match fragment with [_] => [] | _ => fragment end in
          Some {| href := scheme ++ str "://" ++ host
                            ++ (if truthy port then str ":" ++ port else [])
                            ++ path ++ fragment;
                  protocol := scheme ++ str ":";
                  hostname := host;
                  port := port;
                  hash := fragment |}
  | _ => None
  end.

Definition newURL (input : jsstring) (base : option jsstring) : option URL :=
  match parseAbsolute input with
  | Some u => Some u
  | None =>
      match base with
      | Some base =>
          match parseAbsolute base with
          | Some b =>
              if headIs isSlash input then
                parseAbsolute
                  (protocol b ++ str "//" ++ hostname b
                     ++ (if truthy (port b) then str ":" ++ port b else [])
                     ++ input)
              else None
          | None => None
          end
      | None => None
      end
  end.

#[export] Instance platform : Platform := {|
  URL_new := newURL;
  toLowerCase := List.map asciiLower;
  toLowerCase_ascii := fun s _ => eq_refl;
  TextDecoder_decode := fun bytes => bytes
|}.

End Simple.

(** ** A store that behaves

    The collection as a list of records in a fixed order: a page is the
    records from [offset] on, [limit] at most; deleting removes the records
    of the given ids, so the records behind them move up. *)

Module IdealStore.

Record StoredRecord := {
  rec_id : jsstring;
  rec_metadata : option Metadata
}.

Definition store := list StoredRecord.

Definition connect (b : store) : outcome unit * store := (Returns tt, b).

Definition col_get (limit offset : nat) (b : store)
    : outcome GetResponse * store :=
  let page := firstn limit (skipn offset b) in
  (Returns {| ids := List.map rec_id page;
              metadatas := Some (List.map rec_metadata page) |}, b).

Definition col_delete (del : list jsstring) (b : store)
    : outcome unit * store :=
  (Returns tt, List.filter (fun r => negb (includes del (rec_id r))) b).

Definition world (b : store) : World store :=
  {| backend := b; trace := []; connected := false |}.

End IdealStore.

(** ** Service URLs (config.ts) *)

Module ServiceUrl.
Section WithPlatform.
Context `{Platform}.

Definition allowedHosts : list jsstring :=
  List.map str ["localhost"; "127.0.0.1"; "ollama"; "chromadb"; "chroma"]%string.

(** Is the warning [Non-standard host for ...] logged: the host off the
    list is logged and allowed. *)
Definition warnsOfHost (parsed : URL) : bool :=
  negb (includes allowedHosts (toLowerCase (hostname parsed))).

(** [validateServiceUrl(url, serviceName)]: the url, or the [Error] thrown.
    What is thrown inside the [try] is caught and thrown again under the
    message [Invalid <serviceName> URL: <message>]. *)
Definition validateServiceUrl (url serviceName : jsstring) : outcome jsstring :=
  let attempt : outcome jsstring :=
    match URL_new url None with
    | Some parsed =>
        (* Only allow http/https protocols *)
        if negb (includes [str "http:"; str "https:"] (protocol parsed))
        then Throws (ErrorObject
                       (str "Invalid protocol for " ++ serviceName
                          ++ str ": only http/https allowed"))
        else
          (* if (!allowedHosts.includes(hostname)) logger.warn(...) *)
          Returns url
    | None => Throws Crawler.invalidUrl
    end in
  match attempt with
  | Throws error =>
      let message :=
        match error with
        | ErrorObject message => message
        | OtherValue => str "Invalid URL"
        end in
      Throws (ErrorObject
                (str "Invalid " ++ serviceName ++ str " URL: " ++ message))
  | r => r
  end.

(** [config.ollama.host] and [config.chroma.host], from the environment
    variable when it is set. *)
Definition ollama_host (env_OLLAMA_HOST : option jsstring) : outcome jsstring :=
  validateServiceUrl (default (str "http://localhost:11434") env_OLLAMA_HOST)
    (str "OLLAMA_HOST").

Definition chroma_host (env_CHROMA_HOST : option jsstring) : outcome jsstring :=
  validateServiceUrl (default (str "http://localhost:8000") env_CHROMA_HOST)
    (str "CHROMA_HOST").
End WithPlatform.
End ServiceUrl.

(** ** The logger's levels (logger.ts) *)

Module Logger.

Inductive LogLevel :=
  | level_debug
  | level_info
  | level_warn
  | level_error.

Definition levelName (level : LogLevel) : jsstring :=
  match level with
  | level_debug => str "debug"
  | level_info => str "info"
  | level_warn => str "warn"
  | level_error => str "error"
  end.

(** [LOG_LEVELS[name]] as a number: the rank of a level. A name that is no
    level gives [undefined] or a property of [Object.prototype], which is
    no number: [None]. *)
Definition LOG_LEVELS (name : jsstring) : option Z :=
  if str_eqb name (str "debug") then Some 0
  else if str_eqb name (str "info") then Some 1
  else if str_eqb name (str "warn") then Some 2
  else if str_eqb name (str "error") then Some 3
  else None.

(** [process.env.LOG_LEVEL ?? "info"], taken as a level without a check. *)
Definition currentLevel (env_LOG_LEVEL : option jsstring) : jsstring :=
  default (str "info") env_LOG_LEVEL.

(** [LOG_LEVELS[level] >= LOG_LEVELS[currentLevel]]; [>=] is false when a
    side is no number. *)
Definition shouldLog (env_LOG_LEVEL : option jsstring) (level : LogLevel)
    : bool :=
  match LOG_LEVELS (levelName level),
        LOG_LEVELS (currentLevel env_LOG_LEVEL) with
  | Some a, Some b => b <=? a
  | _, _ => false
  end.

End Logger.

(** ** The embedding client's check of the model (services/embedder.ts)

    The Ollama server as the client sees it: the reply to [GET /api/tags]
    with what [response.json()] gives (the names of the models, [None] when
    [data.models] is not there), and the reply to [POST /api/pull] with its
    body. *)

Record TagsReply := {
  tags_ok : bool;
  tags_json : outcome (option (list jsstring))
}.

Record PullReply := {
  pull_ok : bool;
  pull_body : option stream
}.

Module Embedder.

Definition EMBEDDING_MODEL : jsstring := str "nomic-embed-text".

Section Client.
Context {B : Type}.
Variable OLLAMA_HOST : jsstring.
Variable fetchTags : B -> outcome TagsReply * B.
Variable fetchPull : B -> outcome PullReply * B.

(** The [while (!done)] loop of [pullModel] over the reads of the body. *)
Fixpoint drain (reader : stream) : M B unit :=
  match reader with
  | StreamDone => ret tt
  | StreamChunk _ rest => drain rest
  | StreamError e => throw e
  end.

Definition pullModel : M B unit :=
  response <- call (EvFetch (OLLAMA_HOST ++ str "/api/pull")) fetchPull ;;
  if negb (pull_ok response) then
    throw (ErrorObject (str "Failed to initialize embedding model."))
  else
    (* Stream the response to wait for completion *)
    match pull_body response with
    | Some reader => drain reader
    | None => ret tt
    end.

(** [data.models?.some(m => m.name === MODEL || m.name.startsWith(MODEL + ":"))] *)
Definition hasModel (models : option (list jsstring)) : bool :=
  match models with
  | Some names =>
      existsb
        (fun name =>
           str_eqb name EMBEDDING_MODEL
           || startsWith name (EMBEDDING_MODEL ++ str ":"))
        names
  | None => false
  end.

Definition ensureModelAvailable : M B bool :=
  try_catch
    (response <- call (EvFetch (OLLAMA_HOST ++ str "/api/tags")) fetchTags ;;
     if negb (tags_ok response) then ret false
     else
       match tags_json response with
       | Returns models =>
           (if negb (hasModel models) then pullModel else ret tt) ;;;
           ret true
       | Throws e => throw e
       | Diverges => diverge
       end)
    (fun error => ret false).
End Client.
End Embedder.

(** ** Indexing and search (services/vectorstore.ts)

    What [col.query] answers for the one embedding it is asked with:
    [results.documents?.[0]], and the entries of [results.metadatas?.[0]]
    and [results.distances?.[0]], of which the code reads the one at the
    index of the document. A distance may be missing, [null], or a
    number. *)

Inductive distance :=
  | DistanceMissing
  | DistanceNull
  | DistanceOf (d : float).

Record QueryMetadata := {
  qm_url : jsstring;
  qm_title : jsstring
}.

Record QueryReply := {
  q_documents : option (list (option jsstring));
  q_metadatas : list (option QueryMetadata);
  q_distances : list distance
}.

(** What [col.get] answers when asked for documents and metadata. *)
Record DocsResponse := {
  docs_documents : option (list (option jsstring));
  docs_metadatas : option (list (option Metadata))
}.

(** What [col.add] is given. *)
Record AddRequest := {
  add_ids : list jsstring;
  add_documents : list jsstring;
  add_metadatas : list Metadata;
  add_embeddings : list (list float)
}.

Module Retrieval.
Import VectorStore.
Section WithPlatform.
Context `{Platform}.

(** [options.expandQuery ?? false] *)
Definition useQueryExpansion (options : SearchOptions) : bool :=
  default false (expandQuery options).

Definition expandQuery (query : jsstring) : list jsstring :=
  [query; str "what is " ++ query; str "how to " ++ query;
   query ++ str " example"].

(** [distance !== null ? 1 - distance : 0]; a missing distance is
    [undefined], and [1 - undefined] is [NaN]. *)
Definition scoreOfDistance (d : distance) : float :=
  match d with
  | DistanceNull => 0%float
  | DistanceOf x => (1 - x)%float
  | DistanceMissing => PrimFloat.nan
  end.

(** The [for] loop over [results.documents[0]]; [i] is the index of the
    head of [documents]. *)
Fixpoint collect (documents : list (option jsstring)) (i : nat)
    (results : QueryReply) (allResults : list SearchResult)
    : list SearchResult :=
  match documents with
  | [] => allResults
  | doc :: rest =>
      let meta := default None (nth_error (q_metadatas results) i) in
      let distance :=
        default DistanceMissing (nth_error (q_distances results) i) in
      let allResults :=
        match doc, meta with
        | Some doc, Some meta =>
            if truthy doc then
              allResults ++
                [{| res_text := doc; res_url := qm_url meta;
                    res_title := qm_title meta;
                    res_score := scoreOfDistance distance |}]
            else allResults
        | _, _ => allResults
        end in
      collect rest (S i) results allResults
  end.

(** [seen.get(key)] and [seen.set(key, result)] on a [Map] in insertion
    order: a key that is there keeps its place. *)
Fixpoint seen_get (key : jsstring) (seen : list (jsstring * SearchResult))
    : option SearchResult :=
  match seen with
  | [] => None
  | (k', r) :: rest => if str_eqb k' key then Some r else seen_get key rest
  end.

Fixpoint seen_set (key : jsstring) (result : SearchResult)
    (seen : list (jsstring * SearchResult)) : list (jsstring * SearchResult) :=
  match seen with
  | [] => [(key, result)]
  | (k', r) :: rest =>
      if str_eqb k' key then (k', result) :: rest
      else (k', r) :: seen_set key result rest
  end.

(** Deduplicate by URL+text and keep highest score. *)
Definition keepBest (seen : list (jsstring * SearchResult))
    (result : SearchResult) : list (jsstring * SearchResult) :=
  let key := dedupKey result in
  match seen_get key seen with
  | Some existing =>
      if (res_score existing <? res_score result)%float
      then seen_set key result seen else seen
  | None => seen_set key result seen
  end.

(** [/,/] at the head of the string: the separator of [split(",")]. *)
Definition re_comma (s : jsstring) : option nat :=
  match s with
  | c :: _ => if (c =? 44)%N then Some 1%nat else None
  | [] => None
  end.

(** The number of query words that are among the keywords or occur in the
    document in lower case. *)
Definition matchCount (queryWords keywords : list jsstring) (doc : jsstring)
    : nat :=
  length
    (List.filter
       (fun qWord =>
          includes keywords qWord || str_includes (toLowerCase doc) qWord)
       queryWords).

Record ScoredDoc := {
  sd_doc : jsstring;
  sd_url : jsstring;
  sd_title : jsstring;
  sd_score : float
}.

(** The [for] loop of [keywordSearch] over [batch.metadatas]; [i] is the
    index of the head of [metadatas]. *)
Fixpoint scoreBatch (queryWords : list jsstring)
    (documents : list (option jsstring)) (metadatas : list (option Metadata))
    (i : nat) (allScored : list ScoredDoc) : list ScoredDoc :=
  match metadatas with
  | [] => allScored
  | meta :: rest =>
      let allScored :=
        match meta with
        | None => allScored
        | Some meta =>
            let keywords := split re_comma (md_keywords meta) in
            let doc := default [] (default None (nth_error documents i)) in
            let matchCount := matchCount queryWords keywords doc in
            if (0 <? matchCount)%nat then
              allScored ++
                [{| sd_doc := doc; sd_url := md_url meta;
                    sd_title := md_title meta;
                    sd_score := (num matchCount / num (length queryWords))%float |}]
            else allScored
        end in
      scoreBatch queryWords documents rest (S i) allScored
  end.

(** [context ? `${context}\n\n${c.text}` : c.text] with
    [context = c.metadata.context ?? ""]: the text that is embedded. *)
Definition contextualText (c : Chunk) : jsstring :=
  let context := default [] (meta_context (chunk_metadata c)) in
  if truthy context then context ++ [10%N; 10%N] ++ chunk_text c
  else chunk_text c.

(** The metadata that is stored with a chunk; [indexedAt] is
    [new Date().toISOString()]. *)
Definition storedMetadataOf (indexedAt : jsstring) (c : Chunk) : Metadata :=
  {| md_url := meta_url (chunk_metadata c);
     md_title := meta_title (chunk_metadata c);
     md_chunkIndex := meta_chunkIndex (chunk_metadata c);
     md_totalChunks := meta_totalChunks (chunk_metadata c);
     md_keywords :=
       match meta_keywords (chunk_metadata c) with
       | Some keywords => join (str ",") keywords
       | None => []
       end;
     md_indexedAt := indexedAt |}.

Section Store.
Context {B : Type}.
(** The Chroma client (opening the collection, [col.add], [col.query],
    [col.get] with documents), the clock, and the embedding client. Each
    may answer, throw or never answer. *)
Variable connect : B -> outcome unit * B.
Variable isoNow : B -> jsstring.
Variable generateEmbedding : jsstring -> M B (list float).
Variable generateEmbeddings : list jsstring -> M B (list (list float)).
Variable col_add : AddRequest -> M B unit.
Variable col_query : list float -> Z -> M B QueryReply.
Variable col_getDocs : nat -> nat -> B -> outcome DocsResponse * B.

Definition addChunks (chunks : list Chunk) : M B nat :=
  getCollection connect ;;;
  let ids := List.map chunk_id chunks in
  (* Contextual embedding: prepend context to text *)
  let documents := List.map contextualText chunks in
  indexedAt <- (fun w => (Returns (isoNow (backend w)), w)) ;;
  let metadatas := List.map (storedMetadataOf indexedAt) chunks in
  embeddings <- generateEmbeddings documents ;;
  (* Store original text (not contextual) for retrieval display *)
  let originalTexts := List.map chunk_text chunks in
  col_add {| add_ids := ids; add_documents := originalTexts;
             add_metadatas := metadatas; add_embeddings := embeddings |} ;;;
  ret (length chunks).

(** The [for (const query of queries)] loop of [semanticSearch]. *)
Fixpoint queries_loop (queries : list jsstring) (topK : Z)
    (allResults : list SearchResult) : M B (list SearchResult) :=
  match queries with
  | [] => ret allResults
  | query :: rest =>
      embedding <- generateEmbedding query ;;
      results <- col_query embedding topK ;;
      let allResults :=
        match q_documents results with
        | Some documents => collect documents 0 results allResults
        | None => allResults
        end in
      queries_loop rest topK allResults
  end.

Definition semanticSearch (queries : list jsstring) (topK : Z)
    : M B (list SearchResult) :=
  allResults <- queries_loop queries topK [] ;;
  let seen := fold_left keepBest allResults [] in
  ret (stable_sort (fun a b => (0 <? res_score b - res_score a)%float)
         (List.map snd seen)).

(** The [while (hasMore)] loop of [keywordSearch]. *)
Fixpoint keywordSearch_loop (fuel : nat) (queryWords : list jsstring)
    (allScored : list ScoredDoc) (offset : nat) : M B (list ScoredDoc) :=
  match fuel with
  | O => diverge
  | S fuel' =>
      batch <- call (EvGet BATCH_SIZE offset) (col_getDocs BATCH_SIZE offset) ;;
      match docs_documents batch, docs_metadatas batch with
      | Some documents, Some metadatas =>
          if (length documents =? 0)%nat then ret allScored
          else
            let allScored :=
              scoreBatch queryWords documents metadatas 0 allScored in
            let offset := (offset + length documents)%nat in
            if (length documents =? BATCH_SIZE)%nat
            then keywordSearch_loop fuel' queryWords allScored offset
            else ret allScored
      | _, _ => ret allScored
      end
  end.

Definition keywordSearch (fuel : nat) (query : jsstring) (topK : Z)
    : M B (list SearchResult) :=
  let queryWords := match_words (toLowerCase query) in
  if (length queryWords =? 0)%nat then ret []
  else
    allScored <- keywordSearch_loop fuel queryWords [] 0%nat ;;
    (* Sort by score and return top results *)
    let sorted :=
      stable_sort (fun a b => (0 <? sd_score b - sd_score a)%float) allScored in
    ret (List.map
           (fun s => {| res_text := sd_doc s; res_url := sd_url s;
                        res_title := sd_title s; res_score := sd_score s |})
           (arr_slice sorted 0 topK)).

Definition searchSimilar (fuel : nat) (query : jsstring)
    (options : SearchOptions) : M B (list SearchResult) :=
  let topK := default 5 (topK options) in
  let useHybrid := default true (hybrid options) in
  let useQueryExpansion := useQueryExpansion options in
  getCollection connect ;;;
  (* Optionally expand query for better recall *)
  let queries := if useQueryExpansion then expandQuery query else [query] in
  semanticResults <- semanticSearch queries (topK * 2) ;;
  if negb useHybrid then ret (arr_slice semanticResults 0 topK)
  else
    keywordResults <- keywordSearch fuel query (topK * 2) ;;
    ret (reciprocalRankFusion semanticResults keywordResults topK None).
End Store.
End WithPlatform.
End Retrieval.

(** * The vocabulary of the properties *)

(** ** The URL guard *)

Section UrlGuardVocabulary.
Import UrlGuard.

(** The guard's answer depends on the parsed host name in lower case and
    on the port only. *)
Definition verdict (hostname port : jsstring) : bool :=
  includes BLOCKED_HOSTNAMES hostname
  || existsb (fun pattern => Regex.test pattern hostname)
       BLOCKED_HOSTNAME_PATTERNS
  || truthy port && negb (includes [str "80"; str "443"; []] port).

End UrlGuardVocabulary.

(** ** Chunks *)

Section ChunkVocabulary.
Context `{Platform}.
Import Chunker.

(** Two pages with the same url, title and content; their links and the
    time of the crawl may differ. *)
Definition sameText (p q : CrawledPage) : Prop :=
  page_url p = page_url q /\ page_title p = page_title q
  /\ page_content p = page_content q.

(** The pieces of text of a page under the options of a call. *)
Definition pageTexts (options : option ChunkOptions) (page : CrawledPage)
    : option (list jsstring) :=
  let chunkSize := default DEFAULT_CHUNK_SIZE (options ≫= chunkSize) in
  let chunkOverlap := default DEFAULT_CHUNK_OVERLAP (options ≫= chunkOverlap) in
  if default true (options ≫= semantic)
  then semanticChunkText (page_content page) chunkSize chunkOverlap
  else slidingWindowChunk (page_content page) chunkSize chunkOverlap.

(** The chunk of a page for the piece of text at index [i] of [total]. *)
Definition chunkAt (page : CrawledPage) (total i : nat) (text : jsstring)
    : Chunk :=
  {| chunk_id := simpleHash (page_url page) ++ str "-" ++ numToString i;
     chunk_text := text;
     chunk_metadata :=
       {| meta_url := page_url page;
          meta_title := page_title page;
          meta_chunkIndex := i;
          meta_totalChunks := total;
          meta_context := Some (generateDocumentContext page);
          meta_keywords := Some (extractKeywords text) |} |}.

(** The chunks of a page: one per piece, the indices counting from [i]. *)
Fixpoint chunksFrom (page : CrawledPage) (total i : nat)
    (texts : list jsstring) : list Chunk :=
  match texts with
  | [] => []
  | text :: rest => chunkAt page total i text :: chunksFrom page total (S i) rest
  end.

End ChunkVocabulary.

(** ** Fused scores *)

Section FusionVocabulary.
Import VectorStore.

(** [scores.get(key)?.score] *)
Fixpoint scoreOf (key : jsstring) (scores : list (jsstring * Scored))
    : option float :=
  match scores with
  | [] => None
  | (k', e) :: rest =>
      if str_eqb k' key then Some (scored_score e) else scoreOf key rest
  end.

(** What a ranked list gives to a key: [1 / (k + i + 1)] for every rank [i]
    at which the key stands, in the order of the ranks; [i] is the rank of
    the head of [results]. *)
Fixpoint contributions (k : float) (results : list SearchResult) (i : nat)
    (key : jsstring) : list float :=
  match results with
  | [] => []
  | result :: rest =>
      (if str_eqb (dedupKey result) key
       then [(1 / (k + num i + 1))%float] else [])
      ++ contributions k rest (S i) key
  end.

(** The sum of contributions, added one after the other as the code does:
    the first one starts the entry, the others are added to it. *)
Definition total (cs : list float) : option float :=
  match cs with
  | [] => None
  | c :: rest => Some (fold_left PrimFloat.add rest c)
  end.

Definition addAll (score : option float) (cs : list float) : option float :=
  match score with
  | Some s => Some (fold_left PrimFloat.add cs s)
  | None => total cs
  end.

End FusionVocabulary.

(** ** The catalog of sources *)

Section CatalogVocabulary.
Context `{Platform}.
Import VectorStore IdealStore.

Definition baseOf (m : Metadata) : jsstring := getBaseUrl (md_url m).

(** The distinct strings of a list, in the order of their first
    occurrence. *)
Definition dedup (l : list jsstring) : list jsstring :=
  fold_left Crawler.set_add l [].

(** The metadata that is there. *)
Definition present (ms : list (option Metadata)) : list Metadata :=
  flat_map (fun o => match o with Some m => [m] | None => [] end) ms.

(** The records of a base URL, in scan order. *)
Definition under (base : jsstring) (metas : list Metadata) : list Metadata :=
  List.filter (fun m => str_eqb (baseOf m) base) metas.

Definition entryOf (metas : list Metadata) (base : jsstring) : SourceEntry :=
  {| entry_title :=
       match under base metas with m :: _ => md_title m | [] => [] end;
     entry_pageUrls := dedup (List.map md_url (under base metas));
     entry_chunkCount := length (under base metas);
     entry_indexedAt :=
       match under base metas with m :: _ => md_indexedAt m | [] => [] end |}.

Definition catalog (metas : list Metadata) : list (jsstring * SourceEntry) :=
  List.map (fun base => (base, entryOf metas base))
    (dedup (List.map baseOf metas)).

(** The metadata of the stored records that have some, in scan order. *)
Definition storedMetadata (b : store) : list Metadata :=
  present (List.map rec_metadata b).

(** What the catalog says of a base URL, over the metadata in scan order:
    the title and the [indexedAt] of the first record under the base, the
    number of distinct page URLs, the number of records. *)
Definition sourceInfoOf (metas : list Metadata) (base : jsstring) : SourceInfo :=
  {| src_url := base;
     src_title :=
       match under base metas with m :: _ => md_title m | [] => [] end;
     src_pageCount := length (dedup (List.map md_url (under base metas)));
     src_chunkCount := length (under base metas);
     src_indexedAt :=
       DateOf (match under base metas with
               | m :: _ => md_indexedAt m
               | [] => []
               end) |}.

End CatalogVocabulary.

(** ** Deletion *)

Section DeleteVocabulary.
Import VectorStore IdealStore.

(** The record's stored url starts with the base URL. *)
Definition matchesBase (baseUrl : jsstring) (r : StoredRecord) : bool :=
  match rec_metadata r with
  | Some meta => startsWith (md_url meta) baseUrl
  | None => false
  end.

Definition keeps (baseUrl : jsstring) (r : StoredRecord) : bool :=
  negb (matchesBase baseUrl r).

(** The scans of a run, read off its trace: a page without deletions is
    followed (if at all) by the page at the next offset; a page with
    deletions is followed (if at all) by a page at the same offset. *)
Inductive scanFrom : nat -> list event -> Prop :=
  | scan_last o :
      scanFrom o [EvGet BATCH_SIZE o]
  | scan_last_delete o del :
      del <> [] ->
      scanFrom o [EvGet BATCH_SIZE o; EvDelete del]
  | scan_advance o evs :
      scanFrom (o + BATCH_SIZE) evs ->
      scanFrom o (EvGet BATCH_SIZE o :: evs)
  | scan_stay o del evs :
      del <> [] ->
      scanFrom o evs ->
      scanFrom o (EvGet BATCH_SIZE o :: EvDelete del :: evs).

Definition mkWorld (b : store) (tr : list event) (c : bool) : World store :=
  {| backend := b; trace := tr; connected := c |}.

End DeleteVocabulary.

(** ** Redirects *)

Section FetcherVocabulary.
Context `{Platform} {B : Type}.
Variable fetch : jsstring -> B -> outcome Response * B.
Import Crawler.

(** The target of the redirect that the first response asks for, resolved
    against the URL fetched, with the state of the HTTP backend after that
    response: there is one when the response is a 3xx with a [Location] that
    resolves. *)
Definition firstHop (url : jsstring) (b : B) : option (jsstring * B) :=
  match fetch url b with
  | (Returns response, b1) =>
      if isRedirect response then
        match header_location response with
        | Some location =>
            if truthy location then
              match URL_new location (Some url) with
              | Some u => Some (href u, b1)
              | None => None
              end
            else None
        | None => None
        end
      else None
  | _ => None
  end.

Definition after (w : World B) (b : B) (evs : list event) : World B :=
  {| backend := b; trace := trace w ++ evs; connected := connected w |}.

End FetcherVocabulary.

(** ** The visits of the crawl *)

(** An event that is no visit of the crawler; a visit within depth [D]. *)
Definition noVisit (ev : event) : Prop :=
  match ev with EvVisit _ _ => False | _ => True end.

Definition visitWithin (D : Z) (ev : event) : Prop :=
  match ev with EvVisit _ depth => depth <= D | _ => True end.

(** The world [w'] comes after [w]: its trace is that of [w] and then
    events that are no visits beyond depth [D]. *)
Definition extends {B} (D : Z) (w w' : World B) : Prop :=
  exists evs, trace w' = trace w ++ evs /\ Forall (visitWithin D) evs.

Section CrawlVocabulary.
Context {B : Type}.
Variable fetchPage : jsstring -> M B (option CrawledPage).

(** The fetcher logs no visits: those are the crawler's. *)
Definition quiet : Prop :=
  forall url w, exists evs,
    trace (snd (fetchPage url w)) = trace w ++ evs /\ Forall noVisit evs.

(** The fetcher always answers. *)
Definition answers : Prop :=
  forall url w, fst (fetchPage url w) <> Diverges.

(** What the bounds say of a part of the crawl: it logs no visit beyond
    depth [D], it returns at most [limit] pages, and if the fetcher always
    answers it returns. *)
Definition bounded (D : Z) (limit : nat) (m : M B (list CrawledPage)) : Prop :=
  forall w,
    extends D w (snd (m w))
    /\ (forall pages, fst (m w) = Returns pages -> (length pages <= limit)%nat)
    /\ (answers -> exists pages, fst (m w) = Returns pages).

End CrawlVocabulary.

(** ** Results of the tools *)

Section ToolVocabulary.
Context {B : Type}.
Variable searchSimilar : jsstring -> SearchOptions -> M B (list SearchResult).
Import Tools.

(** A result of the crawl tool for [url]: a success carries no error, a
    failure names one and counts nothing. *)
Definition wellFormedCrawl (url : jsstring) (r : CrawlAndIndexResult) : Prop :=
  crawl_result_url r = url
  /\ if crawl_success r then crawl_error r = None
     else (exists message, crawl_error r = Some message)
          /\ crawl_pagesIndexed r = 0%nat /\ crawl_chunksCreated r = 0%nat.

Definition wellFormedDelete (url : jsstring) (r : DeleteSourceResult) : Prop :=
  delete_result_url r = url
  /\ if delete_success r then delete_error r = None /\ delete_deletedChunks r <> 0%nat
     else (exists message, delete_error r = Some message)
          /\ delete_deletedChunks r = 0%nat.

Definition wellFormedSearch (r : SearchDocsResult) : Prop :=
  search_totalResults r = length (search_results r).

Definition wellFormedList (r : ListSourcesResult) : Prop :=
  list_totalSources r = length (list_sources r).

(** An outcome that is no exception: a value that satisfies [good], or no
    answer. *)
Definition noThrow {A} (good : A -> Prop) (o : outcome A) : Prop :=
  match o with
  | Returns a => good a
  | Throws _ => False
  | Diverges => True
  end.

(** A response of the server: the JSON of a result and no error flag, or a
    message and the error flag. *)
Definition wellFormedResponse (r : ToolResponse) : Prop :=
  match content r with
  | Text _ => isError r = true
  | _ => isError r = false
  end.

(** The query as the search tool reads it. *)
Definition trimmedQuery (input : SearchDocsInput) : jsstring :=
  default [] (trim <$> search_query input).

(** The search that the search tool asks for, when it asks. *)
Definition searchCall (input : SearchDocsInput) : M B (list SearchResult) :=
  searchSimilar (trimmedQuery input)
    {| topK := Some (Z.min (Z.max 1 (default 5 (search_top_k input))) MAX_TOP_K);
       hybrid := Some (default true (search_hybrid input));
       expandQuery := Some (default false (search_expand_query input)) |}.

End ToolVocabulary.

(** ** Exceptions of the services, and the answers of the server *)

Section ToolErrorVocabulary.
Context `{Platform} {B : Type}.
Variable ensureModelAvailable : M B bool.
Variable crawlWebsite : jsstring -> CrawlOptions -> M B (list CrawledPage).
Variable addChunks : list Chunk -> M B nat.
Import Tools.

(** The crawl that the crawl tool asks for, when it asks. *)
Definition crawlCall (input : CrawlAndIndexInput) : M B (list CrawledPage) :=
  crawlWebsite (crawl_url input)
    {| maxDepth := match crawl_max_depth input with
                   | Some (Integer z) => z
                   | _ => 2
                   end;
       maxPages := None; allowedDomains := None |}.

(** One of the services of the crawl tool throws [e], called in its turn
    from the world [w], and leaves the world [w']: the model check; or, the
    model being ready, the crawler; or, the crawler having returned pages,
    the store that is given their chunks. *)
Inductive crawlServiceThrows (input : CrawlAndIndexInput) (w : World B)
    (e : thrown) (w' : World B) : Prop :=
  | ModelCheckThrows :
      ensureModelAvailable w = (Throws e, w') ->
      crawlServiceThrows input w e w'
  | CrawlerThrows (w1 : World B) :
      ensureModelAvailable w = (Returns true, w1) ->
      crawlCall input w1 = (Throws e, w') ->
      crawlServiceThrows input w e w'
  | StoreThrows (w1 w2 : World B) (pages : list CrawledPage)
      (chunks : list Chunk) :
      ensureModelAvailable w = (Returns true, w1) ->
      crawlCall input w1 = (Returns pages, w2) ->
      pages <> [] ->
      Chunker.chunkPages pages None = Some chunks ->
      addChunks chunks w2 = (Throws e, w') ->
      crawlServiceThrows input w e w'.

End ToolErrorVocabulary.

(** The result of the search tool for a query that is too long. *)
Definition queryTooLong (trimmed : jsstring) : SearchDocsResult :=
  {| search_results := [];
     search_result_query := slice0 trimmed 100 ++ str "...";
     search_totalResults := 0;
     search_error :=
       Some (str "Query exceeds maximum length of 10000 characters") |}.

(** The result of the search tool for an empty query. *)
Definition queryEmpty : SearchDocsResult :=
  {| search_results := []; search_result_query := [];
     search_totalResults := 0; search_error := None |}.

(** How a tool that ended, with the world it left, is answered: a result
    with its JSON, an exception with [Error: ] and its message and the
    error flag; a tool that does not end is not answered. *)
Definition answerOf {B A} (json : A -> Tools.ToolText)
    (ended : outcome A * World B) : outcome Tools.ToolResponse * World B :=
  match ended with
  | (Returns result, w') =>
      (Returns {| Tools.content := json result; Tools.isError := false |}, w')
  | (Throws error, w') =>
      (Returns {| Tools.content :=
                    Tools.Text (str "Error: " ++ errorMessage error);
                  Tools.isError := true |}, w')
  | (Diverges, w') => (Diverges, w')
  end.

(** ** Numbers as text *)

(** The value of a digit as [toString] writes it, and the number that
    digits stand for, the least significant first. *)
Definition digitValue (c : N) : N :=
  (if c <? 58 then c - 48 else c - 87)%N.

Fixpoint valueOfDigits (radix : N) (ds : list N) : N :=
  match ds with
  | [] => 0%N
  | d :: ds' => (digitValue d + radix * valueOfDigits radix ds')%N
  end.

(** ** Keywords *)

Section KeywordVocabulary.
Import Chunker.

(** The words that are counted: those that are no stop words. *)
Definition significant (words : list jsstring) : list jsstring :=
  List.filter (fun w => negb (includes stopWords w)) words.

(** How often a word stands in a list. *)
Definition occurrences (k : jsstring) (words : list jsstring) : Z :=
  len (List.filter (str_eqb k) words).

(** The counted words with their counts, in the order of first
    occurrence. *)
Definition frequencies (words : list jsstring) : list (jsstring * Z) :=
  List.map (fun k => (k, occurrences k words)) (dedup (significant words)).

End KeywordVocabulary.

Section KeywordCandidates.
Context `{Platform}.

(** The words of a text that [extractKeywords] looks at. *)
Definition lowerWords (text : jsstring) : list jsstring :=
  match_words (toLowerCase text).

End KeywordCandidates.

(** ** Blanks *)

(** A string without blanks, and the number of blanks of a string. *)
Definition noBlank (s : jsstring) : bool :=
  forallb (fun c => negb (isWhiteSpace c)) s.

Definition blanks (s : jsstring) : Z := len (List.filter isWhiteSpace s).

(** Every blank of the string is a space, and no two blanks are
    neighbours; [prevBlank] tells whether a blank stands in front of the
    string. *)
Fixpoint singleSpaced (prevBlank : bool) (s : jsstring) : bool :=
  match s with
  | [] => true
  | c :: s' =>
      if isWhiteSpace c
      then (c =? 32)%N && negb prevBlank && singleSpaced true s'
      else singleSpaced false s'
  end.

(** ** Windows of words *)

Section WindowVocabulary.
Import Chunker.

(** What the sliding window says of a chunk: from 50 to [chunkSize] words,
    and the text of at most [chunkSize] consecutive words of the text, a
    space between two words. *)
Definition windowOf (words : list jsstring) (chunkSize : Z) (c : jsstring)
    : Prop :=
  MIN_CHUNK_SIZE <= wordCount c <= chunkSize
  /\ exists k n : nat,
       Z.of_nat n <= chunkSize
       /\ c = join (str " ") (firstn n (skipn k words)).

End WindowVocabulary.

(** ** Bodies and responses *)

(** A body that arrives in the given pieces and then ends, or breaks with
    an error. Every stream is one of these. *)
Fixpoint streamOf (pieces : list (list N)) (ending : option thrown) : stream :=
  match pieces with
  | [] => match ending with None => StreamDone | Some e => StreamError e end
  | piece :: rest => StreamChunk piece (streamOf rest ending)
  end.

Definition totalBytes (pieces : list (list N)) : Z := len (concat pieces).

(** A response that the fetcher goes on to read: a 2xx that is no
    redirect, of type [text/html], whose declared length is within the
    limit. *)
Definition readable (response : Response) : bool :=
  ok response && negb (Crawler.isRedirect response)
  && Crawler.isHtml response && negb (Crawler.tooLarge response).

(** ** What the crawl visits and fetches *)

(** The visits of a trace, in order: the URL and the depth. *)
Definition visitsOf (evs : list event) : list (jsstring * Z) :=
  flat_map
    (fun ev => match ev with EvVisit url depth => [(url, depth)] | _ => [] end)
    evs.

Section VisitVocabulary.
Context `{Platform} {B : Type}.
Import Crawler UrlGuard.

(** A link that parses, has no fragment, does not end in one of the file
    extensions that are skipped, and whose host is one of the domains or
    a subdomain of one. *)
Definition onDomains (domains : list jsstring) (link : jsstring) : Prop :=
  exists u,
    URL_new link None = Some u /\ truthy (hash u) = false
    /\ Regex.test re_binary_extension link = false
    /\ existsb
         (fun domain =>
            str_eqb (hostname u) domain
            || endsWith (hostname u) (str "." ++ domain))
         domains = true.

(** What stands in the queue: the start URL at depth 0, or a link on the
    domains at a depth of 1 or more. *)
Definition queued (startUrl : jsstring) (domains : list jsstring)
    (item : jsstring * Z) : Prop :=
  (snd item = 0 /\ fst item = startUrl)
  \/ (1 <= snd item /\ onDomains domains (fst item)).

(** An event that is no fetch of a URL that the guard blocks. *)
Definition guardedFetch (ev : event) : Prop :=
  match ev with EvFetch url => isBlockedUrl url = false | _ => True end.

(** The fetcher, asked for a URL that the guard lets pass, logs no visit
    and only events that are [safe]. *)
Definition guarded (safe : event -> Prop)
    (fetchPage : jsstring -> M B (option CrawledPage)) : Prop :=
  forall url w,
    isBlockedUrl url = false ->
    exists evs,
      trace (snd (fetchPage url w)) = trace w ++ evs
      /\ Forall noVisit evs /\ Forall safe evs.

(** What a part of the crawl does, [visited] being the URLs visited before
    it: its events are [safe], it visits no URL twice and none of [visited],
    and what it visits passed the guard and stood in the queue. *)
Definition crawlPart (safe : event -> Prop) (startUrl : jsstring)
    (domains visited : list jsstring) (m : M B (list CrawledPage)) : Prop :=
  forall w, exists evs,
    trace (snd (m w)) = trace w ++ evs
    /\ Forall safe evs
    /\ List.NoDup (List.map fst (visitsOf evs))
    /\ Forall (fun v => ~ In (fst v) visited
                        /\ isBlockedUrl (fst v) = false
                        /\ queued startUrl domains v)
         (visitsOf evs).

End VisitVocabulary.

(** ** The words of a regular expression *)

Section RegexVocabulary.
Import Regex.

(** [denotes r s]: the string [s] is a word of [r]. *)
Inductive denotes : regex -> jsstring -> Prop :=
  | denotes_eps : denotes Eps []
  | denotes_class p c : p c = true -> denotes (InClass p) [c]
  | denotes_seq r1 r2 s1 s2 :
      denotes r1 s1 -> denotes r2 s2 -> denotes (Seq r1 r2) (s1 ++ s2)
  | denotes_alt_l r1 r2 s : denotes r1 s -> denotes (Alt r1 r2) s
  | denotes_alt_r r1 r2 s : denotes r2 s -> denotes (Alt r1 r2) s
  | denotes_star_nil r : denotes (Star r) []
  | denotes_star_cons r s1 s2 :
      denotes r s1 -> denotes (Star r) s2 -> denotes (Star r) (s1 ++ s2).

End RegexVocabulary.

(** ** Hosts that the guard blocks *)

(** One or more decimal digits. *)
Definition decimal (s : jsstring) : Prop :=
  s <> [] /\ forallb isDigit s = true.

(** The private IPv4 ranges as the guard reads them off the text of the
    host: [10.a.b.c], [172.n.b.c] with [n] from 16 to 31, [192.168.b.c],
    every other part being one or more digits. *)
Definition private10 (host : jsstring) : Prop :=
  exists a b c,
    decimal a /\ decimal b /\ decimal c
    /\ host = str "10" ++ str "." ++ a ++ str "." ++ b ++ str "." ++ c.

Definition private172 (host : jsstring) : Prop :=
  exists (n : nat) b c,
    (16 <= n <= 31)%nat /\ decimal b /\ decimal c
    /\ host = str "172" ++ str "." ++ numToString n ++ str "." ++ b
              ++ str "." ++ c.

Definition private192 (host : jsstring) : Prop :=
  exists b c,
    decimal b /\ decimal c
    /\ host = str "192" ++ str "." ++ str "168" ++ str "." ++ b ++ str "." ++ c.

(** What the guard blocks, said of the host in lower case and the port. *)
Definition blockedHost (host port : jsstring) : Prop :=
  In host UrlGuard.BLOCKED_HOSTNAMES
  \/ private10 host \/ private172 host \/ private192 host
  \/ (exists front, host = front ++ str ".local")
  \/ (exists front, host = front ++ str ".internal")
  \/ (port <> [] /\ port <> str "80" /\ port <> str "443").

(** ** The fused list *)

Section FusionShapeVocabulary.
Import VectorStore.

(** Every entry of the map stands under the key of its result, and its
    result is one of the [pool]. *)
Definition entriesFrom (pool : list SearchResult)
    (scores : list (jsstring * Scored)) : Prop :=
  Forall (fun kv => dedupKey (scored_result (snd kv)) = fst kv
                    /\ In (scored_result (snd kv)) pool)
    scores.

(** A fused result stands for a result of the two lists: it has its text,
    url and title, and as score the fused score of its key. *)
Definition fusedFrom (results1 results2 : list SearchResult) (k : float)
    (r : SearchResult) : Prop :=
  exists r0,
    In r0 (results1 ++ results2)
    /\ res_text r = res_text r0 /\ res_url r = res_url r0
    /\ res_title r = res_title r0
    /\ scoreOf (dedupKey r0) (rrfScores results1 results2 k)
       = Some (res_score r).

End FusionShapeVocabulary.

(** ** Reads of the collection *)

(** An event that is a read of a page of the collection. *)
Definition isGet (ev : event) : Prop :=
  exists limit offset, ev = EvGet limit offset.

(** ** Log levels *)

(** The rank of a level: debug, info, warn, error. *)
Definition rankOf (level : Logger.LogLevel) : Z :=
  match level with
  | Logger.level_debug => 0
  | Logger.level_info => 1
  | Logger.level_warn => 2
  | Logger.level_error => 3
  end.

(** ** The Ollama server *)

(** The two requests of the model check. *)
Definition tagsRequest (host : jsstring) : event :=
  EvFetch (host ++ str "/api/tags").
Definition pullRequest (host : jsstring) : event :=
  EvFetch (host ++ str "/api/pull").

(** The tags request fails: it throws, or its reply is no 2xx. *)
Definition tagsFail {B} (fetchTags : B -> outcome TagsReply * B) (b : B) : Prop :=
  match fetchTags b with
  | (Returns reply, _) => tags_ok reply = false
  | (Throws _, _) => True
  | (Diverges, _) => False
  end.

(** ** Search results *)

Section RetrievalVocabulary.
Import VectorStore Retrieval.

(** The entries of the [seen] map: no key twice, every result under its
    own key. *)
Definition seenOk (seen : list (jsstring * SearchResult)) : Prop :=
  List.NoDup (List.map fst seen)
  /\ Forall (fun kv => dedupKey (snd kv) = fst kv) seen.

(** A result came out of a query with a document that is not empty. *)
Definition hasText (r : SearchResult) : Prop := truthy (res_text r) = true.

End RetrievalVocabulary.

Section KeywordMatchVocabulary.
Context `{Platform} {B : Type}.
Variable col_getDocs : nat -> nat -> B -> outcome DocsResponse * B.
Import VectorStore Retrieval.

(** The pages that the loop of [keywordSearch] reads, from [offset] on and
    with the store in state [b]: it asks for the next page as long as the
    last one had documents and metadata and was full. *)
Fixpoint pagesRead (fuel offset : nat) (b : B) : list DocsResponse :=
  match fuel with
  | O => []
  | S fuel' =>
      match col_getDocs BATCH_SIZE offset b with
      | (Returns batch, b') =>
          batch ::
          match docs_documents batch, docs_metadatas batch with
          | Some documents, Some _ =>
              if (length documents =? 0)%nat then []
              else if (length documents =? BATCH_SIZE)%nat
                   then pagesRead fuel' (offset + length documents) b'
                   else []
          | _, _ => []
          end
      | _ => []
      end
  end.

(** A record of a page: the metadata at an index of the page, with the
    document at that index, or the empty text when it has none. *)
Definition recordOf (batch : DocsResponse) (doc : jsstring) (meta : Metadata)
    : Prop :=
  exists documents metadatas (i : nat),
    docs_documents batch = Some documents
    /\ docs_metadatas batch = Some metadatas
    /\ nth_error metadatas i = Some (Some meta)
    /\ doc = default [] (default None (nth_error documents i)).

(** The result was made of the record: it has the record's document as
    text and the record's url and title; a word of the query is among the
    keywords stored with the record, or occurs in the document in lower
    case; and the score is the share of the words of the query that do. *)
Definition madeOf (query doc : jsstring) (meta : Metadata) (r : SearchResult)
    : Prop :=
  let queryWords := match_words (toLowerCase query) in
  let keywords := split re_comma (md_keywords meta) in
  res_text r = doc /\ res_url r = md_url meta /\ res_title r = md_title meta
  /\ (exists qWord,
         In qWord queryWords
         /\ (In qWord keywords \/ str_includes (toLowerCase doc) qWord = true))
  /\ res_score r
     = (num (matchCount queryWords keywords doc) / num (length queryWords))%float.

End KeywordMatchVocabulary.

(** ** Stored keywords *)

Section StoredKeywordVocabulary.
Context `{Platform}.
Import Retrieval.

(** The keywords that [keywordSearch] reads from the metadata that
    [addChunks] stores with a chunk. *)
Definition keywordsReadBack (indexedAt : jsstring) (c : Chunk)
    : list jsstring :=
  split re_comma (md_keywords (storedMetadataOf indexedAt c)).

End StoredKeywordVocabulary.

(** * Concrete inputs *)

(** A page of sixty words, crawled twice: the second crawl found a link and
    has another time stamp. *)
Definition sixtyWords : jsstring := concat (repeat (str "word ") 60).

Definition pageFirstCrawl : CrawledPage :=
  {| page_url := str "https://example.com/test"; page_title := str "Test Page";
     page_content := sixtyWords; page_links := [];
     page_crawledAt := DateNow 1000 |}.

Definition pageSecondCrawl : CrawledPage :=
  {| page_url := str "https://example.com/test"; page_title := str "Test Page";
     page_content := sixtyWords;
     page_links := [str "https://example.com/other"];
     page_crawledAt := DateNow 2000 |}.

(** Four results with four keys. *)
Definition hit (name : string) : SearchResult :=
  {| res_text := str name; res_url := str "https://example.com/" ++ str name;
     res_title := str name; res_score := 0%float |}.
Definition hit_x := hit "x".
Definition hit_y := hit "y".
Definition hit_z := hit "z".
Definition hit_w := hit "w".

Definition withScore (r : SearchResult) (score : float) : SearchResult :=
  {| res_text := res_text r; res_url := res_url r; res_title := res_title r;
     res_score := score |}.

(** Two chunks of one site, indexed five months apart. *)
Definition chunkRecord (id url title indexedAt : string) : IdealStore.StoredRecord :=
  {| IdealStore.rec_id := str id;
     IdealStore.rec_metadata :=
       Some {| md_url := str url; md_title := str title; md_chunkIndex := 0;
               md_totalChunks := 1; md_keywords := [];
               md_indexedAt := str indexedAt |} |}.

Definition twoCrawls : IdealStore.store :=
  [chunkRecord "a-0" "https://docs.example.com/intro" "Intro"
     "2024-01-01T00:00:00.000Z";
   chunkRecord "b-0" "https://docs.example.com/guide" "Guide"
     "2024-06-01T00:00:00.000Z"].

(** A collection of 2500 records, every second one under the base URL that
    is deleted. *)
Definition syntheticRecord (i : nat) : IdealStore.StoredRecord :=
  {| IdealStore.rec_id := str "id-" ++ numToString i;
     IdealStore.rec_metadata :=
       Some {| md_url :=
                 (if Nat.even i then str "https://docs.example.com/page/"
                  else str "https://other.example.org/page/")
                 ++ numToString i;
               md_title := str "Page"; md_chunkIndex := 0; md_totalChunks := 1;
               md_keywords := [];
               md_indexedAt := str "2024-01-01T00:00:00.000Z" |} |}.

Definition synthetic2500 : IdealStore.store :=
  List.map syntheticRecord (seq 0 2500).

Fixpoint distinctb (l : list jsstring) : bool :=
  match l with
  | [] => true
  | x :: l' => negb (includes l' x) && distinctb l'
  end.

(** A site of three pages on one host: A links to B and C, B links back to
    A and to C. The HTTP backend answers every page with its document, and
    anything else with a 404; cheerio reads the documents. *)
Module Site.

Definition A : jsstring := str "https://docs.example.com/".
Definition B : jsstring := str "https://docs.example.com/b".
Definition C : jsstring := str "https://docs.example.com/c".

Definition respond (code : Z) (document : string) : Response :=
  {| status := code;
     header_location := None;
     header_contentType := Some (str "text/html; charset=utf-8");
     header_contentLength := None;
     response_body := Some (StreamChunk (str document) StreamDone) |}.

Definition fetch (url : jsstring) (b : unit) : outcome Response * unit :=
  if str_eqb url A then (Returns (respond 200 "document A"), b)
  else if str_eqb url B then (Returns (respond 200 "document B"), b)
  else if str_eqb url C then (Returns (respond 200 "document C"), b)
  else (Returns (respond 404 "not found"), b).

Definition document (name : string) (hrefs : list string) : Dom :=
  {| dom_title := str name; dom_h1 := []; dom_main := str "Text of " ++ str name;
     dom_article := []; dom_roleMain := []; dom_body := [];
     dom_hrefs := List.map str hrefs |}.

Definition load (html : jsstring) : Dom :=
  if str_eqb html (str "document A") then document "A" ["/b"; "/c"]%string
  else if str_eqb html (str "document B") then document "B" ["/"; "/c"]%string
  else document "C" [].

Definition world : World unit :=
  {| backend := tt; trace := []; connected := false |}.

Definition crawl (depth : Z) : outcome (list CrawledPage) * World unit :=
  @Crawler.crawlWebsite Simple.platform unit
    (@Crawler.fetchAndParsePage Simple.platform unit load fetch (fun _ => 0))
    A {| maxDepth := depth; maxPages := None; allowedDomains := None |} world.

(** The urls of the pages returned. *)
Definition urls (run : outcome (list CrawledPage) * World unit)
    : option (list jsstring) :=
  match fst run with
  | Returns pages => Some (List.map page_url pages)
  | _ => None
  end.

End Site.

(** A chain of redirects on the same host: A sends to B, B sends to C, and
    only C has a document. *)
Module Chain.

Definition redirect (location : string) : Response :=
  {| status := 302;
     header_location := Some (str location);
     header_contentType := None;
     header_contentLength := None;
     response_body := None |}.

Definition fetch (url : jsstring) (b : unit) : outcome Response * unit :=
  if str_eqb url Site.A then (Returns (redirect "/b"), b)
  else if str_eqb url Site.B then (Returns (redirect "/c"), b)
  else (Returns (Site.respond 200 "document C"), b).

Definition run : outcome (option CrawledPage) * World unit :=
  @Crawler.fetchAndParsePage Simple.platform unit Site.load fetch (fun _ => 0)
    Site.A Site.world.

End Chain.

(** Services that fail: Chroma cannot be reached, the embedding service
    answers with an error (the message is the one of the embedder). *)
Definition chromaDown (b : IdealStore.store) : outcome unit * IdealStore.store :=
  (Throws (ErrorObject (str "Failed to connect to chromadb")), b).

Definition embedderDown {B} (query : jsstring) (options : SearchOptions)
    : M B (list SearchResult) :=
  throw (ErrorObject
           (str "Failed to generate embedding. Please try again later.")).

Definition askFor (query : string) : SearchDocsInput :=
  {| search_query := Some (str query); search_top_k := None;
     search_hybrid := None; search_expand_query := None |}.

(** One redirect: A sends to C, and C has a document. *)
Module Hop.

Definition fetch (url : jsstring) (b : unit) : outcome Response * unit :=
  if str_eqb url Site.A then (Returns (Chain.redirect "/c"), b)
  else (Returns (Site.respond 200 "document C"), b).

Definition run : outcome (option CrawledPage) * World unit :=
  @Crawler.fetchAndParsePage Simple.platform unit Site.load fetch (fun _ => 0)
    Site.A Site.world.

End Hop.

(** An Ollama server that cannot be reached. *)
Definition ollamaDown (b : unit) : outcome TagsReply * unit :=
  (Throws (ErrorObject (str "fetch failed")), b).

Definition ollamaNoPull (b : unit) : outcome PullReply * unit :=
  (Throws (ErrorObject (str "fetch failed")), b).

(** A collection with one document, as the search sees it: every query
    finds the document, and a page of the collection holds it. *)
Module OneDoc.

Definition reply : QueryReply :=
  {| q_documents := Some [Some (str "install the package with npm")];
     q_metadatas := [Some {| qm_url := str "https://docs.example.com/install";
                             qm_title := str "Install" |}];
     q_distances := [DistanceOf 0.25%float] |}.

Definition generateEmbedding (query : jsstring) : M unit (list float) :=
  ret [1%float].

Definition col_query (embedding : list float) (nResults : Z)
    : M unit QueryReply :=
  ret reply.

Definition col_getDocs (limit offset : nat) (b : unit)
    : outcome DocsResponse * unit :=
  (Returns
     (if (offset =? 0)%nat then
        {| docs_documents := Some [Some (str "install the package with npm")];
           docs_metadatas :=
             Some [Some {| md_url := str "https://docs.example.com/install";
                           md_title := str "Install"; md_chunkIndex := 0;
                           md_totalChunks := 1;
                           md_keywords := str "install,package,npm";
                           md_indexedAt := str "2024-01-01T00:00:00.000Z" |}] |}
      else {| docs_documents := Some []; docs_metadatas := Some [] |}), b).

Definition connect (b : unit) : outcome unit * unit := (Returns tt, b).

Definition search (input : SearchDocsInput)
    : outcome SearchDocsResult * World unit :=
  @Tools.searchDocs unit
    (@Retrieval.searchSimilar Simple.platform unit connect generateEmbedding
       col_query col_getDocs 2)
    input Site.world.

End OneDoc.

(** * Properties *)

(** ** Strings *)

Lemma str_eqb_eq (s t : jsstring) : str_eqb s t = true <-> s = t.
Proof.
  revert t; induction s as [|a s IH]; intros [|b t]; simpl; try easy.
  unfold code_eqb. rewrite andb_true_iff, N.eqb_eq, IH.
  split; [intros [-> ->]; reflexivity | intros [= -> ->]; auto].
Qed.

Lemma str_eqb_refl (s : jsstring) : str_eqb s s = true.
Proof. apply str_eqb_eq; reflexivity. Qed.

Lemma str_eqb_neq (s t : jsstring) : str_eqb s t = false <-> s <> t.
Proof.
  rewrite <- str_eqb_eq. destruct (str_eqb s t); split; congruence.
Qed.

Lemma includes_In (arr : list jsstring) (x : jsstring) :
  includes arr x = true <-> In x arr.
Proof.
  unfold includes. rewrite existsb_exists. split.
  - intros (y & Hy & E). apply str_eqb_eq in E. subst. exact Hy.
  - intros Hx. exists x. split; [exact Hx | apply str_eqb_refl].
Qed.

(** ** C1: the URL guard *)

Section UrlGuardFacts.
Context `{Platform}.
Import UrlGuard.

Lemma isBlockedUrl_parsed (url : jsstring) (parsed : URL) :
  URL_new url None = Some parsed ->
  isBlockedUrl url = verdict (toLowerCase (hostname parsed)) (port parsed).
Proof.
  intros E. unfold isBlockedUrl, verdict. rewrite E.
  destruct (includes _ _); [reflexivity|].
  destruct (existsb _ _); [reflexivity|].
  destruct (_ && _); reflexivity.
Qed.

Lemma isBlockedUrl_ascii_host (url : jsstring) (parsed : URL) (h : jsstring) :
  URL_new url None = Some parsed ->
  hostname parsed = h ->
  forallb isAscii h = true ->
  isBlockedUrl url = verdict (List.map asciiLower h) (port parsed).
Proof.
  intros E <- Hascii. rewrite (isBlockedUrl_parsed _ _ E).
  now rewrite toLowerCase_ascii.
Qed.

(** C1. A URL whose host name is one of the seven listed is blocked; a URL
    on [example.com] is allowed on port 443 or with no port and blocked on
    port 8443; text that does not parse as a URL is blocked. *)
Theorem C1_isBlockedUrl_policy :
  (forall url parsed,
      URL_new url None = Some parsed ->
      In (hostname parsed)
        (List.map str
           ["localhost"; "127.0.0.1"; "10.1.2.3"; "172.20.0.5";
            "192.168.1.1"; "169.254.169.254";
            "metadata.google.internal"]%string) ->
      isBlockedUrl url = true)
  /\ (forall url parsed,
         URL_new url None = Some parsed ->
         hostname parsed = str "example.com" ->
         port parsed = str "443" \/ port parsed = [] ->
         isBlockedUrl url = false)
  /\ (forall url parsed,
         URL_new url None = Some parsed ->
         hostname parsed = str "example.com" ->
         port parsed = str "8443" ->
         isBlockedUrl url = true)
  /\ (forall url, URL_new url None = None -> isBlockedUrl url = true).
Proof.
  repeat split.
  - intros url parsed E Hin. simpl in Hin.
    repeat (destruct Hin as [Hh | Hin];
            [ symmetry in Hh;
              rewrite (isBlockedUrl_ascii_host _ _ _ E Hh eq_refl);
              reflexivity | ]).
    destruct Hin.
  - intros url parsed E Hh Hp.
    rewrite (isBlockedUrl_ascii_host _ _ _ E Hh eq_refl).
    destruct Hp as [-> | ->]; reflexivity.
  - intros url parsed E Hh Hp.
    rewrite (isBlockedUrl_ascii_host _ _ _ E Hh eq_refl), Hp. reflexivity.
  - intros url E. unfold isBlockedUrl. now rewrite E.
Qed.
End UrlGuardFacts.

(** The policy on concrete URLs, under the small platform. *)
Lemma C1_isBlockedUrl_policy_witness :
  List.map (@UrlGuard.isBlockedUrl Simple.platform)
    (List.map str
       ["http://localhost/"; "http://10.1.2.3/x"; "https://example.com";
        "https://example.com:8443"; "not a url"]%string)
  = [true; true; false; true; true].
Proof.
  pose proof (@C1_isBlockedUrl_policy Simple.platform) as (H1 & H2 & H3 & H4).
  cbn [List.map].
  rewrite (H1 (str "http://localhost/") _ eq_refl)
    by (vm_compute; auto).
  rewrite (H1 (str "http://10.1.2.3/x") _ eq_refl)
    by (vm_compute; auto 10).
  rewrite (H2 (str "https://example.com") _ eq_refl eq_refl)
    by (right; reflexivity).
  rewrite (H3 (str "https://example.com:8443") _ eq_refl eq_refl eq_refl).
  rewrite (H4 (str "not a url") eq_refl).
  reflexivity.
Defined.

(** ** C10 and C6: chunk identifiers *)

Section HashFacts.
Import Chunker.

Lemma toInt32_mod (z : Z) : toInt32 z mod 2 ^ 32 = z mod 2 ^ 32.
Proof.
  unfold toInt32. cbv zeta.
  destruct (z mod 2 ^ 32 >=? 2 ^ 31).
  - replace (z mod 2 ^ 32 - 2 ^ 32) with (z mod 2 ^ 32 + (-1) * 2 ^ 32) by ring.
    rewrite Z.mod_add by lia. apply Z.mod_mod. lia.
  - apply Z.mod_mod. lia.
Qed.

Lemma toInt32_congr (a b : Z) :
  a mod 2 ^ 32 = b mod 2 ^ 32 -> toInt32 a = toInt32 b.
Proof. unfold toInt32. intros ->. reflexivity. Qed.

Lemma toInt32_idem (z : Z) : toInt32 (toInt32 z) = toInt32 z.
Proof. apply toInt32_congr, toInt32_mod. Qed.

(** One round of the hash is [31 * hash + char], wrapped to 32 bits. *)
Lemma simpleHash_step_31 (hash : Z) (char : N) :
  simpleHash_step hash char = toInt32 (31 * hash + Z.of_N char).
Proof.
  unfold simpleHash_step, bitand, shl. cbv zeta.
  rewrite Z.land_diag, toInt32_idem.
  apply toInt32_congr.
  change (5 mod 32) with 5. rewrite Z.shiftl_mul_pow2 by lia.
  replace (31 * hash + Z.of_N char)
    with (32 * hash + (Z.of_N char - hash)) by ring.
  replace (toInt32 (toInt32 hash * 2 ^ 5) - hash + Z.of_N char)
    with (toInt32 (toInt32 hash * 2 ^ 5) + (Z.of_N char - hash)) by ring.
  rewrite (Z.add_mod (toInt32 _)), toInt32_mod by lia.
  rewrite (Z.mul_mod (toInt32 hash)), toInt32_mod by lia.
  rewrite <- Z.mul_mod by lia.
  rewrite <- Z.add_mod by lia.
  f_equal. change (2 ^ 5) with 32. ring.
Qed.

(** Two rounds on [Aa] and two rounds on [BB] leave the same hash, whatever
    it was before: 31 * 65 + 97 = 31 * 66 + 66. *)
Lemma simpleHash_step_Aa_BB (hash : Z) :
  fold_left simpleHash_step (str "Aa") hash
  = fold_left simpleHash_step (str "BB") hash.
Proof.
  cbn [fold_left str List.map list_ascii_of_string].
  rewrite !simpleHash_step_31. apply toInt32_congr.
  rewrite !(Z.add_mod (31 * toInt32 _)) by lia.
  rewrite !(Z.mul_mod 31 (toInt32 _)), !toInt32_mod by lia.
  rewrite <- !Z.mul_mod by lia. rewrite <- !Z.add_mod by lia.
  f_equal.
  change (Z.of_N (N_of_ascii "A")) with 65.
  change (Z.of_N (N_of_ascii "a")) with 97.
  change (Z.of_N (N_of_ascii "B")) with 66.
  ring.
Qed.

(** The collision is there inside any text. *)
Lemma simpleHash_collision (before after : jsstring) :
  simpleHash (before ++ str "Aa" ++ after)
  = simpleHash (before ++ str "BB" ++ after).
Proof.
  unfold simpleHash. rewrite !fold_left_app.
  now rewrite simpleHash_step_Aa_BB.
Qed.

(** C10. Two different page URLs have the same chunk identifier at every
    index: the hash of the URL does not tell [Aa] from [BB]. *)
Theorem C10_generateChunkId_not_injective :
  exists u1 u2 : jsstring,
    u1 <> u2 /\ forall i : nat, generateChunkId u1 i = generateChunkId u2 i.
Proof.
  exists (str "https://example.com/Aa"), (str "https://example.com/BB").
  split; [discriminate|].
  intros i. unfold generateChunkId.
  change (str "https://example.com/Aa")
    with (str "https://example.com/" ++ str "Aa" ++ []).
  change (str "https://example.com/BB")
    with (str "https://example.com/" ++ str "BB" ++ []).
  now rewrite simpleHash_collision.
Qed.
End HashFacts.

Section ChunkPagesFacts.
Context `{Platform}.
Import Chunker.

Lemma pageChunks_loop_spec page total i texts allChunks :
  pageChunks_loop page (generateDocumentContext page) total i texts allChunks
  = allChunks ++ chunksFrom page total i texts.
Proof.
  revert i allChunks. induction texts as [|text rest IH]; intros i allChunks.
  - simpl. now rewrite app_nil_r.
  - simpl. rewrite IH, <- app_assoc. reflexivity.
Qed.

(** The loop over the pages, in closed form. *)
Lemma pages_loop_spec pages options allChunks chunks :
  pages_loop pages
    (default DEFAULT_CHUNK_SIZE (options ≫= chunkSize))
    (default DEFAULT_CHUNK_OVERLAP (options ≫= chunkOverlap))
    (default true (options ≫= semantic)) allChunks = Some chunks
  <-> exists pieces,
      Forall2 (fun page texts => pageTexts options page = Some texts)
        pages pieces
      /\ chunks
         = allChunks ++
           concat (List.map
                     (fun pt => chunksFrom (fst pt) (length (snd pt)) 0 (snd pt))
                     (combine pages pieces)).
Proof.
  revert allChunks. induction pages as [|page rest IH]; intros allChunks.
  - simpl. split.
    + intros [= <-]. exists []. split; [constructor|]. now rewrite app_nil_r.
    + intros (pieces & HF & ->). inversion HF; subst. simpl.
      now rewrite app_nil_r.
  - cbn [pages_loop]. fold (pageTexts options page).
    destruct (pageTexts options page) as [texts|] eqn:E.
    + rewrite IH, pageChunks_loop_spec. split.
      * intros (pieces & HF & ->). exists (texts :: pieces).
        split; [constructor; assumption|].
        simpl. now rewrite <- app_assoc.
      * intros (pieces & HF & ->). inversion HF as [|? texts' ? pieces' E' HF']; subst.
        rewrite E in E'. injection E' as <-.
        exists pieces'. split; [assumption|].
        simpl. now rewrite <- app_assoc.
    + split; [discriminate|].
      intros (pieces & HF & _). inversion HF; subst. congruence.
Qed.

Lemma sameText_pageTexts options p q :
  sameText p q -> pageTexts options p = pageTexts options q.
Proof. intros (_ & _ & E). unfold pageTexts. now rewrite E. Qed.

Lemma sameText_context p q :
  sameText p q -> generateDocumentContext p = generateDocumentContext q.
Proof.
  intros (E1 & E2 & E3). unfold generateDocumentContext.
  now rewrite E1, E2, E3.
Qed.

Lemma sameText_pages_loop pages1 pages2 chunkSize chunkOverlap useSemantic allChunks :
  Forall2 sameText pages1 pages2 ->
  pages_loop pages1 chunkSize chunkOverlap useSemantic allChunks
  = pages_loop pages2 chunkSize chunkOverlap useSemantic allChunks.
Proof.
  intros HF. revert allChunks.
  induction HF as [|p q ps qs Hpq HF IH]; intros allChunks; [reflexivity|].
  cbn [pages_loop].
  rewrite (sameText_context _ _ Hpq).
  destruct Hpq as (E1 & E2 & E3). rewrite E3.
  destruct (if useSemantic then _ else _) as [texts|]; [|reflexivity].
  rewrite IH. f_equal.
  generalize 0%nat. generalize (length texts). revert allChunks.
  induction texts as [|t ts IHt]; intros allChunks total i; [reflexivity|].
  cbn [pageChunks_loop]. rewrite E1, E2. apply IHt.
Qed.

(** *** The sliding window ends when the overlap is below the chunk size *)

Lemma slidingWindow_loop_ends fuel words chunkSize chunkOverlap start chunks :
  chunkOverlap < chunkSize ->
  Z.max 0 (len words - start) < Z.of_nat fuel ->
  exists result,
    slidingWindow_loop fuel words chunkSize chunkOverlap start chunks
    = Some result.
Proof.
  intros Hstep. revert start chunks.
  induction fuel as [|fuel IH]; intros start chunks Hfuel; [lia|].
  cbn [slidingWindow_loop].
  destruct (start <? len words) eqn:E; [|eauto].
  apply Z.ltb_lt in E.
  destruct (_ && _); [eauto|].
  apply IH. lia.
Qed.

Lemma slidingWindowChunk_ends text chunkSize chunkOverlap :
  chunkOverlap < chunkSize ->
  exists result, slidingWindowChunk text chunkSize chunkOverlap = Some result.
Proof.
  intros Hstep. unfold slidingWindowChunk.
  destruct (_ <=? _); [eauto|].
  apply slidingWindow_loop_ends; [assumption|]. unfold len. lia.
Qed.

Lemma semantic_loop_ends paragraphs maxChunkSize chunkOverlap chunks cur size :
  chunkOverlap < maxChunkSize ->
  exists result,
    semantic_loop paragraphs maxChunkSize chunkOverlap chunks cur size
    = Some result.
Proof.
  intros Hstep. revert chunks cur size.
  induction paragraphs as [|paragraph rest IH]; intros chunks cur size.
  - simpl. eauto.
  - cbn [semantic_loop].
    destruct (maxChunkSize <? wordCount paragraph).
    + destruct (slidingWindowChunk_ends paragraph _ _ Hstep) as [sub ->].
      destruct (0 <? len cur); apply IH.
    + destruct (_ && _); [destruct (overlap_loop _ _ _ _)|]; apply IH.
Qed.

Lemma pageTexts_ends options page :
  default DEFAULT_CHUNK_OVERLAP (options ≫= chunkOverlap)
  < default DEFAULT_CHUNK_SIZE (options ≫= chunkSize) ->
  exists texts, pageTexts options page = Some texts.
Proof.
  intros Hstep. unfold pageTexts. destruct (default true _).
  - unfold semanticChunkText.
    destruct (semantic_loop_ends (split re_paragraph (page_content page))
                _ _ [] [] 0 Hstep) as [[[chunks cur] size] ->].
    eauto.
  - now apply slidingWindowChunk_ends.
Qed.

Lemma chunkPages_ends pages options :
  default DEFAULT_CHUNK_OVERLAP (options ≫= chunkOverlap)
  < default DEFAULT_CHUNK_SIZE (options ≫= chunkSize) ->
  exists chunks, chunkPages pages options = Some chunks.
Proof.
  intros Hstep.
  assert (exists pieces,
            Forall2 (fun page texts => pageTexts options page = Some texts)
              pages pieces) as [pieces HF].
  { induction pages as [|page rest [pieces IH]].
    - exists []. constructor.
    - destruct (pageTexts_ends options page Hstep) as [texts E].
      exists (texts :: pieces). now constructor. }
  eexists. unfold chunkPages. apply pages_loop_spec. eauto.
Qed.

Lemma chunkPages_default_ends pages :
  exists chunks, chunkPages pages None = Some chunks.
Proof. apply chunkPages_ends. reflexivity. Qed.

(** C6. Two runs of [chunkPages] on page lists that agree on url, title
    and content, with the same options, give the same chunks; when the run
    gives chunks, they are, page by page, the pieces of the page's text,
    the piece at index [i] under the id [hash(url) ++ - ++ i]; and the run
    gives chunks whenever the overlap is below the chunk size. *)
Theorem C6_chunkPages_deterministic pages1 pages2 options :
  Forall2 sameText pages1 pages2 ->
  chunkPages pages1 options = chunkPages pages2 options
  /\ (forall chunks,
         chunkPages pages1 options = Some chunks ->
         exists pieces,
           Forall2 (fun page texts => pageTexts options page = Some texts)
             pages1 pieces
           /\ chunks
              = concat (List.map
                          (fun pt => chunksFrom (fst pt) (length (snd pt)) 0 (snd pt))
                          (combine pages1 pieces))
           /\ Forall (fun c =>
                        chunk_id c
                        = generateChunkId (meta_url (chunk_metadata c))
                            (meta_chunkIndex (chunk_metadata c)))
                chunks)
  /\ (default DEFAULT_CHUNK_OVERLAP (options ≫= chunkOverlap)
      < default DEFAULT_CHUNK_SIZE (options ≫= chunkSize) ->
      exists chunks, chunkPages pages1 options = Some chunks).
Proof.
  intros HF. split; [|split].
  - unfold chunkPages. now apply sameText_pages_loop.
  - intros chunks E. unfold chunkPages in E.
    apply pages_loop_spec in E as (pieces & HP & ->).
    exists pieces. split; [assumption|]. split; [reflexivity|].
    cbn [app]. apply Forall_concat, List.Forall_forall.
    intros cs [[page texts] [<- _]]%in_map_iff. cbn [fst snd].
    generalize (length texts). generalize 0%nat.
    induction texts as [|t ts IHt]; intros i total; constructor.
    + reflexivity.
    + apply IHt.
  - apply chunkPages_ends.
Qed.
End ChunkPagesFacts.

Lemma C6_chunkPages_deterministic_witness :
  @Chunker.chunkPages Simple.platform [pageFirstCrawl] None
  = @Chunker.chunkPages Simple.platform [pageSecondCrawl] None
  /\ exists chunks,
      @Chunker.chunkPages Simple.platform [pageFirstCrawl] None = Some chunks
      /\ List.map chunk_id chunks
         = [Chunker.simpleHash (str "https://example.com/test") ++ str "-0"].
Proof.
  assert (Forall2 sameText [pageFirstCrawl] [pageSecondCrawl]) as HF.
  { constructor; [|constructor]. repeat split. }
  destruct (@C6_chunkPages_deterministic Simple.platform _ _ None HF)
    as (Hsame & _ & Hends).
  split; [exact Hsame|].
  eexists. split; vm_compute; reflexivity.
Defined.

(** ** C5: reciprocal rank fusion *)

Section FusionFacts.
Import VectorStore.

Lemma hasKey_scoreOf key scores :
  hasKey key scores = match scoreOf key scores with Some _ => true | None => false end.
Proof.
  induction scores as [|[k' e] rest IH]; [reflexivity|].
  unfold hasKey in *. simpl. destruct (str_eqb k' key); [reflexivity|exact IH].
Qed.

Lemma scoreOf_addScore key key' x scores :
  scoreOf key (addScore key' x scores)
  = if str_eqb key' key
    then option_map (fun s => (s + x)%float) (scoreOf key scores)
    else scoreOf key scores.
Proof.
  induction scores as [|[k' e] rest IH].
  - simpl. now destruct (str_eqb key' key).
  - simpl. destruct (str_eqb k' key') eqn:E1.
    + apply str_eqb_eq in E1. subst k'. simpl.
      destruct (str_eqb key' key); reflexivity.
    + simpl. destruct (str_eqb k' key) eqn:E2.
      * destruct (str_eqb key' key) eqn:E3; [|reflexivity].
        apply str_eqb_eq in E2, E3. subst.
        now rewrite str_eqb_refl in E1.
      * exact IH.
Qed.

Lemma scoreOf_app_new key key' e scores :
  scoreOf key (scores ++ [(key', e)])
  = match scoreOf key scores with
    | Some s => Some s
    | None => if str_eqb key' key then Some (scored_score e) else None
    end.
Proof.
  induction scores as [|[k' e'] rest IH]; simpl.
  - reflexivity.
  - destruct (str_eqb k' key); [reflexivity|exact IH].
Qed.

Lemma addAll_app score cs1 cs2 :
  addAll (addAll score cs1) cs2 = addAll score (cs1 ++ cs2).
Proof.
  destruct score as [s|]; simpl.
  - now rewrite fold_left_app.
  - destruct cs1 as [|c cs1]; simpl; [reflexivity|].
    now rewrite fold_left_app.
Qed.

(** One pass adds to every key its contributions from the list. *)
Lemma rrf_pass_scoreOf k results i scores key :
  scoreOf key (rrf_pass k results i scores)
  = addAll (scoreOf key scores) (contributions k results i key).
Proof.
  revert i scores. induction results as [|result rest IH]; intros i scores.
  - simpl. now destruct (scoreOf key scores).
  - cbn [rrf_pass contributions]. rewrite IH, <- addAll_app. f_equal.
    rewrite hasKey_scoreOf.
    destruct (scoreOf (dedupKey result) scores) as [s0|] eqn:E0.
    + rewrite scoreOf_addScore.
      destruct (str_eqb (dedupKey result) key) eqn:E.
      * apply str_eqb_eq in E. subst key. now rewrite E0.
      * now destruct (scoreOf key scores).
    + rewrite scoreOf_app_new.
      destruct (str_eqb (dedupKey result) key) eqn:E.
      * apply str_eqb_eq in E. subst key. now rewrite E0.
      * now destruct (scoreOf key scores).
Qed.

(** The entry of a key after both passes: the sum of what the first list
    and then the second list give to it. *)
Lemma rrfScores_scoreOf results1 results2 k key :
  scoreOf key (rrfScores results1 results2 k)
  = total (contributions k results1 0 key ++ contributions k results2 0 key).
Proof.
  unfold rrfScores. rewrite !rrf_pass_scoreOf. cbn [scoreOf].
  now rewrite addAll_app.
Qed.

(** C5. After both passes the score of a key is the sum of [1 / (k + i + 1)]
    over the ranks [i] at which the key stands in the first list and then
    in the second; a key in neither list has no entry. For [A = [x, y, z]],
    [B = [y, x, w]] and [k = 60]: x has 1/61 + 1/62, y has 1/62 + 1/61,
    which is the same number, and w has 1/63 alone; the fused list is x, y,
    z, w with these scores. *)
Theorem C5_reciprocalRankFusion_scores :
  (forall results1 results2 k key,
      scoreOf key (rrfScores results1 results2 k)
      = total (contributions k results1 0 key
                 ++ contributions k results2 0 key))
  /\ (forall results i key,
         contributions RRF_K results i key
         = List.map (fun j => (1 / (60 + num j + 1))%float)
             (List.filter
                (fun j => match nth_error results (j - i) with
                          | Some r => str_eqb (dedupKey r) key
                          | None => false
                          end)
                (seq i (length results))))
  /\ (let A := [hit_x; hit_y; hit_z] in
      let B := [hit_y; hit_x; hit_w] in
      scoreOf (dedupKey hit_x) (rrfScores A B RRF_K)
      = Some (1 / 61 + 1 / 62)%float
      /\ scoreOf (dedupKey hit_y) (rrfScores A B RRF_K)
         = Some (1 / 62 + 1 / 61)%float
      /\ scoreOf (dedupKey hit_x) (rrfScores A B RRF_K)
         = scoreOf (dedupKey hit_y) (rrfScores A B RRF_K)
      /\ scoreOf (dedupKey hit_w) (rrfScores A B RRF_K)
         = Some (1 / 63)%float
      /\ reciprocalRankFusion A B 10 None
         = [withScore hit_x (1 / 61 + 1 / 62)%float;
            withScore hit_y (1 / 62 + 1 / 61)%float;
            withScore hit_z (1 / 63)%float;
            withScore hit_w (1 / 63)%float]).
Proof.
  split; [exact rrfScores_scoreOf|]. split.
  - intros results. induction results as [|r rest IH]; intros i key.
    + reflexivity.
    + cbn [contributions length seq List.filter].
      rewrite Nat.sub_diag. cbn [nth_error].
      rewrite IH.
      assert (List.filter
                (fun j => match nth_error (r :: rest) (j - i) with
                          | Some r0 => str_eqb (dedupKey r0) key
                          | None => false
                          end) (seq (S i) (length rest))
              = List.filter
                  (fun j => match nth_error rest (j - S i) with
                            | Some r0 => str_eqb (dedupKey r0) key
                            | None => false
                            end) (seq (S i) (length rest))) as ->.
      { apply filter_ext_in. intros j Hj. apply in_seq in Hj.
        replace (j - i)%nat with (S (j - S i)) by lia. reflexivity. }
      destruct (str_eqb (dedupKey r) key); reflexivity.
  - cbv zeta. repeat split; vm_compute; reflexivity.
Qed.
End FusionFacts.

(** ** C9: the source catalog *)

Section CatalogFacts.
Context `{Platform}.
Import VectorStore.

Lemma dedup_snoc l x : dedup (l ++ [x]) = Crawler.set_add (dedup l) x.
Proof. unfold dedup. now rewrite fold_left_app. Qed.

Lemma set_add_In s x y :
  In y (Crawler.set_add s x) <-> In y s \/ y = x.
Proof.
  unfold Crawler.set_add. destruct (includes s x) eqn:E.
  - apply includes_In in E. split; [auto|]. intros [?| ->]; assumption.
  - rewrite in_app_iff. simpl. intuition congruence.
Qed.

Lemma dedup_In l x : In x (dedup l) <-> In x l.
Proof.
  induction l as [|y l IH] using rev_ind; [reflexivity|].
  rewrite dedup_snoc, set_add_In, IH, in_app_iff. simpl. intuition congruence.
Qed.

Lemma dedup_NoDup l : List.NoDup (dedup l).
Proof.
  induction l as [|y l IH] using rev_ind; [constructor|].
  rewrite dedup_snoc. unfold Crawler.set_add.
  destruct (includes (dedup l) y) eqn:E; [assumption|].
  apply List.NoDup_app.
  - assumption.
  - repeat constructor. intros [].
  - intros x Hx [<- | []]. apply includes_In in Hx. congruence.
Qed.

Lemma under_snoc base l m :
  under base (l ++ [m])
  = under base l ++ (if str_eqb (baseOf m) base then [m] else []).
Proof. unfold under. now rewrite List.filter_app. Qed.

Lemma under_nil base l :
  ~ In base (List.map baseOf l) -> under base l = [].
Proof.
  intros Hn. unfold under. induction l as [|m l IH]; [reflexivity|].
  simpl in *. destruct (str_eqb (baseOf m) base) eqn:E.
  - apply str_eqb_eq in E. tauto.
  - apply IH. tauto.
Qed.

Lemma under_cons base l :
  In base (List.map baseOf l) -> exists m rest, under base l = m :: rest.
Proof.
  intros Hin. unfold under. induction l as [|m l IH]; [destruct Hin|].
  simpl in *. destruct (str_eqb (baseOf m) base) eqn:E; [eauto|].
  apply IH. destruct Hin as [E'|Hin]; [|assumption].
  apply str_eqb_neq in E. congruence.
Qed.

Lemma hasKey_map {V} key (f : jsstring -> V) keys :
  hasKey key (List.map (fun k => (k, f k)) keys) = includes keys key.
Proof.
  unfold hasKey, includes. induction keys as [|k keys IH]; [reflexivity|].
  simpl. rewrite IH. f_equal.
  destruct (str_eqb k key) eqn:E1, (str_eqb key k) eqn:E2; try reflexivity.
  - apply str_eqb_eq in E1. subst. now rewrite str_eqb_refl in E2.
  - apply str_eqb_eq in E2. subst. now rewrite str_eqb_refl in E1.
Qed.

(** Touching the entry of [base] in a map with distinct keys changes that
    entry and no other. *)
Lemma touchSource_map base url (f g : jsstring -> SourceEntry) keys :
  List.NoDup keys ->
  (forall k, In k keys -> k <> base -> g k = f k) ->
  (In base keys ->
   g base = {| entry_title := entry_title (f base);
               entry_pageUrls := Crawler.set_add (entry_pageUrls (f base)) url;
               entry_chunkCount := S (entry_chunkCount (f base));
               entry_indexedAt := entry_indexedAt (f base) |}) ->
  touchSource base url (List.map (fun k => (k, f k)) keys)
  = List.map (fun k => (k, g k)) keys.
Proof.
  intros Hnd. induction Hnd as [|k keys Hk Hnd IH]; intros Hother Hbase.
  - reflexivity.
  - simpl. destruct (str_eqb k base) eqn:E.
    + apply str_eqb_eq in E. subst k.
      rewrite Hbase by (left; reflexivity). f_equal.
      apply map_ext_in. intros k' Hk'. f_equal. symmetry.
      apply Hother; [right; assumption|]. intros ->.
      apply Hk, Hk'.
    + apply str_eqb_neq in E. f_equal.
      * f_equal. symmetry. apply Hother; [left; reflexivity|assumption].
      * apply IH.
        -- intros k' Hk' Hne. apply Hother; [right; assumption|assumption].
        -- intros Hin. apply Hbase. right; assumption.
Qed.

(** One more record: the catalog of the records so far, with the record
    added as the loop body does, is the catalog of all of them. *)
Lemma addMeta_catalog l m :
  addMeta (catalog l) (Some m) = catalog (l ++ [m]).
Proof.
  unfold addMeta. fold (baseOf m). set (base := baseOf m).
  unfold catalog. rewrite hasKey_map.
  rewrite (List.map_app baseOf).
  change (List.map baseOf [m]) with [base].
  rewrite dedup_snoc. unfold Crawler.set_add at 1.
  destruct (includes (dedup (List.map baseOf l)) base) eqn:E; cbn [negb].
  - (* the base is known *)
    apply includes_In in E.
    apply touchSource_map; [apply dedup_NoDup| |].
    + intros k _ Hne. unfold entryOf. rewrite under_snoc.
      fold base. destruct (str_eqb base k) eqn:E'.
      * apply str_eqb_eq in E'. congruence.
      * now rewrite app_nil_r.
    + intros _. unfold entryOf. rewrite under_snoc. fold base.
      rewrite str_eqb_refl.
      apply (proj1 (dedup_In _ _)) in E.
      destruct (under_cons base l E) as (m0 & rest & ->).
      cbn [app]. f_equal.
      * change (m0 :: rest ++ [m]) with ((m0 :: rest) ++ [m]).
        rewrite List.map_app. apply dedup_snoc.
      * cbn [entry_chunkCount length]. rewrite length_app. simpl. lia.
  - (* a new base *)
    assert (~ In base (dedup (List.map baseOf l))) as Hnew.
    { intros Hin%includes_In. congruence. }
    set (fresh := {| entry_title := md_title m; entry_pageUrls := [];
                     entry_chunkCount := 0;
                     entry_indexedAt := md_indexedAt m |}).
    set (f := fun k => if str_eqb k base then fresh else entryOf l k).
    replace (List.map (fun base0 => (base0, entryOf l base0))
               (dedup (List.map baseOf l)) ++ [(base, fresh)])
      with (List.map (fun k => (k, f k)) (dedup (List.map baseOf l) ++ [base])).
    2:{ rewrite List.map_app. cbn [List.map]. unfold f at 2.
        rewrite str_eqb_refl. f_equal.
        apply map_ext_in. intros k Hk. unfold f.
        destruct (str_eqb k base) eqn:E'; [|reflexivity].
        apply str_eqb_eq in E'. congruence. }
    apply touchSource_map.
    + apply List.NoDup_app; [apply dedup_NoDup | repeat constructor; intros [] |].
      intros x Hx [<- | []]. contradiction.
    + intros k _ Hne. unfold f.
      destruct (str_eqb k base) eqn:E'; [apply str_eqb_eq in E'; congruence|].
      unfold entryOf. rewrite under_snoc.
      fold base. destruct (str_eqb base k) eqn:E''.
      * apply str_eqb_eq in E''. congruence.
      * now rewrite app_nil_r.
    + intros _. unfold f. rewrite str_eqb_refl.
      unfold entryOf. rewrite under_snoc. fold base.
      rewrite str_eqb_refl.
      rewrite under_nil
        by (intros Hin; apply Hnew, dedup_In, Hin).
      reflexivity.
Qed.

Lemma fold_addMeta ms l :
  fold_left addMeta ms (catalog l) = catalog (l ++ present ms).
Proof.
  revert l. induction ms as [|[m|] ms IH]; intros l;
    cbn [fold_left present flat_map].
  - now rewrite app_nil_r.
  - rewrite addMeta_catalog, IH, <- app_assoc. reflexivity.
  - apply IH.
Qed.
End CatalogFacts.

(** ** Lists, page by page *)

Lemma firstn_page {A} (o n : nat) (b : list A) :
  firstn o b ++ firstn n (skipn o b) = firstn (o + n) b.
Proof.
  revert b. induction o as [|o IH]; intros b; [reflexivity|].
  destruct b as [|x b]; simpl.
  - now rewrite firstn_nil.
  - now rewrite IH.
Qed.

Lemma firstn_length_firstn {A} (n : nat) (l : list A) :
  firstn (length (firstn n l)) l = firstn n l.
Proof.
  revert l. induction n as [|n IH]; intros [|x l]; simpl; try reflexivity.
  now rewrite IH.
Qed.

Lemma page_empty {A} (o n : nat) (b : list A) :
  (0 < n)%nat -> firstn n (skipn o b) = [] -> skipn o b = [].
Proof.
  intros Hn E. destruct n; [lia|]. destruct (skipn o b); [reflexivity|discriminate].
Qed.

Lemma page_short {A} (n : nat) (l : list A) :
  length (firstn n l) <> n -> firstn n l = l.
Proof.
  intros Hne. apply firstn_all2.
  rewrite length_firstn in Hne. lia.
Qed.

Lemma skipn_nil_firstn {A} (o : nat) (b : list A) :
  skipn o b = [] -> firstn o b = b.
Proof.
  intros E. rewrite <- (firstn_skipn o b) at 2. now rewrite E, app_nil_r.
Qed.

Lemma BATCH_SIZE_pos : (0 < VectorStore.BATCH_SIZE)%nat.
Proof. unfold VectorStore.BATCH_SIZE, Config.chroma_batchSize. lia. Qed.

Section ListSourcesFacts.
Context `{Platform}.
Import VectorStore IdealStore.

Lemma present_app ms1 ms2 : present (ms1 ++ ms2) = present ms1 ++ present ms2.
Proof. unfold present. apply flat_map_app. Qed.

Lemma listSources_loop_ideal fuel (b : store) o tr c :
  (length b - o < fuel)%nat ->
  exists tr',
    listSources_loop col_get fuel (catalog (storedMetadata (firstn o b))) o
      {| backend := b; trace := tr; connected := c |}
    = (Returns (catalog (storedMetadata b)),
       {| backend := b; trace := tr'; connected := c |}).
Proof.
  revert o tr. induction fuel as [|fuel IH]; intros o tr Hfuel; [lia|].
  cbn [listSources_loop]. unfold bind at 1, call at 1, col_get at 1.
  cbn [backend trace connected metadatas].
  rewrite length_map.
  set (page := firstn BATCH_SIZE (skipn o b)).
  destruct (length page =? 0)%nat eqn:E0.
  - apply Nat.eqb_eq, length_zero_iff_nil in E0.
    apply (page_empty _ _ _ BATCH_SIZE_pos), skipn_nil_firstn in E0.
    rewrite E0. unfold ret. eauto.
  - apply Nat.eqb_neq in E0.
    rewrite !fold_addMeta.
    assert (storedMetadata (firstn o b) ++ present (List.map rec_metadata page)
            = storedMetadata (firstn (o + length page) b)) as ->.
    { unfold storedMetadata. rewrite <- present_app, <- List.map_app.
      unfold page at 1.
      rewrite <- (firstn_page o (length page) b). do 3 f_equal.
      unfold page. symmetry. apply firstn_length_firstn. }
    destruct (length page =? BATCH_SIZE)%nat eqn:E1.
    + apply Nat.eqb_eq in E1. rewrite E1.
      apply IH.
      assert (length page <= length (skipn o b))%nat
        by (unfold page; rewrite length_firstn; lia).
      rewrite length_skipn in *. lia.
    + apply Nat.eqb_neq in E1.
      assert (page = skipn o b) as Hpage by (apply page_short, E1).
      replace (firstn (o + length page) b) with b.
      * unfold ret. eauto.
      * rewrite <- firstn_page, Hpage, firstn_all.
        symmetry. apply firstn_skipn.
Qed.

(** C9, as the code has it. On a collection of [n] records, with fuel for
    more than [n] rounds, [listSources] returns one [SourceInfo] per
    distinct base URL of the stored metadata, in the order of first
    occurrence: [pageCount] is the number of distinct page URLs under the
    base, [chunkCount] the number of records under it, and [indexedAt]
    (like the title) is that of the first record under the base in scan
    order. The collection is left as it was. *)
Theorem C9_listSources_first_seen (b : store) (fuel : nat) :
  (length b < fuel)%nat ->
  exists w',
    listSources connect col_get fuel (world b)
    = (Returns (List.map (sourceInfoOf (storedMetadata b))
                  (dedup (List.map baseOf (storedMetadata b)))), w')
    /\ backend w' = b
    /\ List.NoDup (dedup (List.map baseOf (storedMetadata b))).
Proof.
  intros Hfuel. unfold listSources, getCollection, world.
  unfold bind at 1 2, get_connected, call at 1, connect, set_connected.
  unfold bind at 1. cbn [backend trace connected].
  destruct (listSources_loop_ideal fuel b 0 ([] ++ [EvConnect]) true) as [tr' E].
  { lia. }
  change (catalog (storedMetadata (firstn 0 b))) with (@nil (jsstring * SourceEntry)) in E.
  unfold bind. rewrite E. unfold ret. eexists. split; [|split].
  - f_equal. f_equal. unfold catalog. rewrite List.map_map. reflexivity.
  - reflexivity.
  - apply dedup_NoDup.
Qed.
End ListSourcesFacts.

Lemma C9_listSources_first_seen_witness :
  exists w',
    @VectorStore.listSources Simple.platform _
      IdealStore.connect IdealStore.col_get 3 (IdealStore.world twoCrawls)
    = (Returns
         [{| src_url := str "https://docs.example.com";
             src_title := str "Intro";
             src_pageCount := 2;
             src_chunkCount := 2;
             src_indexedAt := DateOf (str "2024-01-01T00:00:00.000Z") |}], w').
Proof.
  destruct (@C9_listSources_first_seen Simple.platform twoCrawls 3)
    as (w' & E & _).
  - simpl. lia.
  - exists w'. exact E.
Defined.

(** The specification has [indexedAt] as the most recently seen value. The records
    of [docs.example.com] carry, in scan order, January and then June; the
    catalog says January. *)
Lemma C9_indexedAt_is_not_the_latest :
  List.map md_indexedAt
    (@under Simple.platform (str "https://docs.example.com")
       (storedMetadata twoCrawls))
  = [str "2024-01-01T00:00:00.000Z"; str "2024-06-01T00:00:00.000Z"]
  /\ fst (@VectorStore.listSources Simple.platform _
            IdealStore.connect IdealStore.col_get 3 (IdealStore.world twoCrawls))
     = Returns
         [{| src_url := str "https://docs.example.com";
             src_title := str "Intro";
             src_pageCount := 2;
             src_chunkCount := 2;
             src_indexedAt := DateOf (str "2024-01-01T00:00:00.000Z") |}].
Proof. split; vm_compute; reflexivity. Qed.

(** ** C4: deletion by base URL *)

Lemma filter_negb_filter {A} (p : A -> bool) (l : list A) :
  List.filter p (List.filter (fun x => negb (p x)) l) = [].
Proof.
  induction l as [|x l IH]; [reflexivity|]. simpl.
  destruct (p x) eqn:E; simpl; [|rewrite E]; exact IH.
Qed.

Lemma filter_idem {A} (p : A -> bool) (l : list A) :
  List.filter p (List.filter p l) = List.filter p l.
Proof.
  induction l as [|x l IH]; [reflexivity|]. simpl.
  destruct (p x) eqn:E; simpl; [rewrite E, IH|]; auto.
Qed.

Lemma filter_none_negb {A} (p : A -> bool) (l : list A) :
  List.filter p l = [] -> List.filter (fun x => negb (p x)) l = l.
Proof.
  induction l as [|x l IH]; [reflexivity|]. simpl.
  destruct (p x); [discriminate|]. intros E. simpl. now rewrite IH.
Qed.

Lemma filter_split_length {A} (p : A -> bool) (l : list A) :
  (length (List.filter p l) + length (List.filter (fun x => negb (p x)) l)
   = length l)%nat.
Proof.
  induction l as [|x l IH]; [reflexivity|]. simpl.
  destruct (p x); simpl; lia.
Qed.

Lemma filter_all {A} (p : A -> bool) (l : list A) :
  (forall x, In x l -> p x = true) -> List.filter p l = l.
Proof.
  induction l as [|x l IH]; [reflexivity|]. intros Hall. simpl.
  rewrite Hall by (left; reflexivity). f_equal. apply IH.
  intros y Hy. apply Hall. now right.
Qed.

Lemma NoDup_map_injective {A C} (f : A -> C) (l : list A) (x y : A) :
  List.NoDup (List.map f l) -> In x l -> In y l -> f x = f y -> x = y.
Proof.
  induction l as [|z l IH]; [intros _ []|].
  simpl. intros Hnd Hx Hy E. inversion Hnd as [|? ? Hz Hnd']; subst.
  destruct Hx as [->|Hx], Hy as [->|Hy].
  - reflexivity.
  - exfalso. apply Hz. rewrite E. now apply in_map.
  - exfalso. apply Hz. rewrite <- E. now apply in_map.
  - now apply IH.
Qed.

Lemma NoDup_map_filter {A C} (f : A -> C) (p : A -> bool) (l : list A) :
  List.NoDup (List.map f l) -> List.NoDup (List.map f (List.filter p l)).
Proof.
  induction l as [|z l IH]; [intros; constructor|].
  simpl. intros Hnd. inversion Hnd as [|? ? Hz Hnd']; subst.
  destruct (p z); [|now apply IH].
  simpl. constructor; [|now apply IH].
  intros Hin. apply Hz. apply in_map_iff in Hin as (y & E & Hy).
  apply filter_In in Hy as [Hy _]. rewrite <- E. now apply in_map.
Qed.

Section DeleteFacts.
Context `{Platform}.
Import VectorStore IdealStore.

Lemma selectIds_filter baseUrl (l before : list StoredRecord) :
  selectIds baseUrl (List.map rec_id l)
    (List.map rec_metadata (before ++ l)) (length before)
  = List.map rec_id (List.filter (matchesBase baseUrl) l).
Proof.
  revert before. induction l as [|r l IH]; intros before; [reflexivity|].
  cbn [List.map selectIds List.filter].
  rewrite nth_error_map, nth_error_app2, Nat.sub_diag by lia.
  cbn [nth_error option_map].
  specialize (IH (before ++ [r])).
  rewrite <- app_assoc, length_app, Nat.add_comm in IH. cbn [app length Nat.add] in IH.
  rewrite IH.
  assert (matchesBase baseUrl r
          = match rec_metadata r with
            | Some meta => startsWith (md_url meta) baseUrl
            | None => false
            end) as HP by reflexivity.
  destruct (rec_metadata r) as [meta|]; rewrite HP; [|reflexivity].
  destruct (startsWith (md_url meta) baseUrl); reflexivity.
Qed.

(** Deleting the matching records of a page of a collection with distinct
    ids removes them from the page and leaves the rest. *)
Lemma delete_page baseUrl (before page behind : list StoredRecord) :
  List.NoDup (List.map rec_id (before ++ page ++ behind)) ->
  List.filter
    (fun r => negb (includes
                      (List.map rec_id (List.filter (matchesBase baseUrl) page))
                      (rec_id r)))
    (before ++ page ++ behind)
  = before ++ List.filter (keeps baseUrl) page ++ behind.
Proof.
  intros Hnd.
  assert (forall r, In r (before ++ page ++ behind) ->
            includes (List.map rec_id (List.filter (matchesBase baseUrl) page))
              (rec_id r) = true
            <-> In r page /\ matchesBase baseUrl r = true) as Hin.
  { intros r Hr. rewrite includes_In, in_map_iff. split.
    - intros (r' & E & Hr'). apply filter_In in Hr' as [Hr' HP].
      assert (r' = r) as ->; [|auto].
      apply (NoDup_map_injective rec_id _ _ _ Hnd); auto.
      rewrite !in_app_iff. auto.
    - intros [Hp HP]. exists r. split; [reflexivity|].
      apply filter_In. auto. }
  pose proof (List.NoDup_map_inv _ _ Hnd) as Hnd'.
  rewrite !List.filter_app. f_equal; [|f_equal].
  - apply filter_all. intros r Hr. apply negb_true_iff.
    destruct (includes _ _) eqn:E; [|reflexivity].
    apply Hin in E as [Hp _]; [|rewrite in_app_iff; auto].
    exfalso. revert Hnd' r Hr Hp. clear.
    induction before as [|x before IH]; [intros _ r []|].
    simpl. intros Hnd r [->|Hr] Hp; inversion Hnd; subst.
    + match goal with Hx : ~ In r _ |- _ => apply Hx end.
      rewrite !in_app_iff. auto.
    + eauto.
  - apply filter_ext_in. intros r Hr. unfold keeps. f_equal.
    destruct (includes _ _) eqn:E.
    + apply Hin in E as [_ ->]; [reflexivity|]. rewrite !in_app_iff. auto.
    + destruct (matchesBase baseUrl r) eqn:E'; [|reflexivity].
      assert (includes
                (List.map rec_id (List.filter (matchesBase baseUrl) page))
                (rec_id r) = true) as E''
        by (apply Hin; [rewrite !in_app_iff; auto|auto]).
      congruence.
  - apply filter_all. intros r Hr. apply negb_true_iff.
    destruct (includes _ _) eqn:E; [|reflexivity].
    apply Hin in E as [Hp _]; [|rewrite !in_app_iff; auto].
    exfalso. apply NoDup_app_remove_l in Hnd'.
    revert Hnd' r Hr Hp. clear.
    induction page as [|x page IH]; [intros _ r _ []|].
    simpl. intros Hnd r Hr [->|Hp]; inversion Hnd; subst.
    + match goal with Hx : ~ In r _ |- _ => apply Hx end.
      rewrite in_app_iff. auto.
    + eauto.
Qed.

(** One round of the loop on the store. *)
Lemma deleteByUrl_loop_round fuel baseUrl (b : store) o t tr c :
  deleteByUrl_loop col_get col_delete (S fuel) baseUrl t o (mkWorld b tr c)
  = let page := firstn BATCH_SIZE (skipn o b) in
    let del := List.filter (matchesBase baseUrl) page in
    let w1 := mkWorld b (tr ++ [EvGet BATCH_SIZE o]) c in
    let w2 :=
      mkWorld
        (List.filter (fun r => negb (includes (List.map rec_id del) (rec_id r))) b)
        ((tr ++ [EvGet BATCH_SIZE o]) ++ [EvDelete (List.map rec_id del)]) c in
    if (length page =? 0)%nat then (Returns t, w1)
    else if (0 <? length del)%nat then
      if (length page =? BATCH_SIZE)%nat
      then deleteByUrl_loop col_get col_delete fuel baseUrl
             (t + length del)%nat o w2
      else (Returns (t + length del)%nat, w2)
    else
      if (length page =? BATCH_SIZE)%nat
      then deleteByUrl_loop col_get col_delete fuel baseUrl t
             (o + length page)%nat w1
      else (Returns t, w1).
Proof.
  cbn [deleteByUrl_loop]. cbv zeta.
  unfold bind at 1, call at 1, col_get at 1, mkWorld.
  cbn [backend trace connected metadatas ids].
  pose proof (selectIds_filter baseUrl (firstn BATCH_SIZE (skipn o b)) [])
    as Hsel.
  cbn [app length] in Hsel. rewrite Hsel. clear Hsel.
  rewrite !length_map.
  set (page := firstn BATCH_SIZE (skipn o b)).
  set (del := List.filter (matchesBase baseUrl) page).
  destruct (length page =? 0)%nat; [reflexivity|].
  destruct (0 <? length del)%nat eqn:Edel.
  - assert ((length del =? 0)%nat = false) as ->
      by (apply Nat.eqb_neq; apply Nat.ltb_lt in Edel; lia).
    unfold bind at 1, call at 1, col_delete at 1.
    cbn [backend trace connected].
    destruct (length page =? BATCH_SIZE)%nat; reflexivity.
  - assert ((length del =? 0)%nat = true) as ->
      by (apply Nat.eqb_eq; apply Nat.ltb_ge in Edel; lia).
    unfold bind at 1, ret at 1.
    destruct (length page =? BATCH_SIZE)%nat; reflexivity.
Qed.

(** The loop from offset [o]: it deletes the matching records from [o] on
    and no other, counts them, and its scans follow [scanFrom]. *)
Lemma deleteByUrl_loop_ideal fuel baseUrl (b : store) o t tr c :
  List.NoDup (List.map rec_id b) ->
  (length (skipn o b) < fuel)%nat ->
  exists evs,
    deleteByUrl_loop col_get col_delete fuel baseUrl t o (mkWorld b tr c)
    = (Returns (t + length (List.filter (matchesBase baseUrl) (skipn o b)))%nat,
       mkWorld (firstn o b ++ List.filter (keeps baseUrl) (skipn o b))
         (tr ++ evs) c)
    /\ scanFrom o evs.
Proof.
  revert b o t tr. induction fuel as [|fuel IH]; intros b o t tr Hnd Hfuel; [lia|].
  rewrite deleteByUrl_loop_round. cbv zeta.
  set (page := firstn BATCH_SIZE (skipn o b)).
  set (behind := skipn BATCH_SIZE (skipn o b)).
  set (del := List.filter (matchesBase baseUrl) page).
  assert (skipn o b = page ++ behind) as Hsplit
    by (symmetry; apply firstn_skipn).
  assert (b = firstn o b ++ page ++ behind) as Hb
    by (rewrite <- Hsplit; symmetry; apply firstn_skipn).
  destruct (length page =? 0)%nat eqn:E0.
  { (* nothing from [o] on *)
    apply Nat.eqb_eq, length_zero_iff_nil in E0.
    apply (page_empty _ _ _ BATCH_SIZE_pos) in E0.
    exists [EvGet BATCH_SIZE o]. split; [|constructor].
    rewrite E0. cbn [List.filter length]. rewrite Nat.add_0_r, app_nil_r.
    now rewrite (skipn_nil_firstn _ _ E0). }
  apply Nat.eqb_neq in E0.
  assert (length (firstn o b) = o) as Ho.
  { apply firstn_length_le. rewrite length_skipn in Hfuel.
    assert (length (skipn o b) <> 0)%nat.
    { rewrite Hsplit, length_app. lia. }
    rewrite length_skipn in *. lia. }
  assert (List.filter (fun r => negb (includes (List.map rec_id del) (rec_id r))) b
          = firstn o b ++ List.filter (keeps baseUrl) page ++ behind) as Hdel.
  { rewrite Hb at 1. apply delete_page. now rewrite <- Hb. }
  rewrite Hdel.
  destruct (0 <? length del)%nat eqn:Edel.
  - (* a page with deletions: the same offset again *)
    apply Nat.ltb_lt in Edel.
    assert (List.map rec_id del <> []) as Hne.
    { intros E. apply (f_equal (@length _)) in E. rewrite length_map in E.
      simpl in E. lia. }
    set (b' := firstn o b ++ List.filter (keeps baseUrl) page ++ behind).
    assert (skipn o b' = List.filter (keeps baseUrl) page ++ behind) as Hskip.
    { unfold b'. rewrite skipn_app, Ho, Nat.sub_diag.
      rewrite <- Ho at 1. rewrite skipn_all. reflexivity. }
    assert (firstn o b' = firstn o b) as Hfirst.
    { unfold b'. rewrite firstn_app, Ho, Nat.sub_diag.
      rewrite <- Ho at 1. rewrite firstn_all. cbn [firstn]. apply app_nil_r. }
    destruct (length page =? BATCH_SIZE)%nat eqn:E1.
    + destruct (IH b' o (t + length del)%nat
                  ((tr ++ [EvGet BATCH_SIZE o]) ++ [EvDelete (List.map rec_id del)]))
        as (evs & E & Hscan).
      * unfold b'. rewrite <- Hdel. now apply NoDup_map_filter.
      * rewrite Hskip, length_app.
        pose proof (filter_split_length (matchesBase baseUrl) page).
        fold del in H0. unfold keeps.
        rewrite Hsplit, length_app in Hfuel. lia.
      * exists (EvGet BATCH_SIZE o :: EvDelete (List.map rec_id del) :: evs).
        split; [|now constructor].
        unfold mkWorld in *. rewrite E, Hskip, Hfirst, Hsplit.
        rewrite !List.filter_app. unfold keeps at 2 3.
        rewrite filter_negb_filter, filter_idem. fold del.
        cbn [app]. rewrite length_app, <- !app_assoc. cbn [app].
        do 2 f_equal. lia.
    + apply Nat.eqb_neq in E1.
      assert (behind = []) as Hbehind.
      { unfold behind. apply skipn_all2.
        unfold page in E1. rewrite length_firstn in E1. lia. }
      exists [EvGet BATCH_SIZE o; EvDelete (List.map rec_id del)].
      split; [|now constructor].
      unfold b'. rewrite Hsplit, Hbehind, !app_nil_r, <- app_assoc.
      reflexivity.
  - (* a page without deletions: the next offset *)
    apply Nat.ltb_ge in Edel.
    assert (del = []) as Hnone
      by (apply length_zero_iff_nil; lia).
    assert (List.filter (keeps baseUrl) page = page) as Hkeep
      by (apply filter_none_negb, Hnone).
    destruct (length page =? BATCH_SIZE)%nat eqn:E1.
    + apply Nat.eqb_eq in E1.
      destruct (IH b (o + length page)%nat t (tr ++ [EvGet BATCH_SIZE o]))
        as (evs & E & Hscan); [assumption| |].
      * pose proof (f_equal (@length _) Hsplit) as HL.
        rewrite length_app, length_skipn in HL.
        rewrite length_skipn. rewrite length_skipn in Hfuel. lia.
      * exists (EvGet BATCH_SIZE o :: evs).
        split; [|constructor; now rewrite <- E1].
        rewrite E.
        assert (firstn (o + length page) b = firstn o b ++ page) as ->.
        { rewrite <- firstn_page. f_equal. apply firstn_length_firstn. }
        assert (skipn (o + length page) b = behind) as ->.
        { rewrite Nat.add_comm, <- skipn_skipn. unfold behind.
          now rewrite E1. }
        rewrite Hsplit, !List.filter_app. fold del.
        rewrite Hnone, Hkeep, <- !app_assoc. reflexivity.
    + apply Nat.eqb_neq in E1.
      assert (behind = []) as Hbehind.
      { unfold behind. apply skipn_all2.
        unfold page in E1. rewrite length_firstn in E1. lia. }
      exists [EvGet BATCH_SIZE o]. split; [|constructor].
      rewrite Hsplit, Hbehind, !app_nil_r. fold del.
      rewrite Hnone, Hkeep. cbn [length]. rewrite Nat.add_0_r.
      rewrite Hb at 1. now rewrite Hbehind, app_nil_r.
Qed.

(** C4. On a collection with distinct ids, [deleteByUrl(url)] with fuel
    for more rounds than there are records returns; the records left are
    those whose url does not start with the base URL of [url], in their
    order, so that the records deleted are exactly those whose url starts
    with it; the number returned is the number of records deleted; and the
    scans after opening the collection start at offset 0 and move to the
    next offset only after a page without deletions. *)
Theorem C4_deleteByUrl_exact (b : store) (url : jsstring) (fuel : nat) :
  List.NoDup (List.map rec_id b) ->
  (length b < fuel)%nat ->
  exists evs,
    deleteByUrl connect col_get col_delete fuel url (world b)
    = (Returns (length (List.filter (matchesBase (getBaseUrl url)) b)),
       mkWorld (List.filter (keeps (getBaseUrl url)) b) (EvConnect :: evs) true)
    /\ scanFrom 0 evs
    /\ (forall parsed,
           URL_new url None = Some parsed ->
           getBaseUrl url = protocol parsed ++ str "//" ++ hostname parsed).
Proof.
  intros Hnd Hfuel. unfold deleteByUrl, getCollection, world.
  unfold bind at 1 2, get_connected, call at 1, connect, set_connected.
  unfold bind at 1. cbn [backend trace connected].
  destruct (deleteByUrl_loop_ideal fuel (getBaseUrl url) b 0 0
              ([] ++ [EvConnect]) true Hnd) as (evs & E & Hscan).
  { change (skipn 0 b) with b. lia. }
  exists evs. unfold mkWorld in *. rewrite E.
  change (skipn 0 b) with b. change (firstn 0 b) with (@nil StoredRecord).
  cbn [app Nat.add].
  repeat split; [assumption|].
  intros parsed Hp. unfold getBaseUrl. now rewrite Hp.
Qed.
End DeleteFacts.

Lemma distinctb_NoDup (l : list jsstring) :
  distinctb l = true -> List.NoDup l.
Proof.
  induction l as [|x l IH]; [constructor|].
  simpl. intros [Hx Hl]%andb_true_iff. constructor; [|auto].
  intros Hin%includes_In. now rewrite Hin in Hx.
Qed.

Lemma C4_deleteByUrl_exact_witness :
  exists w',
    @VectorStore.deleteByUrl Simple.platform _
      IdealStore.connect IdealStore.col_get IdealStore.col_delete
      2501 (str "https://docs.example.com/start") (IdealStore.world synthetic2500)
    = (Returns 1250%nat, w')
    /\ backend w'
       = List.map syntheticRecord (List.filter Nat.odd (seq 0 2500)).
Proof.
  destruct (@C4_deleteByUrl_exact Simple.platform synthetic2500
              (str "https://docs.example.com/start") 2501)
    as (evs & E & _).
  - apply distinctb_NoDup. vm_compute. reflexivity.
  - unfold synthetic2500. rewrite length_map, length_seq. lia.
  - eexists. split.
    + rewrite E.
      apply f_equal2; [f_equal; vm_compute; reflexivity | reflexivity].
    + cbn [backend mkWorld]. vm_compute. reflexivity.
Defined.

(** ** C2: one redirect hop at most *)

Section FetcherFacts.
Context `{Platform} {B : Type}.
Variable load : jsstring -> Dom.
Variable fetch : jsstring -> B -> outcome Response * B.
Variable clock : B -> Z.
Import Crawler UrlGuard.

(** Reading and parsing a response makes no call: the world stays. *)
Lemma read_loop_world reader chunks totalSize (w : World B) :
  snd (read_loop reader chunks totalSize w) = w.
Proof.
  revert chunks totalSize.
  induction reader as [|chunk rest IH|e]; intros chunks totalSize;
    cbn [read_loop]; [reflexivity| |reflexivity].
  destruct (_ <? _); [reflexivity|apply IH].
Qed.

Lemma readAndParse_world response url (w : World B) :
  snd (readAndParse load clock response url w) = w.
Proof.
  unfold readAndParse.
  destruct (negb (isHtml response)); [reflexivity|].
  destruct (tooLarge response); [reflexivity|].
  unfold bind at 1, readResponseWithLimit.
  destruct (response_body response) as [reader|]; [|reflexivity].
  pose proof (read_loop_world reader [] 0 w) as Hw.
  destruct (read_loop reader [] 0 w) as [[[html|]|e|] w1];
    cbn [snd] in Hw; subst w1; try reflexivity.
  destruct (truthy html); reflexivity.
Qed.

(** C2. Whatever the HTTP backend does, a run of [fetchAndParsePage(url)]
    makes one fetch, of [url], or two, the second one of the target of the
    redirect that the first response asked for, and only if the URL guard
    lets that target pass; when the guard blocks the target the run returns
    null after the first fetch; when the second response is a 3xx itself the
    run returns null after the second fetch. *)
Theorem C2_single_redirect_hop (url : jsstring) (w : World B) :
  (exists evs,
      trace (snd (fetchAndParsePage load fetch clock url w)) = trace w ++ evs
      /\ (evs = [EvFetch url]
          \/ exists target b1,
               firstHop fetch url (backend w) = Some (target, b1)
               /\ isBlockedUrl target = false
               /\ evs = [EvFetch url; EvFetch target]))
  /\ (forall target b1,
         firstHop fetch url (backend w) = Some (target, b1) ->
         isBlockedUrl target = true ->
         fetchAndParsePage load fetch clock url w
         = (Returns None, after w b1 [EvFetch url]))
  /\ (forall target b1 response2 b2,
         firstHop fetch url (backend w) = Some (target, b1) ->
         isBlockedUrl target = false ->
         fetch target b1 = (Returns response2, b2) ->
         isRedirect response2 = true ->
         fetchAndParsePage load fetch clock url w
         = (Returns None, after w b2 [EvFetch url; EvFetch target])).
Proof.
  unfold fetchAndParsePage, try_finally, firstHop, after.
  unfold bind at 1 2 3, call at 1 2 3.
  destruct (fetch url (backend w)) as [[response|e|] b1] eqn:E1;
    cbn [backend trace connected snd].
  2,3: (split; [eexists; split; [reflexivity|left; reflexivity]|];
        split; intros; discriminate).
  destruct (isRedirect response) eqn:Ered.
  - destruct (header_location response) as [location|].
    2: (split; [eexists; split; [reflexivity|left; reflexivity]|];
        split; intros; discriminate).
    destruct (truthy location).
    2: (split; [eexists; split; [reflexivity|left; reflexivity]|];
        split; intros; discriminate).
    destruct (URL_new location (Some url)) as [u|].
    2: (split; [eexists; split; [reflexivity|left; reflexivity]|];
        split; intros; discriminate).
    destruct (isBlockedUrl (href u)) eqn:Eblocked.
    + split; [eexists; split; [reflexivity|left; reflexivity]|].
      split.
      * intros target b1' [= <- <-] _. reflexivity.
      * intros target b1' response2 b2 [= <- <-] Hpass. congruence.
    + unfold fetchWithoutRedirect.
      unfold bind at 1, call at 1. cbn [backend trace connected].
      destruct (fetch (href u) b1) as [[response2|e2|] b2] eqn:E2.
      * split; [|split].
        -- destruct (negb (ok response2) || isRedirect response2).
           ++ eexists. split; [cbn [snd trace]; rewrite <- app_assoc; reflexivity|].
              right. exists (href u), b1. auto.
           ++ rewrite readAndParse_world. cbn [trace].
              eexists. split; [rewrite <- app_assoc; reflexivity|].
              right. exists (href u), b1. auto.
        -- intros target b1' [= <- <-] Hblocked. congruence.
        -- intros target b1' response2' b2' [= <- <-] _ E2' Hred.
           rewrite E2 in E2'. injection E2' as <- <-.
           unfold bind, call. cbn [backend trace connected].
           rewrite E2, Hred, orb_true_r. unfold ret.
           now rewrite <- app_assoc.
      * split; [|split].
        -- eexists. split; [cbn [snd trace]; rewrite <- app_assoc; reflexivity|].
           right. exists (href u), b1. auto.
        -- intros target b1' [= <- <-] Hblocked. congruence.
        -- intros target b1' response2' b2' [= <- <-] _ E2'. congruence.
      * split; [|split].
        -- eexists. split; [cbn [snd trace]; rewrite <- app_assoc; reflexivity|].
           right. exists (href u), b1. auto.
        -- intros target b1' [= <- <-] Hblocked. congruence.
        -- intros target b1' response2' b2' [= <- <-] _ E2'. congruence.
  - split; [|split; intros; discriminate].
    destruct (negb (ok response)).
    + eexists. split; [reflexivity|left; reflexivity].
    + rewrite readAndParse_world. eexists. split; [reflexivity|left; reflexivity].
Qed.

(** The fetcher's events are fetches. *)
Lemma fetchAndParsePage_fetches (url : jsstring) (w : World B) :
  exists evs,
    trace (snd (fetchAndParsePage load fetch clock url w)) = trace w ++ evs
    /\ Forall (fun ev => exists u, ev = EvFetch u) evs.
Proof.
  assert (forall u, exists u', EvFetch u = EvFetch u') as Hf by eauto.
  unfold fetchAndParsePage, try_finally.
  unfold bind at 1, call at 1.
  destruct (fetch url (backend w)) as [[response|e|] b1];
    cbn [backend trace connected snd].
  2,3: (eexists; split; [reflexivity|repeat constructor; apply Hf]).
  destruct (isRedirect response).
  - destruct (header_location response) as [location|];
      [|eexists; split; [reflexivity|repeat constructor; apply Hf]].
    destruct (truthy location);
      [|eexists; split; [reflexivity|repeat constructor; apply Hf]].
    destruct (URL_new location (Some url)) as [u|];
      [|eexists; split; [reflexivity|repeat constructor; apply Hf]].
    destruct (isBlockedUrl (href u));
      [eexists; split; [reflexivity|repeat constructor; apply Hf]|].
    unfold fetchWithoutRedirect. unfold bind at 1, call at 1.
    cbn [backend trace connected].
    destruct (fetch (href u) b1) as [[response2|e2|] b2].
    2,3: (eexists; split; [cbn [snd trace]; rewrite <- app_assoc; reflexivity|];
          repeat constructor; apply Hf).
    destruct (negb (ok response2) || isRedirect response2).
    + eexists. split; [cbn [snd trace]; rewrite <- app_assoc; reflexivity|].
      repeat constructor; apply Hf.
    + rewrite readAndParse_world. cbn [trace].
      eexists. split; [rewrite <- app_assoc; reflexivity|].
      repeat constructor; apply Hf.
  - destruct (negb (ok response)).
    + eexists. split; [reflexivity|repeat constructor; apply Hf].
    + rewrite readAndParse_world.
      eexists. split; [reflexivity|repeat constructor; apply Hf].
Qed.
End FetcherFacts.

(** On the chain the fetcher asks for A and for B, and gives up there. *)
Lemma C2_single_redirect_hop_witness :
  Chain.run
  = (Returns None,
     {| backend := tt; trace := [EvFetch Site.A; EvFetch Site.B];
        connected := false |}).
Proof.
  destruct (@C2_single_redirect_hop Simple.platform unit Site.load Chain.fetch
              (fun _ => 0) Site.A Site.world) as (_ & _ & Hsecond).
  apply (Hsecond Site.B tt (Chain.redirect "/c") tt); vm_compute; reflexivity.
Defined.

(** ** C3: the bounds of the crawl *)

Lemma extends_refl {B} D (w : World B) : extends D w w.
Proof. exists []. split; [now rewrite app_nil_r|constructor]. Qed.

Lemma extends_trans {B} D (w1 w2 w3 : World B) :
  extends D w1 w2 -> extends D w2 w3 -> extends D w1 w3.
Proof.
  intros (evs1 & E1 & H1) (evs2 & E2 & H2). exists (evs1 ++ evs2). split.
  - now rewrite E2, E1, app_assoc.
  - apply Forall_app. auto.
Qed.

Lemma extends_tell {B} D (w : World B) ev :
  visitWithin D ev -> extends D w (snd (tell ev w)).
Proof. intros Hev. exists [ev]. split; [reflexivity|]. now repeat constructor. Qed.

Section CrawlFacts.
Context `{Platform} {B : Type}.
Variable fetchPage : jsstring -> M B (option CrawledPage).
Import Crawler UrlGuard.

Lemma quiet_extends D url w :
  quiet fetchPage -> extends D w (snd (fetchPage url w)).
Proof.
  intros Hq. destruct (Hq url w) as (evs & E & Hevs).
  exists evs. split; [assumption|].
  eapply List.Forall_impl; [|exact Hevs]. intros [] Hev; simpl in *; tauto.
Qed.

Lemma rateLimit_extends {A} D (queue : list A) (w : World B) :
  fst (rateLimit queue w) = Returns tt /\ extends D w (snd (rateLimit queue w)).
Proof.
  destruct queue; simpl.
  - split; [reflexivity|apply extends_refl].
  - split; [reflexivity|]. now apply extends_tell.
Qed.

Lemma bounded_after_rateLimit {A} D limit (queue : list A) m :
  bounded fetchPage D limit m -> bounded fetchPage D limit (rateLimit queue ;;; m).
Proof.
  intros Hm w. unfold bind.
  destruct (rateLimit_extends D queue w) as [E Hext].
  destruct (rateLimit queue w) as [[[]|e|] w1]; cbn [fst snd] in *; try discriminate.
  destruct (Hm w1) as (Hext1 & Hlen & Hret).
  split; [eapply extends_trans; eassumption|]. auto.
Qed.

Lemma crawl_scan_bounded D domains resume pages n :
  quiet fetchPage ->
  (forall queue visited page,
      bounded fetchPage D (length pages + S n) (resume queue visited (pages ++ [page]))) ->
  forall queue visited,
    bounded fetchPage D (length pages + S n)
      (crawl_scan fetchPage D domains resume pages queue visited).
Proof.
  intros Hq Hresume queue.
  induction queue as [|[url depth] queue IH]; intros visited.
  - intros w. cbn [crawl_scan]. unfold ret. cbn [fst snd].
    split; [apply extends_refl|]. split.
    + intros pages' [= <-]. lia.
    + eauto.
  - cbn [crawl_scan].
    destruct (set_has visited url || (D <? depth)) eqn:Eskip; [apply IH|].
    destruct (isBlockedUrl url); [apply IH|].
    apply orb_false_iff in Eskip as [_ Hdepth]. apply Z.ltb_ge in Hdepth.
    intros w.
    change ((tell (EvVisit url depth) ;;; fetchPage url) w)
      with (fetchPage url (snd (tell (EvVisit url depth) w))).
    pose proof (extends_tell D w (EvVisit url depth) Hdepth) as Hext0.
    set (w0 := snd (tell (EvVisit url depth) w)) in *.
    pose proof (quiet_extends D url w0 Hq) as Hext1.
    destruct (fetchPage url w0) as [[[page|]|e|] w1] eqn:E1; cbn [snd] in Hext1.
    + match goal with
      | |- context [rateLimit ?q ;;; ?m] =>
          destruct (bounded_after_rateLimit D (length pages + S n) q m
                      (Hresume _ _ _) w1) as (Hext2 & Hlen & Hret)
      end.
      split; [eauto using extends_trans|]. auto.
    + destruct (bounded_after_rateLimit D (length pages + S n) queue _
                  (IH (set_add visited url)) w1) as (Hext2 & Hlen & Hret).
      split; [eauto using extends_trans|]. auto.
    + destruct (IH (set_add visited url) w1) as (Hext2 & Hlen & Hret).
      split; [eauto using extends_trans|]. auto.
    + cbn [fst snd]. split; [eauto using extends_trans|].
      split; [discriminate|].
      intros Hans. exfalso. apply (Hans url w0). now rewrite E1.
Qed.

Lemma crawl_loop_bounded D domains budget :
  quiet fetchPage ->
  forall queue visited pages,
    bounded fetchPage D (length pages + budget)
      (crawl_loop fetchPage D domains budget queue visited pages).
Proof.
  intros Hq. induction budget as [|budget IH]; intros queue visited pages.
  - intros w. cbn [crawl_loop]. unfold ret. cbn [fst snd].
    split; [apply extends_refl|]. split; [intros pages' [= <-]; lia|eauto].
  - cbn [crawl_loop]. apply crawl_scan_bounded; [assumption|].
    intros queue' visited' page.
    replace (length pages + S budget)%nat
      with (length (pages ++ [page]) + budget)%nat
      by (rewrite length_app; simpl; lia).
    apply IH.
Qed.
End CrawlFacts.

(** The fetcher of the repository logs no visits. *)
Lemma fetchAndParsePage_quiet `{Platform} {B : Type} load
    (fetch : jsstring -> B -> outcome Response * B) clock :
  quiet (Crawler.fetchAndParsePage load fetch clock).
Proof.
  intros url w.
  destruct (fetchAndParsePage_fetches load fetch clock url w) as (evs & E & Hevs).
  exists evs. split; [assumption|].
  eapply List.Forall_impl; [|exact Hevs]. intros ev [u ->]. exact I.
Qed.

(** Any fetcher that is a call to a collaborator logs no visits. *)
Lemma call_quiet {B : Type}
    (oracle : jsstring -> B -> outcome (option CrawledPage) * B) :
  quiet (fun url => call (EvFetch url) (oracle url)).
Proof.
  intros url w. unfold call. destruct (oracle url (backend w)) as [r b'].
  exists [EvFetch url]. split; [reflexivity|]. repeat constructor.
Qed.

(** C3. With a fetcher that logs no visits of its own (the fetcher of the
    repository over any HTTP backend is one, and so is any call to a
    collaborator), [crawlWebsite] returns at most [maxPages] pages (100 when
    not given), every queue item it takes to fetch was queued at a depth of
    at most [min(maxDepth, 5)], and it returns whenever the start URL is
    allowed and the fetcher answers. On the site of three pages, from A:
    depth 1 gives the pages A, B, C in this order, depth 0 gives A alone. *)
Theorem C3_crawlWebsite_bounds :
  (forall (P : Platform) (B : Type)
          (fetchPage : jsstring -> M B (option CrawledPage))
          (startUrl : jsstring) (options : CrawlOptions) (w : World B),
      quiet fetchPage ->
      (forall pages,
          fst (Crawler.crawlWebsite fetchPage startUrl options w) = Returns pages ->
          (length pages
           <= default Crawler.DEFAULT_MAX_PAGES (maxPages options))%nat)
      /\ (exists evs,
             trace (snd (Crawler.crawlWebsite fetchPage startUrl options w))
             = trace w ++ evs
             /\ Forall (visitWithin (Z.min (maxDepth options) 5)) evs)
      /\ (answers fetchPage ->
          UrlGuard.isBlockedUrl startUrl = false ->
          exists pages,
            fst (Crawler.crawlWebsite fetchPage startUrl options w)
            = Returns pages))
  /\ (forall (P : Platform) (B : Type) load
             (fetch : jsstring -> B -> outcome Response * B) clock,
         quiet (Crawler.fetchAndParsePage load fetch clock))
  /\ (forall (B : Type)
             (oracle : jsstring -> B -> outcome (option CrawledPage) * B),
         quiet (fun url => call (EvFetch url) (oracle url)))
  /\ Site.urls (Site.crawl 1) = Some [Site.A; Site.B; Site.C]
  /\ Site.urls (Site.crawl 0) = Some [Site.A].
Proof.
  split; [|split; [|split; [|split; vm_compute; reflexivity]]].
  2:{ intros P B load fetch clock. apply fetchAndParsePage_quiet. }
  2:{ intros B oracle. apply call_quiet. }
  intros P B fetchPage startUrl options w Hq.
  unfold Crawler.crawlWebsite.
  destruct (UrlGuard.isBlockedUrl startUrl) eqn:Eblocked.
  { unfold throw. cbn [fst snd]. split; [discriminate|].
    split; [|discriminate].
    exists []. split; [now rewrite app_nil_r|constructor]. }
  destruct (URL_new startUrl None) as [u|] eqn:Eparse.
  2:{ unfold UrlGuard.isBlockedUrl in Eblocked. rewrite Eparse in Eblocked.
      discriminate. }
  destruct (crawl_loop_bounded fetchPage
              (Z.min (maxDepth options) Crawler.MAX_DEPTH_LIMIT)
              (default [hostname u] (allowedDomains options))
              (default Crawler.DEFAULT_MAX_PAGES (maxPages options))
              Hq [(startUrl, 0)] [] [] w) as (Hext & Hlen & Hret).
  split; [exact Hlen|]. split; [exact Hext|]. auto.
Qed.

(** The bounds on the site, with the fetcher of the repository. *)
Lemma C3_crawlWebsite_bounds_witness :
  exists pages,
    fst (Site.crawl 1) = Returns pages
    /\ (length pages <= 100)%nat
    /\ List.map page_url pages = [Site.A; Site.B; Site.C].
Proof.
  destruct C3_crawlWebsite_bounds as (Hbounds & Hquiet & _).
  destruct (Hbounds Simple.platform unit
              (@Crawler.fetchAndParsePage Simple.platform unit
                 Site.load Site.fetch (fun _ => 0))
              Site.A
              {| maxDepth := 1; maxPages := None; allowedDomains := None |}
              Site.world (Hquiet _ _ _ _ _))
    as (Hlen & _ & _).
  eexists. split; [vm_compute; reflexivity|].
  split; [|vm_compute; reflexivity].
  apply Hlen. vm_compute. reflexivity.
Defined.

(** ** C7 and C8: what the tools return *)

Section ToolFacts.
Context `{Platform} {B : Type}.
Variable ensureModelAvailable : M B bool.
Variable crawlWebsite : jsstring -> CrawlOptions -> M B (list CrawledPage).
Variable addChunks : list Chunk -> M B nat.
Variable searchSimilar : jsstring -> SearchOptions -> M B (list SearchResult).
Variable listSources : M B (list SourceInfo).
Variable deleteByUrl : jsstring -> M B nat.
Import Tools.

Lemma try_catch_noThrow {A} (good : A -> Prop) (m : M B A) handler w :
  (forall a w', m w = (Returns a, w') -> good a) ->
  (forall e w', noThrow good (fst (handler e w'))) ->
  noThrow good (fst (try_catch m handler w)).
Proof.
  intros Hm Hh. unfold try_catch.
  destruct (m w) as [[a|e|] w'] eqn:E; cbn [fst noThrow].
  - eapply Hm. reflexivity.
  - apply Hh.
  - exact I.
Qed.

Lemma crawlFailure_wellFormed url message :
  wellFormedCrawl url (crawlFailure url message).
Proof. split; [reflexivity|]. simpl. eauto. Qed.

Lemma deleteFailure_wellFormed url message :
  wellFormedDelete url (deleteFailure url message).
Proof. split; [reflexivity|]. simpl. eauto. Qed.

Lemma crawlAndIndex_noThrow input w :
  noThrow (wellFormedCrawl (crawl_url input))
    (fst (crawlAndIndex ensureModelAvailable crawlWebsite addChunks input w)).
Proof.
  unfold crawlAndIndex.
  destruct (invalidDepth (crawl_max_depth input)).
  { apply crawlFailure_wellFormed. }
  apply try_catch_noThrow.
  2:{ intros e w'. apply crawlFailure_wellFormed. }
  intros r w' E.
  destruct (URL_new (crawl_url input) None) as [parsedUrl|]; [|discriminate].
  destruct (negb (includes _ (protocol parsedUrl))).
  { injection E as <- _. apply crawlFailure_wellFormed. }
  unfold bind at 1 in E.
  destruct (ensureModelAvailable w) as [[modelReady|e|] w1]; try discriminate.
  destruct (negb modelReady).
  { injection E as <- _. apply crawlFailure_wellFormed. }
  unfold bind at 1 in E.
  destruct (crawlWebsite _ _ w1) as [[pages|e|] w2]; try discriminate.
  destruct (length pages =? 0)%nat.
  { injection E as <- _. apply crawlFailure_wellFormed. }
  destruct (Chunker.chunkPages pages None) as [chunks|]; [|discriminate].
  unfold bind at 1 in E.
  destruct (addChunks chunks w2) as [[addedCount|e|] w3]; try discriminate.
  injection E as <- _. split; reflexivity.
Qed.

Lemma deleteSource_noThrow input w :
  noThrow (wellFormedDelete (delete_url input))
    (fst (deleteSource deleteByUrl input w)).
Proof.
  unfold deleteSource.
  apply try_catch_noThrow.
  2:{ intros e w'. apply deleteFailure_wellFormed. }
  intros r w' E.
  destruct (URL_new (delete_url input) None) as [parsedUrl|]; [|discriminate].
  unfold bind at 1 in E.
  destruct (deleteByUrl _ w) as [[deletedCount|e|] w1]; try discriminate.
  destruct (deletedCount =? 0)%nat eqn:E0.
  { injection E as <- _. apply deleteFailure_wellFormed. }
  injection E as <- _. split; [reflexivity|]. simpl.
  apply Nat.eqb_neq in E0. auto.
Qed.

Lemma handleCallTool_noThrow request w :
  noThrow wellFormedResponse
    (fst (handleCallTool ensureModelAvailable crawlWebsite addChunks
            searchSimilar listSources deleteByUrl request w)).
Proof.
  unfold handleCallTool. apply try_catch_noThrow.
  2:{ intros e w'. reflexivity. }
  intros r w' E. destruct request; unfold bind in E.
  - destruct (crawlAndIndex _ _ _ _ w) as [[x|e|] w1]; try discriminate.
    injection E as <- _. reflexivity.
  - destruct (searchDocs _ _ w) as [[x|e|] w1]; try discriminate.
    injection E as <- _. reflexivity.
  - destruct (listIndexedSources _ w) as [[x|e|] w1]; try discriminate.
    injection E as <- _. reflexivity.
  - destruct (deleteSource _ _ w) as [[x|e|] w1]; try discriminate.
    injection E as <- _. reflexivity.
  - injection E as <- _. reflexivity.
Qed.

Lemma searchDocs_outcome input w :
  if (MAX_QUERY_LENGTH <? len (trimmedQuery input))
     || negb (truthy (trimmedQuery input))
  then exists r, searchDocs searchSimilar input w = (Returns r, w)
                 /\ search_results r = [] /\ search_totalResults r = 0%nat
  else match searchCall searchSimilar input w with
       | (Returns results, w') =>
           searchDocs searchSimilar input w
           = (Returns {| search_results := results;
                         search_result_query := trimmedQuery input;
                         search_totalResults := length results;
                         search_error := None |}, w')
       | (Throws e, w') => searchDocs searchSimilar input w = (Throws e, w')
       | (Diverges, w') => searchDocs searchSimilar input w = (Diverges, w')
       end.
Proof.
  unfold searchDocs, searchCall. fold (trimmedQuery input).
  destruct (MAX_QUERY_LENGTH <? len (trimmedQuery input)); cbn [orb].
  { eexists. split; [reflexivity|]. split; reflexivity. }
  destruct (negb (truthy (trimmedQuery input))).
  { eexists. split; [reflexivity|]. split; reflexivity. }
  unfold bind.
  destruct (searchSimilar _ _ w) as [[results|e|] w']; reflexivity.
Qed.

Lemma crawlAndIndex_catches input parsedUrl e w w' :
  invalidDepth (crawl_max_depth input) = false ->
  URL_new (crawl_url input) None = Some parsedUrl ->
  includes [str "http:"; str "https:"] (protocol parsedUrl) = true ->
  crawlServiceThrows ensureModelAvailable crawlWebsite addChunks input w e w' ->
  crawlAndIndex ensureModelAvailable crawlWebsite addChunks input w
  = (Returns (crawlFailure (crawl_url input) (errorMessage e)), w').
Proof.
  intros Hdepth Hparse Hproto Hthrows.
  unfold crawlAndIndex, try_catch.
  rewrite Hdepth, Hparse, Hproto. cbn [negb]. cbv beta iota.
  destruct Hthrows as [Hmodel|w1 Hmodel Hcrawl
                       |w1 w2 pages chunks Hmodel Hcrawl Hpages Hchunks Hadd].
  - unfold bind at 1. rewrite Hmodel. reflexivity.
  - unfold bind at 1. rewrite Hmodel. cbn [negb]. cbv beta iota.
    unfold crawlCall in Hcrawl. unfold bind at 1. rewrite Hcrawl. reflexivity.
  - unfold bind at 1. rewrite Hmodel. cbn [negb]. cbv beta iota.
    unfold crawlCall in Hcrawl. unfold bind at 1. rewrite Hcrawl.
    destruct pages as [|page pages]; [congruence|].
    cbn [length Nat.eqb]. cbv beta iota. rewrite Hchunks.
    unfold bind at 1. rewrite Hadd. reflexivity.
Qed.

Lemma deleteSource_catches input parsedUrl e w w' :
  URL_new (delete_url input) None = Some parsedUrl ->
  deleteByUrl (delete_url input) w = (Throws e, w') ->
  deleteSource deleteByUrl input w
  = (Returns (deleteFailure (delete_url input) (errorMessage e)), w').
Proof.
  intros Hparse Hdelete. unfold deleteSource, try_catch.
  rewrite Hparse. cbv beta iota. unfold bind at 1. rewrite Hdelete.
  reflexivity.
Qed.

Lemma searchDocs_asks input w :
  (MAX_QUERY_LENGTH <? len (trimmedQuery input)) = false ->
  trimmedQuery input <> [] ->
  searchDocs searchSimilar input w
  = match searchCall searchSimilar input w with
    | (Returns results, w') =>
        (Returns {| search_results := results;
                    search_result_query := trimmedQuery input;
                    search_totalResults := length results;
                    search_error := None |}, w')
    | (Throws e, w') => (Throws e, w')
    | (Diverges, w') => (Diverges, w')
    end.
Proof.
  intros Hlong Hquery. unfold searchDocs, searchCall.
  fold (trimmedQuery input). rewrite Hlong.
  destruct (trimmedQuery input) as [|c rest] eqn:Eq; [congruence|].
  cbn [truthy negb]. unfold bind.
  destruct (searchSimilar _ _ w) as [[results|e|] w']; reflexivity.
Qed.

Lemma handleCallTool_answers request w :
  handleCallTool ensureModelAvailable crawlWebsite addChunks searchSimilar
    listSources deleteByUrl request w
  = match request with
    | CallCrawlAndIndex input =>
        answerOf JsonCrawl
          (crawlAndIndex ensureModelAvailable crawlWebsite addChunks input w)
    | CallSearchDocs input =>
        answerOf JsonSearch (searchDocs searchSimilar input w)
    | CallListSources =>
        answerOf JsonList (listIndexedSources listSources w)
    | CallDeleteSource input =>
        answerOf JsonDelete (deleteSource deleteByUrl input w)
    | CallOther name =>
        (Returns {| content := Text (str "Unknown tool: " ++ name);
                    isError := true |}, w)
    end.
Proof.
  unfold handleCallTool, try_catch, answerOf. destruct request; unfold bind.
  - now destruct (crawlAndIndex _ _ _ _ w) as [[x|e|] w1].
  - now destruct (searchDocs _ _ w) as [[x|e|] w1].
  - now destruct (listIndexedSources _ w) as [[x|e|] w1].
  - now destruct (deleteSource _ _ w) as [[x|e|] w1].
  - reflexivity.
Qed.

(** C7, as the code has it, for the inputs of the tools' types and whatever
    the services do.

    The crawl tool and the delete tool never throw: their outcome is a
    well-formed result, unless a service never answers. An exception of a
    service (the model check, the crawler or the store for the crawl tool,
    [deleteByUrl] for the delete tool) becomes the failure that carries the
    message of the exception, and a URL that does not parse the failure
    [Invalid URL].

    The search tool and the list tool have no handler of their own. For a
    query that is too long or empty the search tool returns its fixed
    result with the world as it was, whatever the search service is: the
    service is not called. Otherwise it returns the results of the service
    with their number when the service returns, and throws what the service
    throws. The list tool returns the sources of the catalog with their
    number, and throws what the catalog throws.

    The server's handler of tool calls never throws: a call is answered
    with the JSON of the tool's result and no error flag, or, when the tool
    throws, with [Error: ] and the message of the exception and the error
    flag; the call of an unknown tool with [Unknown tool: ] and its name. *)
Theorem C7_entry_points_and_exceptions
    (crawlInput : CrawlAndIndexInput) (searchInput : SearchDocsInput)
    (deleteInput : DeleteSourceInput) (request : ToolCall) (w : World B) :
  (* crawlAndIndex *)
  noThrow (wellFormedCrawl (crawl_url crawlInput))
    (fst (crawlAndIndex ensureModelAvailable crawlWebsite addChunks crawlInput w))
  /\ (forall parsedUrl e w',
         invalidDepth (crawl_max_depth crawlInput) = false ->
         URL_new (crawl_url crawlInput) None = Some parsedUrl ->
         includes [str "http:"; str "https:"] (protocol parsedUrl) = true ->
         crawlServiceThrows ensureModelAvailable crawlWebsite addChunks
           crawlInput w e w' ->
         crawlAndIndex ensureModelAvailable crawlWebsite addChunks crawlInput w
         = (Returns (crawlFailure (crawl_url crawlInput) (errorMessage e)), w'))
  /\ (invalidDepth (crawl_max_depth crawlInput) = false ->
      URL_new (crawl_url crawlInput) None = None ->
      crawlAndIndex ensureModelAvailable crawlWebsite addChunks crawlInput w
      = (Returns (crawlFailure (crawl_url crawlInput) (str "Invalid URL")), w))
  (* deleteSource *)
  /\ noThrow (wellFormedDelete (delete_url deleteInput))
       (fst (deleteSource deleteByUrl deleteInput w))
  /\ (forall parsedUrl e w',
         URL_new (delete_url deleteInput) None = Some parsedUrl ->
         deleteByUrl (delete_url deleteInput) w = (Throws e, w') ->
         deleteSource deleteByUrl deleteInput w
         = (Returns (deleteFailure (delete_url deleteInput) (errorMessage e)),
            w'))
  /\ (URL_new (delete_url deleteInput) None = None ->
      deleteSource deleteByUrl deleteInput w
      = (Returns (deleteFailure (delete_url deleteInput) (str "Invalid URL")),
         w))
  (* searchDocs *)
  /\ (forall r, fst (searchDocs searchSimilar searchInput w) = Returns r ->
                wellFormedSearch r)
  /\ ((MAX_QUERY_LENGTH <? len (trimmedQuery searchInput)) = true
      \/ trimmedQuery searchInput = [] ->
      forall service : jsstring -> SearchOptions -> M B (list SearchResult),
        searchDocs service searchInput w
        = (Returns (if MAX_QUERY_LENGTH <? len (trimmedQuery searchInput)
                    then queryTooLong (trimmedQuery searchInput)
                    else queryEmpty), w))
  /\ ((MAX_QUERY_LENGTH <? len (trimmedQuery searchInput)) = false ->
      trimmedQuery searchInput <> [] ->
      searchDocs searchSimilar searchInput w
      = match searchCall searchSimilar searchInput w with
        | (Returns results, w') =>
            (Returns {| search_results := results;
                        search_result_query := trimmedQuery searchInput;
                        search_totalResults := length results;
                        search_error := None |}, w')
        | (Throws e, w') => (Throws e, w')
        | (Diverges, w') => (Diverges, w')
        end)
  (* listIndexedSources *)
  /\ (forall r, fst (listIndexedSources listSources w) = Returns r ->
                wellFormedList r)
  /\ listIndexedSources listSources w
     = match listSources w with
       | (Returns sources, w') =>
           (Returns {| list_sources := sources;
                       list_totalSources := length sources |}, w')
       | (Throws e, w') => (Throws e, w')
       | (Diverges, w') => (Diverges, w')
       end
  (* the handler of tool calls *)
  /\ noThrow wellFormedResponse
       (fst (handleCallTool ensureModelAvailable crawlWebsite addChunks
               searchSimilar listSources deleteByUrl request w))
  /\ handleCallTool ensureModelAvailable crawlWebsite addChunks searchSimilar
       listSources deleteByUrl request w
     = match request with
       | CallCrawlAndIndex input =>
           answerOf JsonCrawl
             (crawlAndIndex ensureModelAvailable crawlWebsite addChunks input w)
       | CallSearchDocs input =>
           answerOf JsonSearch (searchDocs searchSimilar input w)
       | CallListSources =>
           answerOf JsonList (listIndexedSources listSources w)
       | CallDeleteSource input =>
           answerOf JsonDelete (deleteSource deleteByUrl input w)
       | CallOther name =>
           (Returns {| content := Text (str "Unknown tool: " ++ name);
                       isError := true |}, w)
       end.
Proof.
  split; [apply crawlAndIndex_noThrow|].
  split; [intros parsedUrl e w'; apply crawlAndIndex_catches|].
  split.
  { intros Hdepth Hparse. unfold crawlAndIndex, try_catch.
    rewrite Hdepth, Hparse. reflexivity. }
  split; [apply deleteSource_noThrow|].
  split; [intros parsedUrl e w'; apply deleteSource_catches|].
  split.
  { intros Hparse. unfold deleteSource, try_catch. rewrite Hparse.
    reflexivity. }
  split.
  { intros r E. pose proof (searchDocs_outcome searchInput w) as Hs.
    destruct (_ || _).
    - destruct Hs as (r' & E' & Hr & Hn). rewrite E' in E.
      injection E as <-. unfold wellFormedSearch. now rewrite Hr, Hn.
    - destruct (searchCall searchSimilar searchInput w) as [[results|e|] w'];
        rewrite Hs in E; try discriminate.
      injection E as <-. reflexivity. }
  split.
  { intros Hearly service. unfold searchDocs. fold (trimmedQuery searchInput).
    destruct (MAX_QUERY_LENGTH <? len (trimmedQuery searchInput)) eqn:Elong;
      [reflexivity|].
    destruct Hearly as [Hlong|Hempty]; [discriminate|].
    rewrite Hempty. reflexivity. }
  split; [apply searchDocs_asks|].
  split.
  { unfold listIndexedSources, bind. intros r E.
    destruct (listSources w) as [[sources|e|] w']; try discriminate.
    injection E as <-. reflexivity. }
  split.
  { unfold listIndexedSources, bind.
    now destruct (listSources w) as [[sources|e|] w']. }
  split; [apply handleCallTool_noThrow|apply handleCallTool_answers].
Qed.

(** C8, as the code has it. A crawl that finds no page and a delete that
    removes nothing are failures with a message; a search for an empty
    query is an empty result without an error. None of them throws. *)
Theorem C8_empty_results :
  (forall input parsedUrl w w1 w2,
      invalidDepth (crawl_max_depth input) = false ->
      URL_new (crawl_url input) None = Some parsedUrl ->
      includes [str "http:"; str "https:"] (protocol parsedUrl) = true ->
      ensureModelAvailable w = (Returns true, w1) ->
      crawlWebsite (crawl_url input)
        {| maxDepth := match crawl_max_depth input with
                       | Some (Integer z) => z
                       | _ => 2
                       end;
           maxPages := None; allowedDomains := None |} w1
      = (Returns [], w2) ->
      crawlAndIndex ensureModelAvailable crawlWebsite addChunks input w
      = (Returns {| crawl_success := false; crawl_pagesIndexed := 0;
                    crawl_chunksCreated := 0;
                    crawl_result_url := crawl_url input;
                    crawl_error := Some (str "No pages found to index") |}, w2))
  /\ (forall input parsedUrl w w1,
         URL_new (delete_url input) None = Some parsedUrl ->
         deleteByUrl (delete_url input) w = (Returns 0%nat, w1) ->
         deleteSource deleteByUrl input w
         = (Returns {| delete_success := false; delete_deletedChunks := 0;
                       delete_result_url := delete_url input;
                       delete_error :=
                         Some (str "No documents found matching this URL") |},
            w1))
  /\ (forall input w,
         trimmedQuery input = [] ->
         searchDocs searchSimilar input w
         = (Returns {| search_results := []; search_result_query := [];
                       search_totalResults := 0; search_error := None |}, w)).
Proof.
  split; [|split].
  - intros input parsedUrl w w1 w2 Hdepth Hparse Hproto Hready Hcrawl.
    unfold crawlAndIndex, try_catch.
    rewrite Hdepth, Hparse, Hproto. cbn [negb]. cbv beta iota.
    unfold bind at 1. rewrite Hready. cbn [negb]. cbv beta iota.
    unfold bind at 1. rewrite Hcrawl. reflexivity.
  - intros input parsedUrl w w1 Hparse Hdelete.
    unfold deleteSource, try_catch.
    rewrite Hparse. cbv beta iota.
    unfold bind at 1. rewrite Hdelete. reflexivity.
  - intros input w Hq. unfold searchDocs. fold (trimmedQuery input).
    now rewrite Hq.
Qed.
End ToolFacts.

(** The specification has every entry point return a result whatever the backends
    do. With Chroma down the list tool throws, and with the embedding
    service failing the search tool throws. *)
Lemma C7_list_and_search_throw :
  fst (Tools.listIndexedSources
         (@VectorStore.listSources Simple.platform _
            chromaDown IdealStore.col_get 1)
         (IdealStore.world []))
  = Throws (ErrorObject (str "Failed to connect to chromadb"))
  /\ fst (Tools.searchDocs embedderDown (askFor "how to install") Site.world)
     = Throws (ErrorObject
                 (str "Failed to generate embedding. Please try again later.")).
Proof. split; vm_compute; reflexivity. Qed.

(** The specification has an empty query reported with [success: false] and an
    error. The result of the search tool has no [success] field, and for a
    query of blanks it has no error either. *)
Lemma C8_empty_query_has_no_error :
  exists r,
    Tools.searchDocs embedderDown (askFor "   ") Site.world
    = (Returns r, Site.world)
    /\ search_results r = [] /\ search_error r = None.
Proof. eexists. split; [vm_compute; reflexivity|]. split; reflexivity. Qed.

(** A crawl of a page that is not there, with the crawler of the repository
    on the site of three pages; a delete on an empty collection, with the
    catalog of the repository; a search for blanks. *)
Lemma C8_empty_results_witness :
  @Tools.crawlAndIndex Simple.platform unit (ret true)
    (@Crawler.crawlWebsite Simple.platform unit
       (@Crawler.fetchAndParsePage Simple.platform unit
          Site.load Site.fetch (fun _ => 0)))
    (fun chunks => ret (length chunks))
    {| crawl_url := str "https://docs.example.com/missing";
       crawl_max_depth := Some (Integer 1) |} Site.world
  = (Returns {| crawl_success := false; crawl_pagesIndexed := 0;
                crawl_chunksCreated := 0;
                crawl_result_url := str "https://docs.example.com/missing";
                crawl_error := Some (str "No pages found to index") |},
     {| backend := tt;
        trace := [EvVisit (str "https://docs.example.com/missing") 0;
                  EvFetch (str "https://docs.example.com/missing")];
        connected := false |})
  /\ fst (@Tools.deleteSource Simple.platform _
            (@VectorStore.deleteByUrl Simple.platform _
               IdealStore.connect IdealStore.col_get IdealStore.col_delete 1)
            {| delete_url := str "https://docs.example.com/" |}
            (IdealStore.world []))
     = Returns {| delete_success := false; delete_deletedChunks := 0;
                  delete_result_url := str "https://docs.example.com/";
                  delete_error :=
                    Some (str "No documents found matching this URL") |}
  /\ Tools.searchDocs embedderDown (askFor "   ") Site.world
     = (Returns {| search_results := []; search_result_query := [];
                   search_totalResults := 0; search_error := None |},
        Site.world).
Proof.
  split; [|split].
  - destruct (@C8_empty_results Simple.platform unit (ret true)
                (@Crawler.crawlWebsite Simple.platform unit
                   (@Crawler.fetchAndParsePage Simple.platform unit
                      Site.load Site.fetch (fun _ => 0)))
                (fun chunks => ret (length chunks))
                embedderDown (fun _ => ret 0%nat)) as (Hcrawl & _ & _).
    eapply Hcrawl.
    + reflexivity.
    + vm_compute. reflexivity.
    + vm_compute. reflexivity.
    + reflexivity.
    + vm_compute. reflexivity.
  - destruct (@C8_empty_results Simple.platform IdealStore.store (ret true)
                (fun _ _ => ret []) (fun chunks => ret (length chunks))
                embedderDown
                (@VectorStore.deleteByUrl Simple.platform _
                   IdealStore.connect IdealStore.col_get IdealStore.col_delete 1))
      as (_ & Hdelete & _).
    erewrite Hdelete; [reflexivity| |].
    + vm_compute. reflexivity.
    + vm_compute. reflexivity.
  - destruct (@C8_empty_results Simple.platform unit (ret true)
                (fun _ _ => ret []) (fun chunks => ret (length chunks))
                embedderDown (fun _ => ret 0%nat)) as (_ & _ & Hsearch).
    apply Hsearch. vm_compute. reflexivity.
Defined.

(** A crawler that throws makes the crawl tool return the failure with the
    crawler's message; with Chroma down, a call of the list tool through the
    server's handler is answered with the error as text. *)
Lemma C7_entry_points_and_exceptions_witness :
  @Tools.crawlAndIndex Simple.platform IdealStore.store (ret true)
    (fun _ _ => throw (ErrorObject (str "socket hang up")))
    (fun chunks => ret (length chunks))
    {| crawl_url := str "https://docs.example.com/"; crawl_max_depth := None |}
    (IdealStore.world [])
  = (Returns (Tools.crawlFailure (str "https://docs.example.com/")
                (str "socket hang up")),
     IdealStore.world [])
  /\ fst (@Tools.handleCallTool Simple.platform IdealStore.store
            (ret true)
            (fun _ _ => throw (ErrorObject (str "socket hang up")))
            (fun chunks => ret (length chunks))
            embedderDown
            (@VectorStore.listSources Simple.platform _
               chromaDown IdealStore.col_get 1)
            (@VectorStore.deleteByUrl Simple.platform _
               chromaDown IdealStore.col_get IdealStore.col_delete 1)
            Tools.CallListSources (IdealStore.world []))
     = Returns {| Tools.content :=
                    Tools.Text (str "Error: Failed to connect to chromadb");
                  Tools.isError := true |}.
Proof.
  destruct (@C7_entry_points_and_exceptions Simple.platform IdealStore.store
              (ret true)
              (fun _ _ => throw (ErrorObject (str "socket hang up")))
              (fun chunks => ret (length chunks))
              embedderDown
              (@VectorStore.listSources Simple.platform _
                 chromaDown IdealStore.col_get 1)
              (@VectorStore.deleteByUrl Simple.platform _
                 chromaDown IdealStore.col_get IdealStore.col_delete 1)
              {| crawl_url := str "https://docs.example.com/";
                 crawl_max_depth := None |}
              (askFor "x") {| delete_url := [] |}
              Tools.CallListSources (IdealStore.world []))
    as (_ & Hcatch & _ & _ & _ & _ & _ & _ & _ & _ & Hlist & _ & Hanswers).
  split.
  - eapply Hcatch with (e := ErrorObject (str "socket hang up")).
    + reflexivity.
    + vm_compute. reflexivity.
    + vm_compute. reflexivity.
    + apply CrawlerThrows with (w1 := IdealStore.world []); reflexivity.
  - rewrite Hanswers, Hlist. vm_compute. reflexivity.
Defined.

(** * Further properties of the code *)

(** ** The decimal text of an index (chunker.ts, [generateChunkId]) *)

Lemma size_nat_gt (m : N) : (m < 2 ^ N.of_nat (N.size_nat m))%N.
Proof.
  destruct m as [|p]; [reflexivity|]. cbn [N.size_nat].
  induction p as [p IH|p IH|]; cbn [Pos.size_nat];
    rewrite ?Nat2N.inj_succ, ?N.pow_succ_r'; lia.
Qed.

Lemma digitValue_digitChar (d : N) : (d < 36)%N -> digitValue (digitChar d) = d.
Proof.
  intros Hd. unfold digitValue, digitChar.
  destruct (d <? 10)%N eqn:E.
  - apply N.ltb_lt in E.
    destruct (48 + d <? 58)%N eqn:E'; [lia|apply N.ltb_ge in E'; lia].
  - apply N.ltb_ge in E.
    destruct (87 + d <? 58)%N eqn:E'; [apply N.ltb_lt in E'; lia|lia].
Qed.

Lemma digits_rev_value (fuel : nat) (radix n : N) :
  (2 <= radix <= 36)%N -> (n < 2 ^ N.of_nat fuel)%N ->
  valueOfDigits radix (digits_rev fuel radix n) = n.
Proof.
  intros Hr. revert n. induction fuel as [|fuel IH]; intros n Hn.
  - simpl in *. lia.
  - cbn [digits_rev]. destruct (n =? 0)%N eqn:E.
    + apply N.eqb_eq in E. now subst.
    + cbn [valueOfDigits]. rewrite IH, digitValue_digitChar.
      * rewrite N.add_comm. symmetry. apply N.div_mod'.
      * pose proof (N.mod_upper_bound n radix). lia.
      * rewrite Nat2N.inj_succ, N.pow_succ_r' in Hn.
        apply N.Div0.div_lt_upper_bound. nia.
Qed.

Lemma numToString_value (n : nat) :
  valueOfDigits 10 (rev (numToString n)) = N.of_nat n.
Proof.
  unfold numToString, toStringRadix.
  rewrite <- nat_N_Z, N2Z.id.
  destruct (N.of_nat n =? 0)%N eqn:E.
  - apply N.eqb_eq in E. now rewrite E.
  - rewrite rev_involutive. apply digits_rev_value; [lia|apply size_nat_gt].
Qed.

Lemma numToString_inj (i j : nat) : numToString i = numToString j -> i = j.
Proof.
  intros E. apply Nat2N.inj. rewrite <- !numToString_value. now rewrite E.
Qed.

Lemma generateChunkId_inj (url : jsstring) (i j : nat) :
  Chunker.generateChunkId url i = Chunker.generateChunkId url j -> i = j.
Proof.
  unfold Chunker.generateChunkId. intros E.
  apply app_inv_head, app_inv_head in E. now apply numToString_inj.
Qed.

Section ChunkNumbering.
Context `{Platform}.
Import Chunker.

Lemma chunksFrom_length page total i texts :
  length (chunksFrom page total i texts) = length texts.
Proof.
  revert i. induction texts as [|t ts IH]; intros i; simpl; [reflexivity|].
  now rewrite IH.
Qed.

Lemma chunksFrom_index page total i texts :
  List.map (fun c => meta_chunkIndex (chunk_metadata c))
    (chunksFrom page total i texts) = seq i (length texts).
Proof.
  revert i. induction texts as [|t ts IH]; intros i; simpl; [reflexivity|].
  now rewrite IH.
Qed.

Lemma chunksFrom_ids page total i texts :
  List.map chunk_id (chunksFrom page total i texts)
  = List.map (generateChunkId (page_url page)) (seq i (length texts)).
Proof.
  revert i. induction texts as [|t ts IH]; intros i; simpl; [reflexivity|].
  now rewrite IH.
Qed.

Lemma chunksFrom_meta page total i texts :
  Forall (fun c => meta_totalChunks (chunk_metadata c) = total
                   /\ meta_url (chunk_metadata c) = page_url page
                   /\ meta_title (chunk_metadata c) = page_title page)
    (chunksFrom page total i texts).
Proof.
  revert i. induction texts as [|t ts IH]; intros i; simpl; constructor; auto.
Qed.

(** X1. The chunks that [chunkPages] returns are, page by page in the order
    of the pages, groups of chunks: in the group of a page the k-th chunk
    has [chunkIndex] k, every chunk has the number of chunks of the group as
    [totalChunks] and the url and title of the page, and no two chunks of
    the group have the same id. *)
Theorem chunkPages_numbering pages options chunks :
  chunkPages pages options = Some chunks ->
  exists groups,
    chunks = concat groups
    /\ Forall2
         (fun page group =>
            List.map (fun c => meta_chunkIndex (chunk_metadata c)) group
            = seq 0 (length group)
            /\ Forall (fun c => meta_totalChunks (chunk_metadata c) = length group
                                /\ meta_url (chunk_metadata c) = page_url page
                                /\ meta_title (chunk_metadata c) = page_title page)
                 group
            /\ List.NoDup (List.map chunk_id group))
         pages groups.
Proof.
  unfold chunkPages. intros E.
  apply pages_loop_spec in E as (pieces & HP & ->). cbn [app].
  eexists. split; [reflexivity|].
  induction HP as [|page texts pages pieces _ HP IH]; [constructor|].
  cbn [combine List.map]. constructor; [|exact IH].
  cbn [fst snd]. rewrite chunksFrom_length. split; [|split].
  - apply chunksFrom_index.
  - apply chunksFrom_meta.
  - rewrite chunksFrom_ids. apply Finite.Injective_map_NoDup.
    + intros i j. apply generateChunkId_inj.
    + apply List.seq_NoDup.
Qed.
End ChunkNumbering.

Lemma chunkPages_numbering_witness :
  exists chunks groups,
    @Chunker.chunkPages Simple.platform [pageFirstCrawl; pageSecondCrawl] None
    = Some chunks
    /\ chunks = concat groups /\ length groups = 2%nat.
Proof.
  destruct (@Chunker.chunkPages Simple.platform [pageFirstCrawl; pageSecondCrawl] None)
    as [chunks|] eqn:E; [|vm_compute in E; discriminate].
  destruct (@chunkPages_numbering Simple.platform _ None chunks E)
    as (groups & Hc & HF).
  exists chunks, groups. split; [reflexivity|]. split; [exact Hc|].
  apply Forall2_length in HF. now rewrite <- HF.
Defined.

(** ** Sorting (chunker.ts, vectorstore.ts: [sort]) *)

Section SortFacts.
Context {A : Type} (after : A -> A -> bool).

Lemma insert_sorted_perm (x : A) (l : list A) :
  Permutation (insert_sorted after x l) (x :: l).
Proof.
  induction l as [|y l IH]; simpl; [reflexivity|].
  destruct (after x y); [|reflexivity].
  rewrite IH. apply perm_swap.
Qed.

Lemma stable_sort_perm (l : list A) : Permutation (stable_sort after l) l.
Proof.
  induction l as [|x l IH]; simpl; [reflexivity|].
  rewrite insert_sorted_perm. now constructor.
Qed.

(** Sorting by a numeric key with [(a, b) => key(b) - key(a)]: the larger
    key first. *)
Variable key : A -> Z.
Hypothesis after_key : forall a b, after a b = (0 <? key b - key a).

Lemma insert_sorted_descending (x : A) (l : list A) :
  StronglySorted (fun a b => key b <= key a) l ->
  StronglySorted (fun a b => key b <= key a) (insert_sorted after x l).
Proof.
  induction 1 as [|y l Hs IH Hy]; simpl.
  - constructor; constructor.
  - rewrite after_key. destruct (0 <? key y - key x) eqn:E.
    + apply Z.ltb_lt in E. constructor; [exact IH|].
      apply List.Forall_forall. intros z Hz.
      apply (Permutation_in _ (insert_sorted_perm x l)) in Hz.
      destruct Hz as [<-|Hz]; [lia|].
      rewrite List.Forall_forall in Hy. now apply Hy.
    + apply Z.ltb_ge in E. constructor; [now constructor|].
      constructor; [lia|].
      apply List.Forall_forall. intros z Hz.
      rewrite List.Forall_forall in Hy. specialize (Hy z Hz). lia.
Qed.

Lemma stable_sort_descending (l : list A) :
  StronglySorted (fun a b => key b <= key a) (stable_sort after l).
Proof.
  induction l as [|x l IH]; simpl; [constructor|].
  now apply insert_sorted_descending.
Qed.
End SortFacts.

Lemma StronglySorted_app_parts {A} (R : A -> A -> Prop) (l1 l2 : list A) :
  StronglySorted R (l1 ++ l2) ->
  StronglySorted R l1
  /\ forall a b, In a l1 -> In b l2 -> R a b.
Proof.
  induction l1 as [|x l1 IH]; simpl; intros Hs.
  - split; [constructor|]. intros a b [].
  - inversion Hs as [|? ? Hs' Hx]; subst.
    destruct (IH Hs') as [H1 H2]. split.
    + constructor; [exact H1|].
      rewrite List.Forall_forall in Hx |- *. intros z Hz. apply Hx.
      apply in_or_app. now left.
    + intros a b [<-|Ha] Hb.
      * rewrite List.Forall_forall in Hx. apply Hx, in_or_app. now right.
      * now apply H2.
Qed.

Lemma StronglySorted_map {A C} (R : C -> C -> Prop) (f : A -> C) (l : list A) :
  StronglySorted (fun a b => R (f a) (f b)) l ->
  StronglySorted R (List.map f l).
Proof.
  induction 1 as [|x l Hs IH Hx]; simpl; constructor; [exact IH|].
  apply List.Forall_forall. intros c [a [<- Ha]]%in_map_iff.
  rewrite List.Forall_forall in Hx. now apply Hx.
Qed.

Lemma StronglySorted_impl_In {A} (R R' : A -> A -> Prop) (l : list A) :
  (forall a b, In a l -> In b l -> R a b -> R' a b) ->
  StronglySorted R l -> StronglySorted R' l.
Proof.
  intros Himpl Hs. induction Hs as [|x l Hs IH Hx]; constructor.
  - apply IH. intros a b Ha Hb. apply Himpl; now right.
  - rewrite List.Forall_forall in Hx |- *. intros z Hz.
    apply Himpl; [now left|now right|now apply Hx].
Qed.

(** ** Keywords (chunker.ts, [extractKeywords]) *)

Section KeywordFacts.
Context `{Platform}.
Import Chunker.

Lemma span_length_le (p : N -> bool) (s : jsstring) :
  (span_length p s <= length s)%nat.
Proof.
  induction s as [|c s IH]; simpl; [lia|]. destruct (p c); simpl; lia.
Qed.

Lemma firstn_span_forallb (p : N -> bool) (s : jsstring) :
  forallb p (firstn (span_length p s) s) = true.
Proof.
  induction s as [|c s IH]; simpl; [reflexivity|].
  destruct (p c) eqn:E; simpl; [|reflexivity]. now rewrite E, IH.
Qed.

Lemma re_word3_shape (prev : bool) (s w : jsstring) :
  re_word3 prev s = Some w ->
  (3 <= length w)%nat /\ forallb isLowerAZ w = true.
Proof.
  unfold re_word3. destruct prev; [discriminate|].
  destruct (_ && _) eqn:E; [|discriminate]. intros [= <-].
  apply andb_true_iff in E as [E _]. apply Nat.leb_le in E.
  split; [|apply firstn_span_forallb].
  rewrite length_firstn. pose proof (span_length_le isLowerAZ s). lia.
Qed.

Lemma match_words_loop_shape (skip : nat) (prev : bool) (s : jsstring) :
  Forall (fun w => (3 <= length w)%nat /\ forallb isLowerAZ w = true)
    (match_words_loop skip prev s).
Proof.
  revert skip prev. induction s as [|c s IH]; intros skip prev; simpl.
  - constructor.
  - destruct skip as [|k]; [|apply IH].
    destruct (re_word3 prev (c :: s)) as [w|] eqn:E; [|apply IH].
    constructor; [|apply IH]. exact (re_word3_shape _ _ _ E).
Qed.

Lemma count_word_present (w : jsstring) (c : jsstring -> Z) (keys : list jsstring) :
  List.NoDup keys -> In w keys ->
  count_word w (List.map (fun k => (k, c k)) keys)
  = List.map (fun k => (k, if str_eqb k w then c k + 1 else c k)) keys.
Proof.
  induction 1 as [|k keys Hk Hnd IH]; intros Hw; [destruct Hw|].
  simpl. destruct (str_eqb k w) eqn:E.
  - apply str_eqb_eq in E. subst k. f_equal.
    apply map_ext_in. intros k' Hk'.
    destruct (str_eqb k' w) eqn:E'; [|reflexivity].
    apply str_eqb_eq in E'. now subst.
  - f_equal. apply IH. destruct Hw as [->|Hw]; [|exact Hw].
    now rewrite str_eqb_refl in E.
Qed.

Lemma count_word_absent (w : jsstring) (c : jsstring -> Z) (keys : list jsstring) :
  ~ In w keys ->
  count_word w (List.map (fun k => (k, c k)) keys)
  = List.map (fun k => (k, c k)) keys ++ [(w, 0 + 1)].
Proof.
  induction keys as [|k keys IH]; intros Hw; simpl; [reflexivity|].
  destruct (str_eqb k w) eqn:E.
  - apply str_eqb_eq in E. subst. exfalso. apply Hw. now left.
  - f_equal. apply IH. intros Hin. apply Hw. now right.
Qed.

Lemma occurrences_snoc (k w : jsstring) (l : list jsstring) :
  occurrences k (l ++ [w])
  = occurrences k l + (if str_eqb k w then 1 else 0).
Proof.
  unfold occurrences, len. rewrite List.filter_app, length_app. simpl.
  destruct (str_eqb k w); simpl; lia.
Qed.

Lemma occurrences_absent (k : jsstring) (l : list jsstring) :
  ~ In k l -> occurrences k l = 0.
Proof.
  intros Hk. unfold occurrences, len.
  induction l as [|x l IH]; simpl; [reflexivity|].
  destruct (str_eqb k x) eqn:E.
  - apply str_eqb_eq in E. subst. exfalso. apply Hk. now left.
  - apply IH. intros Hin. apply Hk. now right.
Qed.

Lemma count_fold (l : list jsstring) :
  fold_left (fun wordCount word => count_word word wordCount) l []
  = List.map (fun k => (k, occurrences k l)) (dedup l).
Proof.
  induction l as [|w l IH] using rev_ind; [reflexivity|].
  rewrite fold_left_app. cbn [fold_left]. rewrite IH, dedup_snoc.
  unfold Crawler.set_add. destruct (includes (dedup l) w) eqn:E.
  - apply includes_In in E.
    rewrite count_word_present by (apply dedup_NoDup || exact E).
    apply map_ext. intros k. rewrite occurrences_snoc.
    destruct (str_eqb k w); [reflexivity|]. now rewrite Z.add_0_r.
  - assert (~ In w (dedup l)) as Hw.
    { intros Hin. apply includes_In in Hin. congruence. }
    rewrite count_word_absent by exact Hw.
    rewrite List.map_app. cbn [List.map]. f_equal.
    + apply map_ext_in. intros k Hk. rewrite occurrences_snoc.
      destruct (str_eqb k w) eqn:E'; [|now rewrite Z.add_0_r].
      apply str_eqb_eq in E'. now subst.
    + rewrite occurrences_snoc, str_eqb_refl.
      rewrite occurrences_absent; [reflexivity|].
      intros Hin. apply Hw. now apply dedup_In.
Qed.

Lemma count_fold_significant (words : list jsstring) acc :
  fold_left
    (fun wordCount word =>
       if negb (includes stopWords word) then count_word word wordCount
       else wordCount)
    words acc
  = fold_left (fun wordCount word => count_word word wordCount)
      (significant words) acc.
Proof.
  revert acc. induction words as [|w words IH]; intros acc; [reflexivity|].
  unfold significant in *. cbn [fold_left List.filter].
  destruct (negb (includes stopWords w)); cbn [fold_left]; apply IH.
Qed.

Lemma occurrences_significant (k : jsstring) (words : list jsstring) :
  includes stopWords k = false ->
  occurrences k (significant words) = occurrences k words.
Proof.
  intros Hk. unfold occurrences, significant. f_equal.
  induction words as [|w words IH]; [reflexivity|]. cbn [List.filter].
  destruct (str_eqb k w) eqn:E.
  - apply str_eqb_eq in E. subst w. rewrite Hk. cbn [negb List.filter].
    rewrite str_eqb_refl. now rewrite IH.
  - destruct (negb (includes stopWords w)); cbn [List.filter];
      [rewrite E|]; exact IH.
Qed.

Lemma significant_In (w : jsstring) (words : list jsstring) :
  In w (significant words) <-> In w words /\ includes stopWords w = false.
Proof.
  unfold significant. rewrite filter_In, negb_true_iff. reflexivity.
Qed.

(** The keywords in closed form: the counted words with their counts,
    sorted by falling count, the first twenty. *)
Lemma extractKeywords_frequencies (text : jsstring) :
  extractKeywords text
  = List.map fst
      (firstn 20
         (stable_sort (fun a b => 0 <? snd b - snd a)
            (frequencies (lowerWords text)))).
Proof.
  unfold extractKeywords, frequencies, lowerWords.
  rewrite count_fold_significant, count_fold.
  do 3 f_equal. apply map_ext_in. intros k Hk.
  apply dedup_In, significant_In in Hk as [_ Hk].
  now rewrite occurrences_significant.
Qed.

(** X2. The keywords of a text are at most twenty words, no word twice;
    each is a word of three or more letters a-z of the text in lower case
    and no stop word; they stand in the order of falling frequency; and a
    counted word that is no keyword is left out only because twenty words
    occur at least as often. *)
Theorem extractKeywords_top (text : jsstring) :
  (length (extractKeywords text) <= 20)%nat
  /\ List.NoDup (extractKeywords text)
  /\ Forall (fun k => In k (lowerWords text)
                      /\ includes stopWords k = false
                      /\ (3 <= length k)%nat /\ forallb isLowerAZ k = true)
       (extractKeywords text)
  /\ StronglySorted
       (fun a b => occurrences b (lowerWords text)
                   <= occurrences a (lowerWords text))
       (extractKeywords text)
  /\ (forall w,
         In w (lowerWords text) -> includes stopWords w = false ->
         ~ In w (extractKeywords text) ->
         length (extractKeywords text) = 20%nat
         /\ Forall (fun k => occurrences w (lowerWords text)
                             <= occurrences k (lowerWords text))
              (extractKeywords text)).
Proof.
  rewrite extractKeywords_frequencies.
  set (words := lowerWords text).
  set (after := fun a b : jsstring * Z => 0 <? snd b - snd a).
  set (L := stable_sort after (frequencies words)).
  assert (Permutation L (frequencies words)) as HP by apply stable_sort_perm.
  assert (StronglySorted (fun a b : jsstring * Z => snd b <= snd a) L) as HS.
  { apply (stable_sort_descending after snd). reflexivity. }
  assert (forall kv, In kv L ->
            snd kv = occurrences (fst kv) words
            /\ In (fst kv) words /\ includes stopWords (fst kv) = false) as HL.
  { intros kv Hkv. apply (Permutation_in _ HP) in Hkv.
    unfold frequencies in Hkv. apply in_map_iff in Hkv as (k & <- & Hk).
    apply dedup_In, significant_In in Hk. now split. }
  assert (List.NoDup (List.map fst L)) as HN.
  { apply (Permutation_NoDup (l := List.map fst (frequencies words))).
    - apply Permutation_map. now symmetry.
    - unfold frequencies. rewrite List.map_map. cbn [fst].
      rewrite map_id. apply dedup_NoDup. }
  rewrite <- (firstn_skipn 20 L) in HS, HN.
  apply StronglySorted_app_parts in HS as [HS1 HS2].
  assert (forall kv, In kv (firstn 20 L) -> In kv L) as Hfirst.
  { intros kv Hkv. rewrite <- (firstn_skipn 20 L). apply in_or_app. now left. }
  split; [|split; [|split; [|split]]].
  - rewrite length_map. apply firstn_le_length.
  - rewrite List.map_app in HN. now apply List.NoDup_app_remove_r in HN.
  - apply List.Forall_forall. intros k (kv & <- & Hkv)%in_map_iff.
    destruct (HL kv (Hfirst kv Hkv)) as (_ & Hin & Hstop).
    split; [exact Hin|]. split; [exact Hstop|].
    pose proof (match_words_loop_shape 0 false (toLowerCase text)) as Hshape.
    rewrite List.Forall_forall in Hshape. now apply Hshape.
  - apply StronglySorted_map.
    eapply StronglySorted_impl_In; [|exact HS1].
    intros a b Ha Hb Hab. cbn beta.
    destruct (HL a (Hfirst a Ha)) as (<- & _).
    destruct (HL b (Hfirst b Hb)) as (<- & _). exact Hab.
  - intros w Hw Hstop Hout.
    assert (In (w, occurrences w words) L) as HwL.
    { apply (Permutation_in _ (Permutation_sym HP)).
      unfold frequencies. apply in_map_iff. exists w. split; [reflexivity|].
      apply dedup_In, significant_In. now split. }
    rewrite <- (firstn_skipn 20 L) in HwL. apply in_app_or in HwL as [HwL|HwL].
    { exfalso. apply Hout. apply in_map_iff. now exists (w, occurrences w words). }
    split.
    + rewrite length_map, length_firstn.
      assert (20 < length L)%nat; [|lia].
      destruct (Nat.lt_ge_cases 20 (length L)) as [Hlt|Hge]; [exact Hlt|].
      rewrite skipn_all2 in HwL by lia. destruct HwL.
    + apply List.Forall_forall. intros k (kv & <- & Hkv)%in_map_iff.
      specialize (HS2 kv _ Hkv HwL). cbn [snd] in HS2.
      destruct (HL kv (Hfirst kv Hkv)) as (<- & _). exact HS2.
Qed.
End KeywordFacts.

(** ** The sliding window (chunker.ts, [slidingWindowChunk]) *)

Section SlidingWindowFacts.
Context `{Platform}.
Import Chunker.

Lemma re_spaces_cons (c : N) (s : jsstring) :
  re_spaces (c :: s)
  = if isWhiteSpace c then Some (S (span_length isWhiteSpace s)) else None.
Proof.
  unfold re_spaces. cbn [span_length]. now destruct (isWhiteSpace c).
Qed.

Lemma split_spaces_len (skip : nat) (cur s : jsstring) :
  len (split_loop re_spaces skip cur s) <= 1 + blanks s.
Proof.
  unfold blanks, len. revert skip cur.
  induction s as [|c s IH]; intros skip cur; [simpl; lia|].
  cbn [split_loop List.filter]. destruct skip as [|k].
  - rewrite re_spaces_cons. destruct (isWhiteSpace c).
    + cbn [length]. specialize (IH (span_length isWhiteSpace s) []). lia.
    + apply IH.
  - specialize (IH k cur). destruct (isWhiteSpace c); cbn [length]; lia.
Qed.

Lemma noBlank_rev (s : jsstring) : noBlank (rev s) = noBlank s.
Proof.
  unfold noBlank. induction s as [|c s IH]; [reflexivity|].
  simpl. rewrite forallb_app, IH. simpl. rewrite andb_true_r. apply andb_comm.
Qed.

Lemma split_spaces_noBlank (skip : nat) (cur s : jsstring) :
  noBlank cur = true ->
  Forall (fun w => noBlank w = true) (split_loop re_spaces skip cur s).
Proof.
  revert skip cur. induction s as [|c s IH]; intros skip cur Hcur.
  - simpl. constructor; [now rewrite noBlank_rev|constructor].
  - cbn [split_loop]. destruct skip as [|k]; [|now apply IH].
    rewrite re_spaces_cons. destruct (isWhiteSpace c) eqn:E.
    + constructor; [now rewrite noBlank_rev|]. now apply IH.
    + apply IH. unfold noBlank in *. simpl. now rewrite E, Hcur.
Qed.

Lemma blanks_app (s t : jsstring) : blanks (s ++ t) = blanks s + blanks t.
Proof. unfold blanks, len. rewrite List.filter_app, length_app. lia. Qed.

Lemma noBlank_blanks (w : jsstring) : noBlank w = true -> blanks w = 0.
Proof.
  unfold noBlank, blanks, len. induction w as [|c w IH]; [reflexivity|].
  simpl. destruct (isWhiteSpace c); [discriminate|]. exact IH.
Qed.

Lemma blanks_join (ws : list jsstring) :
  Forall (fun w => noBlank w = true) ws ->
  blanks (join (str " ") ws) = Z.max 0 (len ws - 1).
Proof.
  unfold len. induction 1 as [|w ws Hw Hws IH]; [reflexivity|].
  cbn [join]. destruct ws as [|w' ws'].
  - rewrite noBlank_blanks by exact Hw. reflexivity.
  - rewrite !blanks_app, IH, noBlank_blanks by exact Hw.
    change (blanks (str " ")) with 1. cbn [length]. lia.
Qed.

(** A run of words of the text joined by spaces has no more words than
    the run. *)
Lemma wordCount_join (ws : list jsstring) :
  Forall (fun w => noBlank w = true) ws ->
  wordCount (join (str " ") ws) <= Z.max 1 (len ws).
Proof.
  intros Hws. unfold wordCount, split.
  pose proof (split_spaces_len 0 [] (join (str " ") ws)) as Hlen.
  rewrite blanks_join in Hlen by exact Hws. lia.
Qed.

Lemma slidingWindow_loop_windows fuel words chunkSize chunkOverlap start chunks result :
  Forall (fun w => noBlank w = true) words ->
  0 <= chunkOverlap < chunkSize -> 0 <= start ->
  Forall (windowOf words chunkSize) chunks ->
  slidingWindow_loop fuel words chunkSize chunkOverlap start chunks = Some result ->
  Forall (windowOf words chunkSize) result.
Proof.
  intros Hwords Hstep. revert start chunks.
  induction fuel as [|fuel IH]; intros start chunks Hstart Hchunks; [discriminate|].
  cbn [slidingWindow_loop].
  destruct (start <? len words) eqn:E; [|now intros [= <-]].
  apply Z.ltb_lt in E.
  set (end_ := Z.min (start + chunkSize) (len words)).
  set (chunk := join (str " ") (arr_slice words start end_)).
  assert (Forall (windowOf words chunkSize)
            (if truthy (trim chunk) && (MIN_CHUNK_SIZE <=? wordCount chunk)
             then chunks ++ [chunk] else chunks)) as Hnext.
  { destruct (truthy (trim chunk) && (MIN_CHUNK_SIZE <=? wordCount chunk)) eqn:Ep;
      [|exact Hchunks].
    apply andb_true_iff in Ep as [_ Ep]. apply Z.leb_le in Ep.
    apply Forall_app. split; [exact Hchunks|]. constructor; [|constructor].
    assert (arr_slice words start end_
            = firstn (Z.to_nat (end_ - start)) (skipn (Z.to_nat start) words))
      as Hslice.
    { unfold arr_slice.
      destruct (start <? 0) eqn:E1; [apply Z.ltb_lt in E1; lia|].
      destruct (end_ <? 0) eqn:E2; [apply Z.ltb_lt in E2; lia|].
      replace (Z.min start (len words)) with start by lia.
      replace (Z.min end_ (len words)) with end_ by lia. reflexivity. }
    assert (Forall (fun w => noBlank w = true) (arr_slice words start end_))
      as Hrun.
    { rewrite Hslice. apply Forall_take, Forall_drop, Hwords. }
    pose proof (wordCount_join _ Hrun) as Hcount. fold chunk in Hcount.
    assert (len (arr_slice words start end_) <= chunkSize) as Hshort.
    { rewrite Hslice. unfold len. rewrite length_firstn. lia. }
    unfold windowOf, MIN_CHUNK_SIZE, Config.chunker_minChunkSize in *.
    split; [lia|].
    exists (Z.to_nat start), (Z.to_nat (end_ - start)).
    split; [lia|]. unfold chunk. now rewrite Hslice. }
  destruct (_ && (0 <? _)); [now intros [= <-]|].
  apply IH; [lia|exact Hnext].
Qed.

(** X3. With an overlap from 0 up to below the chunk size, the sliding
    window returns: a text of at most [chunkSize] words as it is, as the one
    chunk; of a longer text, chunks of 50 to [chunkSize] words, each the
    text of consecutive words of the text with one space between them. *)
Theorem slidingWindowChunk_windows (text : jsstring) (chunkSize chunkOverlap : Z) :
  0 <= chunkOverlap < chunkSize ->
  exists chunks,
    slidingWindowChunk text chunkSize chunkOverlap = Some chunks
    /\ if wordCount text <=? chunkSize then chunks = [text]
       else Forall (windowOf (split re_spaces text) chunkSize) chunks.
Proof.
  intros Hstep.
  destruct (slidingWindowChunk_ends text chunkSize chunkOverlap) as [chunks E];
    [lia|].
  exists chunks. split; [exact E|].
  unfold slidingWindowChunk in E. fold (wordCount text) in E.
  destruct (wordCount text <=? chunkSize); [now injection E as <-|].
  eapply slidingWindow_loop_windows; [| |reflexivity| |exact E].
  - now apply split_spaces_noBlank.
  - exact Hstep.
  - constructor.
Qed.
End SlidingWindowFacts.

Lemma slidingWindowChunk_windows_witness :
  exists chunks,
    @Chunker.slidingWindowChunk sixtyWords 55 5 = Some chunks
    /\ Forall (windowOf (split re_spaces sixtyWords) 55) chunks.
Proof.
  destruct (slidingWindowChunk_windows sixtyWords 55 5) as (chunks & E & Hc);
    [lia|].
  exists chunks. split; [exact E|].
  replace (Chunker.wordCount sixtyWords <=? 55) with false in Hc
    by (vm_compute; reflexivity).
  exact Hc.
Defined.

(** ** Cleaning the text of a page (crawler.ts, [cleanText]) *)

Section CleanTextFacts.
Context `{Platform}.
Import Crawler.

Lemma replace_spaces_single (s : jsstring) :
  singleSpaced true
    (replace_loop re_spaces (str " ") (span_length isWhiteSpace s) s) = true
  /\ singleSpaced false (replace_loop re_spaces (str " ") 0 s) = true.
Proof.
  induction s as [|c s [IH1 IH2]]; [split; reflexivity|]. split.
  - cbn [span_length]. destruct (isWhiteSpace c) eqn:E; cbn [replace_loop].
    + exact IH1.
    + rewrite re_spaces_cons, E. cbn [singleSpaced]. now rewrite E.
  - cbn [replace_loop]. rewrite re_spaces_cons.
    destruct (isWhiteSpace c) eqn:E.
    + change (str " " ++ ?x) with (32%N :: x). cbn [singleSpaced].
      change (isWhiteSpace 32) with true. exact IH1.
    + cbn [singleSpaced]. now rewrite E.
Qed.

Lemma singleSpaced_noNewline (b : bool) (s : jsstring) :
  singleSpaced b s = true ->
  forallb (fun c => negb (isNewline c)) s = true.
Proof.
  revert b. induction s as [|c s IH]; intros b; [reflexivity|].
  cbn [singleSpaced forallb]. destruct (isWhiteSpace c) eqn:E.
  - intros [[Hc _]%andb_true_iff Hs]%andb_true_iff.
    apply N.eqb_eq in Hc. subst c. now rewrite (IH _ Hs).
  - intros Hs. rewrite (IH _ Hs), andb_true_r.
    unfold isNewline. destruct (c =? 10)%N eqn:Ec; [|reflexivity].
    apply N.eqb_eq in Ec. now subst c.
Qed.

Lemma replace_gap_noNewline (rep s : jsstring) :
  forallb (fun c => negb (isNewline c)) s = true ->
  replace_loop re_newline_gap rep 0 s = s.
Proof.
  induction s as [|c s IH]; [reflexivity|].
  cbn [forallb]. intros [Hc Hs]%andb_true_iff.
  cbn [replace_loop]. unfold re_newline_gap at 1.
  apply negb_true_iff in Hc. rewrite Hc. now rewrite IH.
Qed.

(** The second replacement of [cleanText] finds nothing: the first one
    leaves no newline. *)
Lemma cleanText_trim (text : jsstring) :
  cleanText text = trim (replaceAll re_spaces (str " ") text).
Proof.
  unfold cleanText. f_equal. apply replace_gap_noNewline.
  apply (singleSpaced_noNewline false), replace_spaces_single.
Qed.

Lemma singleSpaced_trimStart (b : bool) (s : jsstring) :
  singleSpaced b s = true -> singleSpaced false (trimStart s) = true.
Proof.
  revert b. induction s as [|c s IH]; intros b; [reflexivity|].
  cbn [singleSpaced trimStart]. destruct (isWhiteSpace c) eqn:E.
  - intros [_ Hs]%andb_true_iff. exact (IH _ Hs).
  - intros Hs. cbn [singleSpaced]. now rewrite E.
Qed.

Lemma singleSpaced_prefix (b : bool) (p q : jsstring) :
  singleSpaced b (p ++ q) = true -> singleSpaced b p = true.
Proof.
  revert b. induction p as [|c p IH]; intros b; [reflexivity|].
  cbn [app singleSpaced]. destruct (isWhiteSpace c).
  - intros [Hc Hs]%andb_true_iff. rewrite Hc. exact (IH _ Hs).
  - apply IH.
Qed.

Lemma trimStart_split (s : jsstring) : exists pre, s = pre ++ trimStart s.
Proof.
  induction s as [|c s [pre IH]]; [now exists []|].
  cbn [trimStart]. destruct (isWhiteSpace c); [|now exists []].
  exists (c :: pre). cbn [app]. now f_equal.
Qed.

Lemma headIs_trimStart (s : jsstring) :
  headIs isWhiteSpace (trimStart s) = false.
Proof.
  induction s as [|c s IH]; [reflexivity|].
  cbn [trimStart]. destruct (isWhiteSpace c) eqn:E; [exact IH|exact E].
Qed.

(** What [trim] leaves: the front of the string without its leading
    blanks. *)
Lemma trim_split (s : jsstring) : exists tail, trimStart s = trim s ++ tail.
Proof.
  unfold trim. destruct (trimStart_split (rev (trimStart s))) as [pre E].
  exists (rev pre). rewrite <- rev_app_distr, <- E. now rewrite rev_involutive.
Qed.

Lemma headIs_trim (s : jsstring) : headIs isWhiteSpace (trim s) = false.
Proof.
  destruct (trim_split s) as [tail E].
  pose proof (headIs_trimStart s) as Hh. rewrite E in Hh.
  destruct (trim s); [reflexivity|exact Hh].
Qed.

Lemma headIs_rev_trim (s : jsstring) :
  headIs isWhiteSpace (rev (trim s)) = false.
Proof. unfold trim. rewrite rev_involutive. apply headIs_trimStart. Qed.

Lemma singleSpaced_trim (b : bool) (s : jsstring) :
  singleSpaced b s = true -> singleSpaced false (trim s) = true.
Proof.
  intros Hs. apply singleSpaced_trimStart in Hs.
  destruct (trim_split s) as [tail E]. rewrite E in Hs.
  exact (singleSpaced_prefix _ _ _ Hs).
Qed.

Lemma singleSpaced_span (s : jsstring) :
  singleSpaced true s = true -> span_length isWhiteSpace s = 0%nat.
Proof.
  destruct s as [|c s]; [reflexivity|]. cbn [singleSpaced span_length].
  destruct (isWhiteSpace c); [|reflexivity].
  rewrite andb_false_r. discriminate.
Qed.

Lemma replace_spaces_id (b : bool) (s : jsstring) :
  singleSpaced b s = true -> replace_loop re_spaces (str " ") 0 s = s.
Proof.
  revert b. induction s as [|c s IH]; intros b; [reflexivity|].
  cbn [singleSpaced replace_loop]. rewrite re_spaces_cons.
  destruct (isWhiteSpace c).
  - intros [[Hc _]%andb_true_iff Hs]%andb_true_iff.
    apply N.eqb_eq in Hc. subst c.
    rewrite (singleSpaced_span _ Hs). cbn [app str]. f_equal. exact (IH _ Hs).
  - intros Hs. f_equal. exact (IH _ Hs).
Qed.

Lemma trimStart_id (s : jsstring) :
  headIs isWhiteSpace s = false -> trimStart s = s.
Proof.
  destruct s as [|c s]; [reflexivity|]. cbn [headIs trimStart].
  now intros ->.
Qed.

Lemma trim_id (s : jsstring) :
  headIs isWhiteSpace s = false -> headIs isWhiteSpace (rev s) = false ->
  trim s = s.
Proof.
  intros H1 H2. unfold trim.
  rewrite (trimStart_id s H1), (trimStart_id (rev s) H2).
  apply rev_involutive.
Qed.

Lemma cleanText_singleSpaced (text : jsstring) :
  singleSpaced false (cleanText text) = true.
Proof.
  rewrite cleanText_trim. apply (singleSpaced_trim false).
  apply replace_spaces_single.
Qed.

(** X4. The text that [cleanText] returns has no blank but the space, no
    two spaces side by side, and no blank at either end; and cleaning it
    again changes nothing. *)
Theorem cleanText_normal_form (text : jsstring) :
  singleSpaced false (cleanText text) = true
  /\ headIs isWhiteSpace (cleanText text) = false
  /\ headIs isWhiteSpace (rev (cleanText text)) = false
  /\ cleanText (cleanText text) = cleanText text.
Proof.
  pose proof (cleanText_singleSpaced text) as H1.
  assert (headIs isWhiteSpace (cleanText text) = false) as H2.
  { rewrite cleanText_trim. apply headIs_trim. }
  assert (headIs isWhiteSpace (rev (cleanText text)) = false) as H3.
  { rewrite cleanText_trim. apply headIs_rev_trim. }
  repeat split; try assumption.
  rewrite (cleanText_trim (cleanText text)). unfold replaceAll.
  rewrite (replace_spaces_id _ _ H1). now apply trim_id.
Qed.

(** ** Chunks of a crawled page (crawler.ts [parsePage], chunker.ts
       [semanticChunkText]) *)

Import Chunker.

Lemma split_paragraph_noNewline (cur s : jsstring) :
  forallb (fun c => negb (isNewline c)) s = true ->
  split_loop re_paragraph 0 cur s = [rev cur ++ s].
Proof.
  revert cur. induction s as [|c s IH]; intros cur.
  - intros _. simpl. now rewrite app_nil_r.
  - cbn [forallb]. intros [Hc Hs]%andb_true_iff.
    cbn [split_loop]. unfold re_paragraph at 1.
    apply negb_true_iff in Hc. rewrite Hc.
    rewrite (IH _ Hs). cbn [rev]. now rewrite <- app_assoc.
Qed.

Lemma semanticChunkText_noNewline (text : jsstring) (maxChunkSize chunkOverlap : Z) :
  forallb (fun c => negb (isNewline c)) text = true ->
  semanticChunkText text maxChunkSize chunkOverlap
  = if maxChunkSize <? wordCount text
    then option_map (List.filter (fun c => MIN_CHUNK_SIZE <=? wordCount c))
           (slidingWindowChunk text maxChunkSize chunkOverlap)
    else Some (if MIN_CHUNK_SIZE <=? wordCount text then [text] else []).
Proof.
  intros Hn. unfold semanticChunkText, split.
  rewrite (split_paragraph_noNewline [] text Hn). cbn [rev app].
  cbn [semantic_loop].
  destruct (maxChunkSize <? wordCount text) eqn:E.
  - change (0 <? len []) with false. cbv iota.
    destruct (slidingWindowChunk text maxChunkSize chunkOverlap) as [sub|];
      [|reflexivity].
    cbn [app option_map]. change (0 <? len []) with false. reflexivity.
  - rewrite Z.add_0_l, E. cbn [andb app].
    change (0 <? len [text]) with true. cbn [andb join].
    rewrite ?Z.add_0_l.
    destruct (MIN_CHUNK_SIZE <=? wordCount text) eqn:E'; cbn [app List.filter];
      [now rewrite E'|reflexivity].
Qed.

(** X5. The content of a page that [parsePage] returns has no newline, so
    the semantic chunker sees one paragraph: a content of more than
    [maxChunkSize] words is cut by the sliding window and the chunks of 50
    words or more are kept; a shorter content is one chunk when it has 50
    words or more, and no chunk at all when it has fewer. *)
Theorem semanticChunkText_of_parsed_page (load : jsstring -> Dom) (now : Z)
    (url html : jsstring) (maxChunkSize chunkOverlap : Z) :
  forallb (fun c => negb (isNewline c))
    (page_content (parsePage load now url html)) = true
  /\ semanticChunkText (page_content (parsePage load now url html))
       maxChunkSize chunkOverlap
     = if maxChunkSize <? wordCount (page_content (parsePage load now url html))
       then option_map (List.filter (fun c => MIN_CHUNK_SIZE <=? wordCount c))
              (slidingWindowChunk (page_content (parsePage load now url html))
                 maxChunkSize chunkOverlap)
       else Some (if MIN_CHUNK_SIZE
                     <=? wordCount (page_content (parsePage load now url html))
                  then [page_content (parsePage load now url html)] else []).
Proof.
  assert (forallb (fun c => negb (isNewline c))
            (page_content (parsePage load now url html)) = true) as Hn.
  { cbn [parsePage page_content]. apply (singleSpaced_noNewline false).
    apply cleanText_singleSpaced. }
  split; [exact Hn|]. now apply semanticChunkText_noNewline.
Qed.
End CleanTextFacts.

(** ** Reading a response (crawler.ts, [readResponseWithLimit],
       [fetchAndParsePage], [parsePage]) *)

Lemma stream_streamOf (s : stream) :
  exists pieces ending, s = streamOf pieces ending.
Proof.
  induction s as [|chunk rest (pieces & ending & ->)|e].
  - now exists [], None.
  - now exists (chunk :: pieces), ending.
  - now exists [], (Some e).
Qed.

Section ReadFacts.
Context `{Platform} {B : Type}.
Variable load : jsstring -> Dom.
Variable fetch : jsstring -> B -> outcome Response * B.
Variable clock : B -> Z.
Import Crawler UrlGuard.

Lemma read_loop_streamOf pieces ending chunks totalSize (w : World B) :
  totalSize <= MAX_RESPONSE_SIZE_BYTES ->
  read_loop (streamOf pieces ending) chunks totalSize w
  = (if MAX_RESPONSE_SIZE_BYTES <? totalSize + totalBytes pieces
     then Returns None
     else match ending with
          | None => Returns (Some (TextDecoder_decode (concat (chunks ++ pieces))))
          | Some e => Throws e
          end, w).
Proof.
  unfold totalBytes, len. revert chunks totalSize.
  induction pieces as [|piece rest IH]; intros chunks totalSize Hsize.
  - cbn [streamOf concat length]. rewrite Z.add_0_r, app_nil_r.
    destruct (_ <? _) eqn:E; [apply Z.ltb_lt in E; lia|].
    now destruct ending.
  - cbn [streamOf read_loop concat]. rewrite length_app.
    destruct (MAX_RESPONSE_SIZE_BYTES <? totalSize + Z.of_nat (length piece)) eqn:E.
    + apply Z.ltb_lt in E.
      destruct (_ <? totalSize + _) eqn:E'; [reflexivity|].
      apply Z.ltb_ge in E'. lia.
    + apply Z.ltb_ge in E. rewrite IH by exact E.
      rewrite <- app_assoc. cbn [app].
      replace (totalSize + Z.of_nat (length piece)
               + Z.of_nat (length (concat rest)))
        with (totalSize + Z.of_nat (length piece + length (concat rest))) by lia.
      reflexivity.
Qed.

(** X6. Reading a response body with the size limit, for a body that
    arrives in pieces and then ends or breaks: when the pieces have more
    bytes in all than the limit the result is null, whatever comes after the
    piece that crosses the limit; otherwise it is the text decoded from all
    the bytes in order, or the error of the stream is thrown. Nothing else
    is called. *)
Theorem readResponseWithLimit_cap (response : Response) (url : jsstring)
    (pieces : list (list N)) (ending : option thrown) (w : World B) :
  response_body response = Some (streamOf pieces ending) ->
  readResponseWithLimit response url w
  = (if MAX_RESPONSE_SIZE_BYTES <? totalBytes pieces
     then Returns None
     else match ending with
          | None => Returns (Some (TextDecoder_decode (concat pieces)))
          | Some e => Throws e
          end, w).
Proof.
  intros E. unfold readResponseWithLimit. rewrite E.
  rewrite read_loop_streamOf by (vm_compute; discriminate).
  reflexivity.
Qed.

Lemma read_loop_pure reader chunks totalSize (w1 w2 : World B) :
  fst (read_loop reader chunks totalSize w1)
  = fst (read_loop reader chunks totalSize w2).
Proof.
  revert chunks totalSize.
  induction reader as [|chunk rest IH|e]; intros chunks totalSize;
    cbn [read_loop]; [reflexivity| |reflexivity].
  destruct (_ <? _); [reflexivity|apply IH].
Qed.

Lemma readResponseWithLimit_pure response url (w1 w2 : World B) :
  fst (readResponseWithLimit response url w1)
  = fst (readResponseWithLimit response url w2).
Proof.
  unfold readResponseWithLimit.
  destruct (response_body response); [apply read_loop_pure|reflexivity].
Qed.

Lemma readResponseWithLimit_world response url (w : World B) :
  snd (readResponseWithLimit response url w) = w.
Proof.
  unfold readResponseWithLimit.
  destruct (response_body response); [apply read_loop_world|reflexivity].
Qed.

(** When reading and parsing gives a page. *)
Lemma readAndParse_page response url (w w' : World B) page :
  readAndParse load clock response url w = (Returns (Some page), w') ->
  isHtml response = true /\ tooLarge response = false
  /\ w' = w
  /\ exists html,
       fst (readResponseWithLimit response url w) = Returns (Some html)
       /\ truthy html = true
       /\ page = parsePage load (clock (backend w)) url html.
Proof.
  unfold readAndParse.
  destruct (isHtml response); [|discriminate]. cbn [negb].
  destruct (tooLarge response); [discriminate|].
  unfold bind at 1.
  pose proof (readResponseWithLimit_world response url w) as Hw.
  destruct (readResponseWithLimit response url w) as [[[html|]|e|] w1];
    cbn [snd] in Hw; subst w1; try discriminate.
  destruct (truthy html) eqn:Et; [|discriminate].
  unfold bind, now, ret. intros [= <- <-].
  repeat split. exists html. auto.
Qed.

(** X7. When [fetchAndParsePage(url)] returns a page, the page was read
    from a readable response (a 2xx that is no redirect, of type
    [text/html], with a declared length within the limit) whose body is not
    empty: the response to the fetch of [url], or, when that one was a
    redirect, the response to the fetch of its target, which the URL guard
    let pass. The page is the parse of that body under the URL that was
    fetched last. *)
Theorem fetchAndParsePage_page (url : jsstring) (w w' : World B)
    (page : CrawledPage) :
  fetchAndParsePage load fetch clock url w = (Returns (Some page), w') ->
  exists source b0 response html,
    (source = url /\ b0 = backend w
     \/ firstHop fetch url (backend w) = Some (source, b0)
        /\ isBlockedUrl source = false)
    /\ fetch source b0 = (Returns response, backend w')
    /\ readable response = true
    /\ fst (readResponseWithLimit response source w') = Returns (Some html)
    /\ truthy html = true
    /\ page = parsePage load (clock (backend w')) source html.
Proof.
  unfold fetchAndParsePage, try_finally, firstHop, readable.
  unfold bind at 1, call at 1.
  destruct (fetch url (backend w)) as [[response|e|] b1] eqn:E1;
    [|discriminate|discriminate].
  destruct (isRedirect response) eqn:Ered.
  - destruct (header_location response) as [location|]; [|discriminate].
    destruct (truthy location); [|discriminate].
    destruct (URL_new location (Some url)) as [u|]; [|discriminate].
    destruct (isBlockedUrl (href u)) eqn:Eblocked; [discriminate|].
    unfold fetchWithoutRedirect. unfold bind at 1, call at 1.
    cbn [backend trace connected].
    destruct (fetch (href u) b1) as [[response2|e2|] b2] eqn:E2;
      [|discriminate|discriminate].
    destruct (ok response2) eqn:Eok; [|discriminate]. cbn [negb orb].
    destruct (isRedirect response2) eqn:Ered2; [discriminate|].
    intros (Hhtml & Hlarge & -> & html & Hread & Ht & ->)%readAndParse_page.
    exists (href u), b1, response2, html. cbn [backend] in *.
    rewrite Eok, Ered2, Hhtml, Hlarge. repeat split; auto.
  - destruct (ok response) eqn:Eok; [|discriminate]. cbn [negb].
    intros (Hhtml & Hlarge & -> & html & Hread & Ht & ->)%readAndParse_page.
    exists url, (backend w), response, html. cbn [backend] in *.
    rewrite Eok, Ered, Hhtml, Hlarge. repeat split; auto.
Qed.

(** The links collected from the [href]s, before duplicates are
    dropped. *)
Lemma collected_links (url : jsstring) (hrefs acc : list jsstring) (link : jsstring) :
  In link
    (fold_left
       (fun links href_ =>
          if truthy href_ then
            match URL_new href_ (Some url) with
            | Some u =>
                if startsWith (href u) (str "http")
                then links ++ [href u] else links
            | None => links
            end
          else links)
       hrefs acc)
  <-> In link acc
      \/ exists h u,
           In h hrefs /\ truthy h = true /\ URL_new h (Some url) = Some u
           /\ startsWith (href u) (str "http") = true /\ link = href u.
Proof.
  revert acc. induction hrefs as [|h hrefs IH]; intros acc.
  - simpl. split; [auto|]. intros [Hin|(h & u & [] & _)]. exact Hin.
  - cbn [fold_left]. rewrite IH. clear IH. split.
    + intros [Hin|(h' & u & Hh' & Hrest)].
      * destruct (truthy h) eqn:Et; [|now left].
        destruct (URL_new h (Some url)) as [u|] eqn:Eu; [|now left].
        destruct (startsWith (href u) (str "http")) eqn:Es; [|now left].
        apply in_app_or in Hin as [Hin|[<-|[]]]; [now left|].
        right. exists h, u. repeat split; auto. now left.
      * right. exists h', u. split; [now right|exact Hrest].
    + intros [Hin|(h' & u & [<-|Hh'] & Ht & Eu & Es & ->)].
      * left. destruct (truthy h); [|exact Hin].
        destruct (URL_new h (Some url)) as [u|]; [|exact Hin].
        destruct (startsWith (href u) (str "http")); [|exact Hin].
        apply in_or_app. now left.
      * left. rewrite Ht, Eu, Es. apply in_or_app. right. now left.
      * right. exists h', u. auto.
Qed.

(** X8. The page that [parsePage] makes of a document: it has the url
    given; its title is empty only when the document has no title and no
    first heading and the url is empty; its links are pairwise different,
    and they are the URLs that the non-empty [href]s of the document
    resolve to against the url of the page and that start with [http]. *)
Theorem parsePage_page (now : Z) (url html : jsstring) :
  page_url (parsePage load now url html) = url
  /\ truthy (page_title (parsePage load now url html))
     = truthy (trim (dom_title (load html)))
       || truthy (trim (dom_h1 (load html))) || truthy url
  /\ List.NoDup (page_links (parsePage load now url html))
  /\ forall link,
       In link (page_links (parsePage load now url html))
       <-> exists h u,
             In h (dom_hrefs (load html)) /\ truthy h = true
             /\ URL_new h (Some url) = Some u
             /\ startsWith (href u) (str "http") = true /\ link = href u.
Proof.
  cbn [parsePage page_url page_title page_links].
  split; [reflexivity|]. split; [|split].
  - unfold or_else.
    destruct (truthy (trim (dom_title (load html)))) eqn:E1; [exact E1|].
    destruct (truthy (trim (dom_h1 (load html)))) eqn:E2; [exact E2|].
    reflexivity.
  - apply dedup_NoDup.
  - intros link.
    match goal with
    | |- In link (fold_left set_add ?raw []) <-> _ =>
        change (fold_left set_add raw []) with (dedup raw)
    end.
    rewrite dedup_In, collected_links. split; [|auto].
    intros [[]|Hex]. exact Hex.
Qed.
End ReadFacts.

Lemma readResponseWithLimit_cap_witness :
  @Crawler.readResponseWithLimit Simple.platform unit
    (Site.respond 200 "document A") Site.A Site.world
  = (Returns (Some (str "document A")), Site.world).
Proof.
  exact (@readResponseWithLimit_cap Simple.platform unit
           (Site.respond 200 "document A") Site.A [str "document A"] None
           Site.world eq_refl).
Defined.

Lemma fetchAndParsePage_page_witness :
  exists page w',
    Hop.run = (Returns (Some page), w')
    /\ exists source b0 response html,
         (source = Site.A /\ b0 = backend Site.world
          \/ @firstHop Simple.platform unit Hop.fetch Site.A (backend Site.world)
             = Some (source, b0)
             /\ @UrlGuard.isBlockedUrl Simple.platform source = false)
         /\ Hop.fetch source b0 = (Returns response, backend w')
         /\ readable response = true
         /\ fst (@Crawler.readResponseWithLimit Simple.platform unit
                   response source w')
            = Returns (Some html)
         /\ truthy html = true
         /\ page = @Crawler.parsePage Simple.platform Site.load 0 source html.
Proof.
  destruct Hop.run as [[[page|]|e|] w'] eqn:E;
    try (exfalso; vm_compute in E; discriminate).
  exists page, w'. split; [reflexivity|].
  exact (@fetchAndParsePage_page Simple.platform unit Site.load Hop.fetch
           (fun _ => 0) Site.A Site.world w' page E).
Defined.

(** ** The visits of the crawl (crawler.ts, [crawlWebsite],
       [filterValidLinks]) *)

Lemma visitsOf_app (evs1 evs2 : list event) :
  visitsOf (evs1 ++ evs2) = visitsOf evs1 ++ visitsOf evs2.
Proof. unfold visitsOf. apply flat_map_app. Qed.

Lemma visitsOf_noVisit (evs : list event) :
  Forall noVisit evs -> visitsOf evs = [].
Proof.
  induction 1 as [|ev evs Hev _ IH]; [reflexivity|].
  destruct ev; simpl in *; try exact IH. destruct Hev.
Qed.

Section CrawlVisitFacts.
Context `{Platform} {B : Type}.
Variable fetchPage : jsstring -> M B (option CrawledPage).
Variable safe : event -> Prop.
Hypothesis safe_sleep : forall ms, safe (EvSleep ms).
Hypothesis safe_visit :
  forall url depth, UrlGuard.isBlockedUrl url = false -> safe (EvVisit url depth).
Hypothesis fetch_guarded : guarded safe fetchPage.
Import Crawler UrlGuard.

Lemma filterValidLinks_onDomains links domains visited link :
  In link (filterValidLinks links domains visited) -> onDomains domains link.
Proof.
  unfold filterValidLinks. rewrite filter_In. intros [_ Hp].
  destruct (set_has visited link); [discriminate|].
  destruct (URL_new link None) as [u|] eqn:Eu; [|discriminate].
  destruct (truthy (hash u) || Regex.test re_binary_extension link) eqn:E;
    [discriminate|].
  apply orb_false_iff in E as [E1 E2]. exists u. auto.
Qed.

Lemma crawlPart_ret startUrl domains visited (pages : list CrawledPage) :
  crawlPart (B := B) safe startUrl domains visited (ret pages).
Proof.
  intros w. exists []. cbn. rewrite app_nil_r.
  repeat split; constructor.
Qed.

Lemma crawlPart_rateLimit {A} (queue : list A) startUrl domains visited
    (m : M B (list CrawledPage)) :
  crawlPart safe startUrl domains visited m ->
  crawlPart safe startUrl domains visited (rateLimit queue ;;; m).
Proof.
  intros Hm w. destruct queue as [|a queue].
  - change ((rateLimit [] ;;; m) w) with (m w). apply Hm.
  - change ((rateLimit (a :: queue) ;;; m) w)
      with (m (snd (tell (EvSleep REQUEST_DELAY_MS) w))).
    destruct (Hm (snd (tell (EvSleep REQUEST_DELAY_MS) w)))
      as (evs & E & Hs & Hn & Hv).
    exists (EvSleep REQUEST_DELAY_MS :: evs).
    split; [rewrite E; cbn [tell snd trace]; now rewrite <- app_assoc|].
    split; [constructor; [apply safe_sleep|exact Hs]|]. auto.
Qed.

(** A visit, the fetch, and then a part of the crawl that knows of the
    visit. *)
Lemma crawlPart_visit startUrl domains visited url depth
    (w w1 : World B) (evsF : list event)
    (rest : outcome (list CrawledPage) * World B) :
  ~ In url visited -> isBlockedUrl url = false ->
  queued startUrl domains (url, depth) ->
  trace w1 = (trace w ++ [EvVisit url depth]) ++ evsF ->
  Forall noVisit evsF -> Forall safe evsF ->
  (exists evs,
      trace (snd rest) = trace w1 ++ evs
      /\ Forall safe evs
      /\ List.NoDup (List.map fst (visitsOf evs))
      /\ Forall (fun v => ~ In (fst v) (set_add visited url)
                          /\ isBlockedUrl (fst v) = false
                          /\ queued startUrl domains v)
           (visitsOf evs)) ->
  exists evs,
    trace (snd rest) = trace w ++ evs
    /\ Forall safe evs
    /\ List.NoDup (List.map fst (visitsOf evs))
    /\ Forall (fun v => ~ In (fst v) visited
                        /\ isBlockedUrl (fst v) = false
                        /\ queued startUrl domains v)
         (visitsOf evs).
Proof.
  intros Hnew Hpass Hq E1 HnoV HsafeF (evs & E & Hs & Hn & Hv).
  exists (EvVisit url depth :: evsF ++ evs).
  split; [rewrite E, E1, <- !app_assoc; reflexivity|].
  split.
  { constructor; [now apply safe_visit|]. apply Forall_app. auto. }
  change (EvVisit url depth :: evsF ++ evs)
    with ([EvVisit url depth] ++ evsF ++ evs).
  rewrite !visitsOf_app, (visitsOf_noVisit evsF HnoV). cbn [visitsOf flat_map app].
  rewrite List.Forall_forall in Hv. split.
  - cbn [List.map fst]. constructor; [|exact Hn].
    intros (v & Ev & Hin)%in_map_iff.
    destruct (Hv v Hin) as (Hfresh & _). apply Hfresh.
    apply set_add_In. right. exact Ev.
  - constructor; [cbn [fst]; auto|].
    apply List.Forall_forall. intros v Hin.
    destruct (Hv v Hin) as (Hfresh & Hrest). split; [|exact Hrest].
    intros Hold. apply Hfresh, set_add_In. now left.
Qed.

Lemma crawl_scan_part D startUrl domains resume pages :
  (forall queue visited pages,
      Forall (queued startUrl domains) queue ->
      crawlPart safe startUrl domains visited (resume queue visited pages)) ->
  forall queue visited,
    Forall (queued startUrl domains) queue ->
    crawlPart safe startUrl domains visited
      (crawl_scan fetchPage D domains resume pages queue visited).
Proof.
  intros Hresume queue.
  induction queue as [|[url depth] queue IH]; intros visited Hq.
  - apply crawlPart_ret.
  - apply Forall_cons in Hq as [Hitem Hq]. cbn [crawl_scan].
    destruct (set_has visited url || (D <? depth)) eqn:Eskip; [now apply IH|].
    destruct (isBlockedUrl url) eqn:Epass; [now apply IH|].
    apply orb_false_iff in Eskip as [Hnew _].
    assert (~ In url visited) as Hfresh.
    { intros Hin. apply includes_In in Hin. unfold set_has in Hnew. congruence. }
    intros w.
    change ((tell (EvVisit url depth) ;;; fetchPage url) w)
      with (fetchPage url (snd (tell (EvVisit url depth) w))).
    destruct (fetch_guarded url (snd (tell (EvVisit url depth) w)) Epass)
      as (evsF & EF & HnoV & HsafeF).
    destruct (fetchPage url (snd (tell (EvVisit url depth) w)))
      as [[[page|]|e|] w1] eqn:E1; cbn [snd tell trace] in EF.
    + eapply crawlPart_visit; try eassumption.
      apply crawlPart_rateLimit, Hresume.
      destruct (depth <? D); [|exact Hq].
      apply Forall_app. split; [exact Hq|].
      apply List.Forall_forall. intros item (link & <- & Hlink)%in_map_iff.
      right. cbn [fst snd]. split.
      * destruct Hitem as [[Hd _]|[Hd _]]; cbn [snd] in Hd; lia.
      * eapply filterValidLinks_onDomains, Hlink.
    + eapply crawlPart_visit; try eassumption.
      apply crawlPart_rateLimit, IH, Hq.
    + eapply crawlPart_visit; try eassumption. apply IH, Hq.
    + eapply (crawlPart_visit _ _ _ _ _ w w1 evsF (Diverges, w1));
        try eassumption.
      exists []. cbn [snd]. rewrite app_nil_r. repeat split; constructor.
Qed.

Lemma crawl_loop_part D startUrl domains budget :
  forall queue visited pages,
    Forall (queued startUrl domains) queue ->
    crawlPart safe startUrl domains visited
      (crawl_loop fetchPage D domains budget queue visited pages).
Proof.
  induction budget as [|budget IH]; intros queue visited pages Hq.
  - apply crawlPart_ret.
  - cbn [crawl_loop]. apply crawl_scan_part; [|exact Hq].
    intros queue' visited' pages' Hq'. now apply IH.
Qed.

(** The whole crawl: its events are [safe], no URL is visited twice, every
    visit passed the guard and stood in the queue. *)
Lemma crawlWebsite_part (startUrl : jsstring) (options : CrawlOptions)
    (w : World B) :
  exists evs,
    trace (snd (crawlWebsite fetchPage startUrl options w)) = trace w ++ evs
    /\ Forall safe evs
    /\ List.NoDup (List.map fst (visitsOf evs))
    /\ Forall (fun v => isBlockedUrl (fst v) = false) (visitsOf evs)
    /\ forall u,
         URL_new startUrl None = Some u ->
         Forall (queued startUrl (default [hostname u] (allowedDomains options)))
           (visitsOf evs).
Proof.
  unfold crawlWebsite.
  destruct (isBlockedUrl startUrl) eqn:Eblocked.
  { exists []. cbn. rewrite app_nil_r. repeat split; constructor. }
  destruct (URL_new startUrl None) as [u|] eqn:Eparse.
  2:{ exists []. cbn. rewrite app_nil_r.
      repeat split; try constructor; discriminate. }
  destruct (crawl_loop_part (Z.min (maxDepth options) MAX_DEPTH_LIMIT) startUrl
              (default [hostname u] (allowedDomains options))
              (default DEFAULT_MAX_PAGES (maxPages options))
              [(startUrl, 0)] [] []
              ltac:(constructor; [left; auto|constructor])
              w) as (evs & E & Hs & Hn & Hv).
  exists evs. split; [exact E|]. split; [exact Hs|]. split; [exact Hn|].
  split.
  - eapply List.Forall_impl; [|exact Hv]. intros v (_ & Hp & _). exact Hp.
  - intros u' [= <-]. eapply List.Forall_impl; [|exact Hv].
    intros v (_ & _ & Hq). exact Hq.
Qed.
End CrawlVisitFacts.

Lemma quiet_guarded `{Platform} {B : Type}
    (fetchPage : jsstring -> M B (option CrawledPage)) :
  quiet fetchPage -> guarded (fun _ => True) fetchPage.
Proof.
  intros Hq url w _. destruct (Hq url w) as (evs & E & Hevs).
  exists evs. split; [exact E|]. split; [exact Hevs|].
  apply List.Forall_forall. auto.
Qed.

(** The fetcher of the repository, asked for a URL that the guard lets
    pass, fetches that URL and at most the target of a redirect that the
    guard lets pass. *)
Lemma fetchAndParsePage_guarded `{Platform} {B : Type} load
    (fetch : jsstring -> B -> outcome Response * B) clock :
  guarded guardedFetch (Crawler.fetchAndParsePage load fetch clock).
Proof.
  intros url w Hpass.
  assert (forall evs : list event,
             Forall (fun ev => exists u, ev = EvFetch u) evs -> Forall noVisit evs)
    as HnoV.
  { intros evs Hevs. eapply List.Forall_impl; [|exact Hevs].
    intros ev [u ->]. exact I. }
  unfold Crawler.fetchAndParsePage, try_finally.
  unfold bind at 1, call at 1.
  destruct (fetch url (backend w)) as [[response|e|] b1];
    cbn [backend trace connected snd].
  2,3: (exists [EvFetch url]; split; [reflexivity|];
        split; repeat constructor; exact Hpass).
  destruct (Crawler.isRedirect response).
  - destruct (header_location response) as [location|];
      [|exists [EvFetch url]; split; [reflexivity|];
        split; repeat constructor; exact Hpass].
    destruct (truthy location);
      [|exists [EvFetch url]; split; [reflexivity|];
        split; repeat constructor; exact Hpass].
    destruct (URL_new location (Some url)) as [u|];
      [|exists [EvFetch url]; split; [reflexivity|];
        split; repeat constructor; exact Hpass].
    destruct (UrlGuard.isBlockedUrl (href u)) eqn:Etarget;
      [exists [EvFetch url]; split; [reflexivity|];
       split; repeat constructor; exact Hpass|].
    unfold Crawler.fetchWithoutRedirect. unfold bind at 1, call at 1.
    cbn [backend trace connected].
    destruct (fetch (href u) b1) as [[response2|e2|] b2].
    2,3: (exists [EvFetch url; EvFetch (href u)];
          split; [cbn [snd trace]; rewrite <- app_assoc; reflexivity|];
          split; repeat constructor; assumption).
    destruct (negb (ok response2) || Crawler.isRedirect response2).
    + exists [EvFetch url; EvFetch (href u)].
      split; [cbn [snd trace]; rewrite <- app_assoc; reflexivity|].
      split; repeat constructor; assumption.
    + rewrite readAndParse_world. cbn [trace].
      exists [EvFetch url; EvFetch (href u)].
      split; [rewrite <- app_assoc; reflexivity|].
      split; repeat constructor; assumption.
  - destruct (negb (ok response)).
    + exists [EvFetch url]. split; [reflexivity|].
      split; repeat constructor; exact Hpass.
    + rewrite readAndParse_world.
      exists [EvFetch url]. split; [reflexivity|].
      split; repeat constructor; exact Hpass.
Qed.

(** X9. With a fetcher that logs no visits of its own, [crawlWebsite]
    takes no URL to fetch twice, and every URL it takes to fetch passed the
    URL guard. *)
Theorem crawlWebsite_visits_once `{Platform} {B : Type}
    (fetchPage : jsstring -> M B (option CrawledPage))
    (startUrl : jsstring) (options : CrawlOptions) (w : World B) :
  quiet fetchPage ->
  exists evs,
    trace (snd (Crawler.crawlWebsite fetchPage startUrl options w))
    = trace w ++ evs
    /\ List.NoDup (List.map fst (visitsOf evs))
    /\ Forall (fun v => UrlGuard.isBlockedUrl (fst v) = false) (visitsOf evs).
Proof.
  intros Hq.
  destruct (crawlWebsite_part fetchPage (fun _ => True)
              (fun _ => I) (fun _ _ _ => I) (quiet_guarded _ Hq)
              startUrl options w) as (evs & E & _ & Hn & Hp & _).
  exists evs. auto.
Qed.

(** X10. With a fetcher that logs no visits of its own, [crawlWebsite]
    takes to fetch the start URL at depth 0 and, at the depths from 1 on,
    only links that parse, have no fragment, do not end in one of the
    skipped file extensions, and whose host is one of the allowed domains
    (the host of the start URL when none are given) or a subdomain of
    one. *)
Theorem crawlWebsite_stays_on_domains `{Platform} {B : Type}
    (fetchPage : jsstring -> M B (option CrawledPage))
    (startUrl : jsstring) (options : CrawlOptions) (w : World B) (u : URL) :
  quiet fetchPage ->
  URL_new startUrl None = Some u ->
  exists evs,
    trace (snd (Crawler.crawlWebsite fetchPage startUrl options w))
    = trace w ++ evs
    /\ Forall (queued startUrl (default [hostname u] (allowedDomains options)))
         (visitsOf evs).
Proof.
  intros Hq Hu.
  destruct (crawlWebsite_part fetchPage (fun _ => True)
              (fun _ => I) (fun _ _ _ => I) (quiet_guarded _ Hq)
              startUrl options w) as (evs & E & _ & _ & _ & Hd).
  exists evs. auto.
Qed.

(** X11. Whatever the HTTP backend answers, a crawl with the fetcher of
    the repository fetches no URL that the URL guard blocks: neither a page
    of the crawl nor the target of a redirect. *)
Theorem crawlWebsite_fetches_guarded `{Platform} {B : Type}
    (load : jsstring -> Dom) (fetch : jsstring -> B -> outcome Response * B)
    (clock : B -> Z) (startUrl : jsstring) (options : CrawlOptions)
    (w : World B) :
  exists evs,
    trace (snd (Crawler.crawlWebsite (Crawler.fetchAndParsePage load fetch clock)
                  startUrl options w))
    = trace w ++ evs
    /\ Forall guardedFetch evs.
Proof.
  destruct (crawlWebsite_part (Crawler.fetchAndParsePage load fetch clock)
              guardedFetch (fun _ => I) (fun _ _ _ => I)
              (fetchAndParsePage_guarded load fetch clock)
              startUrl options w) as (evs & E & Hs & _).
  exists evs. auto.
Qed.

Lemma crawlWebsite_visits_once_witness :
  exists evs,
    trace (snd (Site.crawl 1)) = trace Site.world ++ evs
    /\ List.NoDup (List.map fst (visitsOf evs))
    /\ Forall (fun v => @UrlGuard.isBlockedUrl Simple.platform (fst v) = false)
         (visitsOf evs).
Proof.
  exact (@crawlWebsite_visits_once Simple.platform unit _ Site.A
           {| maxDepth := 1; maxPages := None; allowedDomains := None |}
           Site.world
           (@fetchAndParsePage_quiet Simple.platform unit Site.load Site.fetch
              (fun _ => 0))).
Defined.

Lemma crawlWebsite_stays_on_domains_witness :
  exists u evs,
    Simple.newURL Site.A None = Some u
    /\ trace (snd (Site.crawl 1)) = trace Site.world ++ evs
    /\ Forall (@queued Simple.platform Site.A [hostname u]) (visitsOf evs).
Proof.
  destruct (Simple.newURL Site.A None) as [u|] eqn:E;
    [|exfalso; vm_compute in E; discriminate].
  destruct (@crawlWebsite_stays_on_domains Simple.platform unit _ Site.A
              {| maxDepth := 1; maxPages := None; allowedDomains := None |}
              Site.world u
              (@fetchAndParsePage_quiet Simple.platform unit Site.load Site.fetch
                 (fun _ => 0)) E) as (evs & Ht & Hq).
  exists u, evs. auto.
Defined.

(** ** The matcher and the words of an expression (crawler.ts, the host
       patterns of the URL guard) *)

Section RegexFacts.
Import Regex.

Lemma denotes_seq_iff r1 r2 s :
  denotes (Seq r1 r2) s
  <-> exists s1 s2, s = s1 ++ s2 /\ denotes r1 s1 /\ denotes r2 s2.
Proof.
  split.
  - inversion 1; subst; eauto.
  - intros (s1 & s2 & -> & H1 & H2). now constructor.
Qed.

Lemma denotes_alt_iff r1 r2 s :
  denotes (Alt r1 r2) s <-> denotes r1 s \/ denotes r2 s.
Proof.
  split.
  - inversion 1; subst; auto.
  - intros [H1|H2]; [now apply denotes_alt_l|now apply denotes_alt_r].
Qed.

Lemma denotes_eps_iff s : denotes Eps s <-> s = [].
Proof. split; [now inversion 1|intros ->; constructor]. Qed.

Lemma denotes_class_iff p s :
  denotes (InClass p) s <-> exists c, s = [c] /\ p c = true.
Proof.
  split.
  - inversion 1; subst; eauto.
  - intros (c & -> & Hc). now constructor.
Qed.

Lemma nullable_denotes r : nullable r = true <-> denotes r [].
Proof.
  induction r as [| |p|r1 IH1 r2 IH2|r1 IH1 r2 IH2|r IH]; simpl.
  - split; [discriminate|]. intros Hd. inversion Hd.
  - split; [constructor|reflexivity].
  - split; [discriminate|]. intros Hd. inversion Hd.
  - rewrite andb_true_iff, IH1, IH2, denotes_seq_iff. split.
    + intros [H1 H2]. exists [], []. auto.
    + intros (s1 & s2 & E & H1 & H2). symmetry in E.
      apply app_eq_nil in E as [-> ->]. auto.
  - rewrite orb_true_iff, IH1, IH2, denotes_alt_iff. reflexivity.
  - split; [constructor|reflexivity].
Qed.

Lemma denotes_star_cons_inv r c s :
  denotes (Star r) (c :: s) ->
  exists s1 s2, s = s1 ++ s2 /\ denotes r (c :: s1) /\ denotes (Star r) s2.
Proof.
  intros Hd. remember (Star r) as R eqn:ER. remember (c :: s) as t eqn:Et.
  revert s Et.
  induction Hd as [| | | | |r'|r' s1 s2 H1 _ H2 IH2]; try discriminate;
    intros s Et.
  injection ER as ->. destruct s1 as [|c' s1]; simpl in Et.
  - now apply IH2.
  - injection Et as -> <-. exists s1, s2. auto.
Qed.

Lemma deriv_denotes c r s : denotes (deriv c r) s <-> denotes r (c :: s).
Proof.
  revert s.
  induction r as [| |p|r1 IH1 r2 IH2|r1 IH1 r2 IH2|r IH]; intros s; simpl.
  - split; intros Hd; inversion Hd.
  - split; intros Hd; inversion Hd.
  - destruct (p c) eqn:E.
    + rewrite denotes_eps_iff, denotes_class_iff. split.
      * intros ->. eauto.
      * now intros (c' & [= <- ->] & _).
    + split; intros Hd; [inversion Hd|].
      apply denotes_class_iff in Hd as (c' & [= <- ->] & Hp). congruence.
  - assert (denotes (Seq r1 r2) (c :: s)
            <-> (exists s1 s2, s = s1 ++ s2 /\ denotes r1 (c :: s1) /\ denotes r2 s2)
                \/ (denotes r1 [] /\ denotes r2 (c :: s))) as Hseq.
    { rewrite denotes_seq_iff. split.
      - intros (s1 & s2 & E & H1 & H2). destruct s1 as [|c' s1]; simpl in E.
        + right. subst. auto.
        + injection E as <- ->. left. eauto.
      - intros [(s1 & s2 & -> & H1 & H2)|[H1 H2]].
        + exists (c :: s1), s2. auto.
        + exists [], (c :: s). auto. }
    rewrite Hseq. destruct (nullable r1) eqn:En.
    + rewrite denotes_alt_iff, denotes_seq_iff, IH2.
      apply nullable_denotes in En. split.
      * intros [(s1 & s2 & -> & H1 & H2)|H2]; [left|right; auto].
        exists s1, s2. rewrite <- IH1. auto.
      * intros [(s1 & s2 & -> & H1 & H2)|[_ H2]]; [left|right; auto].
        exists s1, s2. rewrite IH1. auto.
    + rewrite denotes_seq_iff. split.
      * intros (s1 & s2 & -> & H1 & H2). left.
        exists s1, s2. rewrite <- IH1. auto.
      * intros [(s1 & s2 & -> & H1 & H2)|[H1 _]].
        -- exists s1, s2. rewrite IH1. auto.
        -- apply nullable_denotes in H1. congruence.
  - rewrite !denotes_alt_iff, IH1, IH2. reflexivity.
  - rewrite denotes_seq_iff. split.
    + intros (s1 & s2 & -> & H1 & H2). apply IH in H1.
      change (c :: s1 ++ s2) with ((c :: s1) ++ s2). now constructor.
    + intros Hd. apply denotes_star_cons_inv in Hd as (s1 & s2 & -> & H1 & H2).
      exists s1, s2. rewrite IH. auto.
Qed.

(** The matcher by derivatives decides the words of an expression. *)
Lemma matches_denotes r s : matches r s = true <-> denotes r s.
Proof.
  unfold matches. revert r. induction s as [|c s IH]; intros r; simpl.
  - apply nullable_denotes.
  - rewrite IH. apply deriv_denotes.
Qed.

Lemma denotes_star_any s : denotes (Star Any) s.
Proof.
  induction s as [|c s IH]; [constructor|].
  change (c :: s) with ([c] ++ s). constructor; [now constructor|exact IH].
Qed.

Lemma test_anchored r s :
  test {| anchoredStart := true; body := r; anchoredEnd := true |} s = true
  <-> denotes r s.
Proof.
  unfold test. cbn [anchoredStart anchoredEnd body].
  rewrite matches_denotes, denotes_seq_iff. split.
  - intros (s1 & s2 & -> & H1 & H2). apply denotes_eps_iff in H1 as ->.
    apply denotes_seq_iff in H2 as (s3 & s4 & -> & H3 & H4).
    apply denotes_eps_iff in H4 as ->. now rewrite app_nil_r.
  - intros Hd. exists [], s. split; [reflexivity|]. split; [constructor|].
    rewrite <- (app_nil_r s). constructor; [exact Hd|constructor].
Qed.

Lemma test_suffix r s :
  test {| anchoredStart := false; body := r; anchoredEnd := true |} s = true
  <-> exists front back, s = front ++ back /\ denotes r back.
Proof.
  unfold test. cbn [anchoredStart anchoredEnd body].
  rewrite matches_denotes, denotes_seq_iff. split.
  - intros (s1 & s2 & -> & _ & H2).
    apply denotes_seq_iff in H2 as (s3 & s4 & -> & H3 & H4).
    apply denotes_eps_iff in H4 as ->. rewrite app_nil_r. eauto.
  - intros (front & back & -> & Hd). exists front, back.
    split; [reflexivity|]. split; [apply denotes_star_any|].
    rewrite <- (app_nil_r back). constructor; [exact Hd|constructor].
Qed.

Lemma denotes_chr c s : denotes (Chr c) s <-> s = [c].
Proof.
  unfold Chr. rewrite denotes_class_iff. split.
  - intros (c' & -> & E). apply N.eqb_eq in E. now subst.
  - intros ->. exists c. split; [reflexivity|apply N.eqb_refl].
Qed.

Lemma denotes_lit l s : denotes (Lit l) s <-> s = l.
Proof.
  revert s. induction l as [|c l IH]; intros s; cbn [Lit fold_right].
  - apply denotes_eps_iff.
  - fold (Lit l). rewrite denotes_seq_iff. split.
    + intros (s1 & s2 & -> & H1 & H2). apply denotes_chr in H1 as ->.
      apply IH in H2 as ->. reflexivity.
    + intros ->. exists [c], l. split; [reflexivity|].
      split; [now apply denotes_chr|now apply IH].
Qed.

Lemma denotes_star_class p s :
  denotes (Star (InClass p)) s <-> forallb p s = true.
Proof.
  split.
  - intros Hd. remember (Star (InClass p)) as R eqn:ER.
    induction Hd as [| | | | |r'|r' s1 s2 H1 _ H2 IH2]; try discriminate;
      [reflexivity|].
    injection ER as ->. apply denotes_class_iff in H1 as (c & -> & Hc).
    simpl. rewrite Hc. now apply IH2.
  - induction s as [|c s IH]; intros Hs; [constructor|].
    simpl in Hs. apply andb_true_iff in Hs as [Hc Hs].
    change (c :: s) with ([c] ++ s). constructor; [now constructor|auto].
Qed.

Lemma denotes_digits s : denotes digits s <-> decimal s.
Proof.
  unfold digits, Plus, decimal. rewrite denotes_seq_iff. split.
  - intros (s1 & s2 & -> & H1 & H2).
    apply denotes_class_iff in H1 as (c & -> & Hc).
    apply denotes_star_class in H2. split; [discriminate|].
    simpl. now rewrite Hc.
  - intros [Hne Hs]. destruct s as [|c s]; [contradiction|].
    simpl in Hs. apply andb_true_iff in Hs as [Hc Hs].
    exists [c], s. split; [reflexivity|].
    split; [now constructor|now apply denotes_star_class].
Qed.

Lemma denotes_range lo hi s :
  denotes (range lo hi) s <-> exists c, s = [c] /\ (lo <= c <= hi)%N.
Proof.
  unfold range. rewrite denotes_class_iff. split.
  - intros (c & -> & [H1 H2]%andb_true_iff).
    apply N.leb_le in H1, H2. eauto.
  - intros (c & -> & H1 & H2). exists c. split; [reflexivity|].
    apply andb_true_iff. split; now apply N.leb_le.
Qed.
End RegexFacts.

(** ** What the URL guard blocks (crawler.ts, [isBlockedUrl]) *)

Section GuardFacts.
Context `{Platform}.
Import Regex UrlGuard.

Lemma test_suffix_lit l s :
  test {| anchoredStart := false; body := Lit l; anchoredEnd := true |} s = true
  <-> exists front, s = front ++ l.
Proof.
  rewrite test_suffix. split.
  - intros (front & back & -> & Hd). apply denotes_lit in Hd as ->. eauto.
  - intros (front & ->). exists front, l. split; [reflexivity|].
    now apply denotes_lit.
Qed.

Lemma denotes_private10 s :
  denotes
    (Seq (Lit (str "10"))
       (Seq dot (Seq digits (Seq dot (Seq digits (Seq dot digits))))))
    s
  <-> private10 s.
Proof.
  split.
  - intros Hd.
    apply denotes_seq_iff in Hd as (x1 & y1 & -> & H1 & Hd).
    apply denotes_lit in H1 as ->.
    apply denotes_seq_iff in Hd as (x2 & y2 & -> & H2 & Hd).
    apply denotes_chr in H2 as ->.
    apply denotes_seq_iff in Hd as (a & y3 & -> & Ha & Hd).
    apply denotes_digits in Ha.
    apply denotes_seq_iff in Hd as (x4 & y4 & -> & H4 & Hd).
    apply denotes_chr in H4 as ->.
    apply denotes_seq_iff in Hd as (b & y5 & -> & Hb & Hd).
    apply denotes_digits in Hb.
    apply denotes_seq_iff in Hd as (x6 & c & -> & H6 & Hc).
    apply denotes_chr in H6 as ->. apply denotes_digits in Hc.
    exists a, b, c. auto.
  - intros (a & b & c & Ha & Hb & Hc & ->).
    repeat (apply denotes_seq;
            [first [now apply denotes_lit | now apply denotes_chr
                   | now apply denotes_digits]|]).
    now apply denotes_digits.
Qed.

Lemma denotes_octet172 x :
  denotes
    (Alts [Seq (Chr 49) (range 54 57); Seq (Chr 50) (InClass isDigit);
           Seq (Chr 51) (range 48 49)])
    x
  <-> exists n : nat, (16 <= n <= 31)%nat /\ x = numToString n.
Proof.
  split.
  - cbn [Alts fold_right]. intros Hd.
    apply denotes_alt_iff in Hd as [Hd|Hd];
      [|apply denotes_alt_iff in Hd as [Hd|Hd];
        [|apply denotes_alt_iff in Hd as [Hd|Hd]; [|inversion Hd]]];
      apply denotes_seq_iff in Hd as (x1 & x2 & -> & H1 & H2);
      apply denotes_chr in H1 as ->.
    + apply denotes_range in H2 as (d & -> & Hd).
      assert (d = 54 \/ d = 55 \/ d = 56 \/ d = 57)%N as Hcases by lia.
      destruct Hcases as [->|[->|[->| ->]]];
        [exists 16%nat|exists 17%nat|exists 18%nat|exists 19%nat];
        (split; [lia|reflexivity]).
    + apply denotes_class_iff in H2 as (d & -> & Hd).
      unfold isDigit in Hd. apply andb_true_iff in Hd as [Hd1 Hd2].
      apply N.leb_le in Hd1, Hd2.
      assert (d = 48 \/ d = 49 \/ d = 50 \/ d = 51 \/ d = 52 \/ d = 53
              \/ d = 54 \/ d = 55 \/ d = 56 \/ d = 57)%N as Hcases by lia.
      destruct Hcases as [->|[->|[->|[->|[->|[->|[->|[->|[->| ->]]]]]]]]];
        [exists 20%nat|exists 21%nat|exists 22%nat|exists 23%nat|exists 24%nat
        |exists 25%nat|exists 26%nat|exists 27%nat|exists 28%nat|exists 29%nat];
        (split; [lia|reflexivity]).
    + apply denotes_range in H2 as (d & -> & Hd).
      assert (d = 48 \/ d = 49)%N as Hcases by lia.
      destruct Hcases as [->| ->]; [exists 30%nat|exists 31%nat];
        (split; [lia|reflexivity]).
  - intros (n & Hn & ->). apply matches_denotes.
    assert (n = 16 \/ n = 17 \/ n = 18 \/ n = 19 \/ n = 20 \/ n = 21 \/ n = 22
            \/ n = 23 \/ n = 24 \/ n = 25 \/ n = 26 \/ n = 27 \/ n = 28
            \/ n = 29 \/ n = 30 \/ n = 31)%nat as Hcases by lia.
    repeat (destruct Hcases as [->|Hcases]; [vm_compute; reflexivity|]).
    subst n. vm_compute. reflexivity.
Qed.

Lemma denotes_private172 s :
  denotes
    (Seq (Lit (str "172"))
       (Seq dot
          (Seq (Alts [Seq (Chr 49) (range 54 57);
                      Seq (Chr 50) (InClass isDigit);
                      Seq (Chr 51) (range 48 49)])
             (Seq dot (Seq digits (Seq dot digits))))))
    s
  <-> private172 s.
Proof.
  split.
  - intros Hd.
    apply denotes_seq_iff in Hd as (x1 & y1 & -> & H1 & Hd).
    apply denotes_lit in H1 as ->.
    apply denotes_seq_iff in Hd as (x2 & y2 & -> & H2 & Hd).
    apply denotes_chr in H2 as ->.
    apply denotes_seq_iff in Hd as (a & y3 & -> & Ha & Hd).
    apply denotes_octet172 in Ha as (n & Hn & ->).
    apply denotes_seq_iff in Hd as (x4 & y4 & -> & H4 & Hd).
    apply denotes_chr in H4 as ->.
    apply denotes_seq_iff in Hd as (b & y5 & -> & Hb & Hd).
    apply denotes_digits in Hb.
    apply denotes_seq_iff in Hd as (x6 & c & -> & H6 & Hc).
    apply denotes_chr in H6 as ->. apply denotes_digits in Hc.
    exists n, b, c. auto.
  - intros (n & b & c & Hn & Hb & Hc & ->).
    apply denotes_seq; [now apply denotes_lit|].
    apply denotes_seq; [now apply denotes_chr|].
    apply denotes_seq; [apply denotes_octet172; eauto|].
    apply denotes_seq; [now apply denotes_chr|].
    apply denotes_seq; [now apply denotes_digits|].
    apply denotes_seq; [now apply denotes_chr|].
    now apply denotes_digits.
Qed.

Lemma denotes_private192 s :
  denotes
    (Seq (Lit (str "192"))
       (Seq dot (Seq (Lit (str "168"))
          (Seq dot (Seq digits (Seq dot digits))))))
    s
  <-> private192 s.
Proof.
  split.
  - intros Hd.
    apply denotes_seq_iff in Hd as (x1 & y1 & -> & H1 & Hd).
    apply denotes_lit in H1 as ->.
    apply denotes_seq_iff in Hd as (x2 & y2 & -> & H2 & Hd).
    apply denotes_chr in H2 as ->.
    apply denotes_seq_iff in Hd as (a & y3 & -> & Ha & Hd).
    apply denotes_lit in Ha as ->.
    apply denotes_seq_iff in Hd as (x4 & y4 & -> & H4 & Hd).
    apply denotes_chr in H4 as ->.
    apply denotes_seq_iff in Hd as (b & y5 & -> & Hb & Hd).
    apply denotes_digits in Hb.
    apply denotes_seq_iff in Hd as (x6 & c & -> & H6 & Hc).
    apply denotes_chr in H6 as ->. apply denotes_digits in Hc.
    exists b, c. auto.
  - intros (b & c & Hb & Hc & ->).
    repeat (apply denotes_seq;
            [first [now apply denotes_lit | now apply denotes_chr
                   | now apply denotes_digits]|]).
    now apply denotes_digits.
Qed.

Lemma port_blocked (port : jsstring) :
  truthy port && negb (includes [str "80"; str "443"; []] port) = true
  <-> port <> [] /\ port <> str "80" /\ port <> str "443".
Proof.
  rewrite andb_true_iff, negb_true_iff. split.
  - intros [Ht Hi]. repeat split; intros ->; try discriminate.
  - intros (H1 & H2 & H3). split.
    + destruct port; [contradiction|reflexivity].
    + destruct (includes _ port) eqn:E; [|reflexivity].
      apply includes_In in E. simpl in E.
      destruct E as [E|[E|[E|[]]]]; congruence.
Qed.

Lemma verdict_blockedHost (host port : jsstring) :
  verdict host port = true <-> blockedHost host port.
Proof.
  unfold verdict, blockedHost, BLOCKED_HOSTNAME_PATTERNS. cbn [existsb].
  rewrite !orb_true_iff, includes_In, !test_anchored, !test_suffix_lit,
    denotes_private10, denotes_private172, denotes_private192, port_blocked.
  intuition discriminate.
Qed.

(** X12. The URL guard blocks a URL exactly when it does not parse, or
    its host in lower case is one of the six listed names, or reads
    [10.a.b.c], [172.n.b.c] with [n] from 16 to 31, or [192.168.b.c] (the
    other parts being one or more digits), or ends in [.local] or
    [.internal], or its port is given and is neither 80 nor 443. *)
Theorem isBlockedUrl_exactly (url : jsstring) :
  isBlockedUrl url = true
  <-> match URL_new url None with
      | Some parsed => blockedHost (toLowerCase (hostname parsed)) (port parsed)
      | None => True
      end.
Proof.
  destruct (URL_new url None) as [parsed|] eqn:E.
  - rewrite (isBlockedUrl_parsed _ _ E). apply verdict_blockedHost.
  - unfold isBlockedUrl. rewrite E. tauto.
Qed.
End GuardFacts.

(** ** The fused list (vectorstore.ts, [reciprocalRankFusion]) *)

Section FusionShape.
Import VectorStore.

Lemma str_eqb_sym (s t : jsstring) : str_eqb s t = str_eqb t s.
Proof.
  destruct (str_eqb s t) eqn:E.
  - apply str_eqb_eq in E. subst. symmetry. apply str_eqb_refl.
  - destruct (str_eqb t s) eqn:E'; [|reflexivity].
    apply str_eqb_eq in E'. subst. now rewrite str_eqb_refl in E.
Qed.

Lemma hasKey_includes {V} (key : jsstring) (m : list (jsstring * V)) :
  hasKey key m = includes (List.map fst m) key.
Proof.
  unfold hasKey, includes. induction m as [|[k' v] m IH]; [reflexivity|].
  simpl. now rewrite IH, str_eqb_sym.
Qed.

Lemma addScore_keys key x scores :
  List.map fst (addScore key x scores) = List.map fst scores.
Proof.
  induction scores as [|[k' e] rest IH]; [reflexivity|].
  simpl. destruct (str_eqb k' key); simpl; [reflexivity|now rewrite IH].
Qed.

Lemma addScore_results key x scores :
  List.map (fun kv => scored_result (snd kv)) (addScore key x scores)
  = List.map (fun kv => scored_result (snd kv)) scores.
Proof.
  induction scores as [|[k' e] rest IH]; [reflexivity|].
  simpl. destruct (str_eqb k' key); simpl; [reflexivity|now rewrite IH].
Qed.

(** The keys of the map after a pass: those before it, and then the new
    keys of the list in the order of their first occurrence. *)
Lemma rrf_pass_keys k results i scores :
  List.map fst (rrf_pass k results i scores)
  = fold_left Crawler.set_add (List.map dedupKey results) (List.map fst scores).
Proof.
  revert i scores. induction results as [|result rest IH]; intros i scores;
    [reflexivity|].
  cbn [rrf_pass List.map fold_left]. rewrite IH. f_equal.
  rewrite hasKey_includes. unfold Crawler.set_add.
  destruct (includes (List.map fst scores) (dedupKey result)).
  - apply addScore_keys.
  - now rewrite List.map_app.
Qed.

Lemma addScore_entries pool key x scores :
  entriesFrom pool scores -> entriesFrom pool (addScore key x scores).
Proof.
  unfold entriesFrom. induction 1 as [|[k' e] rest Hkv Hrest IH]; [constructor|].
  simpl. destruct (str_eqb k' key); constructor; auto.
Qed.

Lemma rrf_pass_entries pool k results i scores :
  entriesFrom pool scores ->
  (forall r, In r results -> In r pool) ->
  entriesFrom pool (rrf_pass k results i scores).
Proof.
  revert i scores. induction results as [|result rest IH];
    intros i scores Hs Hpool; [exact Hs|].
  cbn [rrf_pass]. apply IH; [|intros r Hr; apply Hpool; now right].
  destruct (hasKey (dedupKey result) scores).
  - now apply addScore_entries.
  - apply Forall_app. split; [exact Hs|].
    constructor; [|constructor]. cbn [fst snd scored_result].
    split; [reflexivity|]. apply Hpool. now left.
Qed.

Lemma scoreOf_In key e scores :
  List.NoDup (List.map fst scores) -> In (key, e) scores ->
  scoreOf key scores = Some (scored_score e).
Proof.
  induction scores as [|[k' e'] rest IH]; intros Hn Hin; [destruct Hin|].
  cbn [List.map fst] in Hn. apply List.NoDup_cons_iff in Hn as [Hk' Hn].
  simpl. destruct Hin as [[= -> ->]|Hin].
  - now rewrite str_eqb_refl.
  - destruct (str_eqb k' key) eqn:E; [|now apply IH].
    apply str_eqb_eq in E. subst k'. exfalso. apply Hk'.
    apply in_map_iff. now exists (key, e).
Qed.

Lemma rrfScores_keys results1 results2 k :
  List.map fst (rrfScores results1 results2 k)
  = dedup (List.map dedupKey (results1 ++ results2)).
Proof.
  unfold rrfScores, dedup. rewrite !rrf_pass_keys, List.map_app, fold_left_app.
  reflexivity.
Qed.

Lemma rrfScores_entries results1 results2 k :
  entriesFrom (results1 ++ results2) (rrfScores results1 results2 k).
Proof.
  unfold rrfScores. apply rrf_pass_entries.
  - apply rrf_pass_entries; [constructor|].
    intros r Hr. apply in_or_app. now left.
  - intros r Hr. apply in_or_app. now right.
Qed.

Lemma arr_slice_prefix {A} (l : list A) (n : Z) :
  0 <= n -> arr_slice l 0 n = firstn (Z.to_nat n) l.
Proof.
  intros Hn. unfold arr_slice, len. cbn [Z.ltb Z.compare].
  destruct (n <? 0) eqn:E; [apply Z.ltb_lt in E; lia|].
  replace (Z.min 0 (Z.of_nat (length l))) with 0 by lia.
  rewrite Z.sub_0_r. change (skipn (Z.to_nat 0) l) with l.
  destruct (Z.le_gt_cases n (Z.of_nat (length l))) as [Hle|Hgt].
  - now rewrite Z.min_l by exact Hle.
  - rewrite Z.min_r by lia. rewrite Nat2Z.id.
    rewrite !firstn_all2 by lia. reflexivity.
Qed.

Lemma fused_length (results1 results2 : list SearchResult) (topK : Z)
    (k : option float) :
  0 <= topK ->
  length (reciprocalRankFusion results1 results2 topK k)
  = Nat.min (Z.to_nat topK)
      (length (dedup (List.map dedupKey (results1 ++ results2)))).
Proof.
  intros HtopK. unfold reciprocalRankFusion.
  rewrite arr_slice_prefix by exact HtopK.
  rewrite length_map, length_firstn.
  rewrite (Permutation_length (stable_sort_perm _ _)), length_map.
  rewrite <- (rrfScores_keys results1 results2 (default RRF_K k)), length_map.
  reflexivity.
Qed.

Lemma fused_keys_distinct (results1 results2 : list SearchResult) (topK : Z)
    (k : option float) :
  0 <= topK ->
  List.NoDup (List.map dedupKey (reciprocalRankFusion results1 results2 topK k)).
Proof.
  intros HtopK. unfold reciprocalRankFusion.
  set (scores := rrfScores results1 results2 (default RRF_K k)).
  set (after := fun a b : Scored => (0 <? scored_score b - scored_score a)%float).
  set (sorted := stable_sort after (List.map snd scores)).
  rewrite arr_slice_prefix by exact HtopK.
  pose proof (rrfScores_keys results1 results2 (default RRF_K k)) as Hkeys.
  pose proof (rrfScores_entries results1 results2 (default RRF_K k)) as Hentries.
  fold scores in Hkeys, Hentries. unfold entriesFrom in Hentries.
  rewrite List.Forall_forall in Hentries.
  rewrite List.map_map.
  change (fun x : Scored => dedupKey _)
    with (fun x : Scored => dedupKey (scored_result x)).
  assert (List.NoDup (List.map (fun x => dedupKey (scored_result x)) sorted))
    as Hall.
  { apply (Permutation_NoDup
             (l := List.map (fun x => dedupKey (scored_result x))
                     (List.map snd scores))).
    - apply Permutation_map. symmetry. apply stable_sort_perm.
    - rewrite List.map_map.
      rewrite (map_ext_in _ fst);
        [rewrite Hkeys; apply dedup_NoDup|].
      intros kv Hkv. now apply Hentries. }
  rewrite <- (firstn_skipn (Z.to_nat topK) sorted), List.map_app in Hall.
  now apply List.NoDup_app_remove_r in Hall.
Qed.

(** X13. For a [topK] of 0 or more, the fused list has [topK] results, or
    as many as the two lists have different keys when these are fewer; no
    two results of it have the same key; and each of them has the text, url
    and title of a result of the two lists and the fused score of its key
    as score. *)
Theorem reciprocalRankFusion_shape (results1 results2 : list SearchResult)
    (topK : Z) (k : option float) :
  0 <= topK ->
  length (reciprocalRankFusion results1 results2 topK k)
  = Nat.min (Z.to_nat topK)
      (length (dedup (List.map dedupKey (results1 ++ results2))))
  /\ List.NoDup (List.map dedupKey (reciprocalRankFusion results1 results2 topK k))
  /\ Forall (fusedFrom results1 results2 (default RRF_K k))
       (reciprocalRankFusion results1 results2 topK k).
Proof.
  intros HtopK.
  split; [now apply fused_length|]. split; [now apply fused_keys_distinct|].
  unfold reciprocalRankFusion.
  set (scores := rrfScores results1 results2 (default RRF_K k)).
  set (after := fun a b : Scored => (0 <? scored_score b - scored_score a)%float).
  set (sorted := stable_sort after (List.map snd scores)).
  rewrite arr_slice_prefix by exact HtopK.
  assert (Permutation sorted (List.map snd scores)) as HP
    by apply stable_sort_perm.
  pose proof (rrfScores_keys results1 results2 (default RRF_K k)) as Hkeys.
  pose proof (rrfScores_entries results1 results2 (default RRF_K k)) as Hentries.
  fold scores in Hkeys, Hentries. unfold entriesFrom in Hentries.
  rewrite List.Forall_forall in Hentries.
  assert (List.NoDup (List.map fst scores)) as Hnd
    by (rewrite Hkeys; apply dedup_NoDup).
  apply List.Forall_forall. intros r (e & <- & He)%in_map_iff.
  assert (In e sorted) as Hs.
  { rewrite <- (firstn_skipn (Z.to_nat topK) sorted).
    apply in_or_app. now left. }
  apply (Permutation_in _ HP), in_map_iff in Hs as ([key e'] & He' & Hkv).
  cbn [snd] in He'. subst e'.
  destruct (Hentries _ Hkv) as [Hkey Hpool]. cbn [fst snd] in Hkey, Hpool.
  exists (scored_result e). cbn [res_text res_url res_title res_score].
  repeat split; [exact Hpool|].
  rewrite Hkey. now apply scoreOf_In.
Qed.
End FusionShape.

Lemma reciprocalRankFusion_shape_witness :
  length (VectorStore.reciprocalRankFusion [hit_x; hit_y; hit_z]
            [hit_y; hit_x; hit_w] 3 None) = 3%nat
  /\ List.NoDup
       (List.map VectorStore.dedupKey
          (VectorStore.reciprocalRankFusion [hit_x; hit_y; hit_z]
             [hit_y; hit_x; hit_w] 3 None)).
Proof.
  destruct (reciprocalRankFusion_shape [hit_x; hit_y; hit_z]
              [hit_y; hit_x; hit_w] 3 None ltac:(lia)) as (Hlen & Hnd & _).
  split; [|exact Hnd]. rewrite Hlen. vm_compute. reflexivity.
Defined.

(** ** The listed sources (vectorstore.ts, [listSources]) *)

Section CatalogShape.
Context `{Platform}.
Import VectorStore IdealStore.

Lemma dedup_length_le (l : list jsstring) : (length (dedup l) <= length l)%nat.
Proof.
  induction l as [|x l IH] using rev_ind; [reflexivity|].
  rewrite dedup_snoc, length_app. unfold Crawler.set_add.
  destruct (includes (dedup l) x); [|rewrite length_app]; simpl; lia.
Qed.

Lemma dedup_length_pos (l : list jsstring) :
  l <> [] -> (1 <= length (dedup l))%nat.
Proof.
  destruct l as [|x l]; [contradiction|]. intros _.
  assert (In x (dedup (x :: l))) as Hin by (apply dedup_In; now left).
  destruct (dedup (x :: l)); [destruct Hin|simpl; lia].
Qed.

Lemma under_nonempty (base : jsstring) (l : list Metadata) :
  In base (List.map baseOf l) -> under base l <> [].
Proof.
  intros (m & <- & Hm)%in_map_iff Hnil.
  assert (In m (under (baseOf m) l)) as Hin.
  { unfold under. apply filter_In. split; [exact Hm|apply str_eqb_refl]. }
  rewrite Hnil in Hin. destruct Hin.
Qed.

(** What the catalog of a list of metadata says of every source. *)
Lemma catalog_counts (l : list Metadata) :
  List.NoDup (List.map src_url (List.map toSourceInfo (catalog l)))
  /\ Forall (fun s => (1 <= src_pageCount s <= src_chunkCount s)%nat)
       (List.map toSourceInfo (catalog l)).
Proof.
  unfold catalog. rewrite !List.map_map. cbn [toSourceInfo src_url].
  split.
  - rewrite map_id. apply dedup_NoDup.
  - apply List.Forall_forall. intros s (base & <- & Hbase)%in_map_iff.
    cbn [src_pageCount src_chunkCount entryOf entry_pageUrls entry_chunkCount].
    apply (proj1 (dedup_In _ _)), under_nonempty in Hbase.
    split.
    + apply dedup_length_pos. destruct (under base l); [contradiction|discriminate].
    + rewrite <- (length_map md_url (under base l)). apply dedup_length_le.
Qed.

Section AnyStore.
Context {B : Type}.
Variable connect : B -> outcome unit * B.
Variable col_get : nat -> nat -> B -> outcome GetResponse * B.

(** Whatever the store answers, the map that the loop returns is the
    catalog of the metadata it has read. *)
Lemma listSources_loop_catalog fuel (l : list Metadata) o (w w' : World B) sourceMap :
  listSources_loop col_get fuel (catalog l) o w = (Returns sourceMap, w') ->
  exists l', sourceMap = catalog l'.
Proof.
  revert l o w. induction fuel as [|fuel IH]; intros l o w; [discriminate|].
  cbn [listSources_loop]. unfold bind at 1, call at 1.
  destruct (col_get BATCH_SIZE o (backend w)) as [[batch|e|] b1];
    [|discriminate|discriminate].
  destruct (metadatas batch) as [ms|]; [|intros [= <- _]; eauto].
  destruct (length ms =? 0)%nat; [intros [= <- _]; eauto|].
  rewrite fold_addMeta.
  destruct (length ms =? BATCH_SIZE)%nat; [apply IH|intros [= <- _]; eauto].
Qed.

(** X14. Whatever the store answers, the sources that [listSources]
    returns have pairwise different urls, and each of them counts at least
    one page and at least as many chunks as pages. *)
Theorem listSources_counts (fuel : nat) (w w' : World B)
    (sources : list SourceInfo) :
  listSources connect col_get fuel w = (Returns sources, w') ->
  List.NoDup (List.map src_url sources)
  /\ Forall (fun s => (1 <= src_pageCount s <= src_chunkCount s)%nat) sources.
Proof.
  unfold listSources. unfold bind at 1.
  destruct (getCollection connect w) as [[[]|e|] w1];
    [|discriminate|discriminate].
  unfold bind at 1.
  destruct (listSources_loop col_get fuel [] 0 w1) as [[sourceMap|e|] w2] eqn:E;
    [|discriminate|discriminate].
  unfold ret. intros [= <- _].
  change (@nil (jsstring * SourceEntry)) with (catalog []) in E.
  apply listSources_loop_catalog in E as [l' ->].
  apply catalog_counts.
Qed.
End AnyStore.

Lemma count_one (a : jsstring) (keys : list jsstring) :
  List.NoDup keys -> In a keys ->
  list_sum (List.map (fun k => if str_eqb a k then 1 else 0)%nat keys) = 1%nat.
Proof.
  induction 1 as [|k keys Hk Hnd IH]; intros Hin; [destruct Hin|].
  cbn [List.map list_sum fold_right]. fold (list_sum (List.map (fun k => if str_eqb a k then 1 else 0)%nat keys)).
  destruct (str_eqb a k) eqn:E.
  - apply str_eqb_eq in E. subst k.
    assert (list_sum (List.map (fun k => if str_eqb a k then 1 else 0)%nat keys) = 0%nat)
      as ->; [|reflexivity].
    clear IH Hin Hnd. induction keys as [|k keys IH]; [reflexivity|].
    cbn [List.map list_sum fold_right].
    destruct (str_eqb a k) eqn:E.
    + apply str_eqb_eq in E. subst. exfalso. apply Hk. now left.
    + apply IH. intros Hin. apply Hk. now right.
  - destruct Hin as [->|Hin]; [now rewrite str_eqb_refl in E|]. now apply IH.
Qed.

Lemma under_sum (keys : list jsstring) (l : list Metadata) :
  List.NoDup keys -> (forall m, In m l -> In (baseOf m) keys) ->
  list_sum (List.map (fun base => length (under base l)) keys) = length l.
Proof.
  intros Hnd. induction l as [|m l IH]; intros Hall.
  - clear Hnd Hall. induction keys as [|k keys IHk]; [reflexivity|exact IHk].
  - assert (list_sum (List.map (fun base => length (under base (m :: l))) keys)
            = (list_sum (List.map (fun k => if str_eqb (baseOf m) k then 1 else 0)
                           keys)
               + list_sum (List.map (fun base => length (under base l)) keys))%nat)
      as ->.
    { unfold under. clear. induction keys as [|k keys IHk]; [reflexivity|].
      cbn [List.map].
      change (list_sum (?x :: ?r)) with (x + list_sum r)%nat.
      rewrite IHk. cbn [List.filter].
      destruct (str_eqb (baseOf m) k); simpl; lia. }
    rewrite IH by (intros m' Hm'; apply Hall; now right).
    rewrite (count_one (baseOf m) keys Hnd) by (apply Hall; now left).
    reflexivity.
Qed.

(** X15. Over a store that behaves, with fuel for its records, the chunk
    counts of the sources that [listSources] returns add up to the number
    of stored records that have metadata: every such record is counted
    under one source. *)
Theorem listSources_counts_all (b : store) (fuel : nat) :
  (length b < fuel)%nat ->
  exists sources w',
    listSources IdealStore.connect IdealStore.col_get fuel (world b)
    = (Returns sources, w')
    /\ list_sum (List.map src_chunkCount sources) = length (storedMetadata b).
Proof.
  intros Hfuel. unfold listSources, getCollection, world.
  unfold bind at 1 2, get_connected, call at 1, IdealStore.connect, set_connected.
  unfold bind at 1. cbn [backend trace connected].
  destruct (listSources_loop_ideal fuel b 0 ([] ++ [EvConnect]) true) as [tr' E];
    [lia|].
  change (catalog (storedMetadata (firstn 0 b)))
    with (@nil (jsstring * SourceEntry)) in E.
  unfold bind. rewrite E. unfold ret. eexists _, _. split; [reflexivity|].
  unfold catalog. rewrite !List.map_map.
  cbn [toSourceInfo src_chunkCount entryOf entry_chunkCount].
  apply under_sum; [apply dedup_NoDup|].
  intros m Hm. apply dedup_In, in_map. exact Hm.
Qed.
End CatalogShape.

Lemma listSources_counts_witness :
  exists sources w',
    @VectorStore.listSources Simple.platform _ IdealStore.connect
      IdealStore.col_get 3 (IdealStore.world twoCrawls) = (Returns sources, w')
    /\ List.NoDup (List.map src_url sources)
    /\ Forall (fun s => (1 <= src_pageCount s <= src_chunkCount s)%nat) sources.
Proof.
  destruct (@VectorStore.listSources Simple.platform _ IdealStore.connect
              IdealStore.col_get 3 (IdealStore.world twoCrawls))
    as [[sources|e|] w'] eqn:E; try (exfalso; vm_compute in E; discriminate).
  exists sources, w'. split; [reflexivity|].
  exact (@listSources_counts Simple.platform _ IdealStore.connect
           IdealStore.col_get 3 (IdealStore.world twoCrawls) w' sources E).
Defined.

Lemma listSources_counts_all_witness :
  exists sources w',
    @VectorStore.listSources Simple.platform _ IdealStore.connect
      IdealStore.col_get 3 (IdealStore.world twoCrawls) = (Returns sources, w')
    /\ list_sum (List.map src_chunkCount sources) = 2%nat.
Proof.
  exact (@listSources_counts_all Simple.platform twoCrawls 3 ltac:(simpl; lia)).
Defined.

(** ** Deleting twice (vectorstore.ts, [deleteByUrl], [getCollection]) *)

Section DeleteTwice.
Context `{Platform}.
Import VectorStore IdealStore.

(** A scan of records of which none matches: reads only, and the store
    stays. *)
Lemma deleteByUrl_loop_clean fuel baseUrl (b : store) o t tr c :
  List.filter (matchesBase baseUrl) (skipn o b) = [] ->
  (length (skipn o b) < fuel)%nat ->
  exists evs,
    deleteByUrl_loop col_get col_delete fuel baseUrl t o (mkWorld b tr c)
    = (Returns t, mkWorld b (tr ++ evs) c)
    /\ Forall isGet evs.
Proof.
  revert o t tr. induction fuel as [|fuel IH]; intros o t tr Hclean Hfuel; [lia|].
  rewrite deleteByUrl_loop_round. cbv zeta.
  assert (isGet (EvGet BATCH_SIZE o)) as Hget by (now exists BATCH_SIZE, o).
  assert (List.filter (matchesBase baseUrl) (firstn BATCH_SIZE (skipn o b)) = [])
    as Hpage.
  { rewrite <- (firstn_skipn BATCH_SIZE (skipn o b)), List.filter_app in Hclean.
    now apply app_eq_nil in Hclean as [Hclean _]. }
  rewrite Hpage. cbn [length Nat.ltb Nat.leb].
  destruct (length (firstn BATCH_SIZE (skipn o b)) =? 0)%nat;
    [exists [EvGet BATCH_SIZE o]; split; [reflexivity|now constructor]|].
  destruct (length (firstn BATCH_SIZE (skipn o b)) =? BATCH_SIZE)%nat eqn:Efull;
    [|exists [EvGet BATCH_SIZE o]; split; [reflexivity|now constructor]].
  apply Nat.eqb_eq in Efull. rewrite Efull.
  pose proof BATCH_SIZE_pos as Hpos.
  assert (skipn (o + BATCH_SIZE) b = skipn BATCH_SIZE (skipn o b)) as Hskip
    by (now rewrite skipn_skipn, Nat.add_comm).
  destruct (IH (o + BATCH_SIZE)%nat t (tr ++ [EvGet BATCH_SIZE o]))
    as (evs & E & Hevs).
  - rewrite Hskip.
    rewrite <- (firstn_skipn BATCH_SIZE (skipn o b)), List.filter_app in Hclean.
    now apply app_eq_nil in Hclean as [_ Hclean].
  - rewrite Hskip, length_skipn. rewrite length_firstn in Efull. lia.
  - exists (EvGet BATCH_SIZE o :: evs). unfold mkWorld in *. rewrite E.
    split; [now rewrite <- app_assoc|now constructor].
Qed.

(** X16. Over a store that behaves, with records of different ids and
    fuel for them: after [deleteByUrl(url)] has run, a second run for the
    same url returns 0 and leaves the store as it is; it only reads pages
    of the collection: it neither deletes nor connects again. *)
Theorem deleteByUrl_twice (b : store) (url : jsstring) (fuel : nat) :
  List.NoDup (List.map rec_id b) ->
  (length b < fuel)%nat ->
  exists n w1 evs,
    deleteByUrl connect col_get col_delete fuel url (world b) = (Returns n, w1)
    /\ deleteByUrl connect col_get col_delete fuel url w1
       = (Returns 0%nat, after w1 (backend w1) evs)
    /\ Forall isGet evs.
Proof.
  intros Hnd Hfuel.
  assert (deleteByUrl connect col_get col_delete fuel url (world b)
          = deleteByUrl_loop col_get col_delete fuel (getBaseUrl url) 0 0
              (mkWorld b [EvConnect] true)) as Hfirst.
  { unfold deleteByUrl, getCollection, world.
    unfold bind at 1 2, get_connected, call at 1, connect, set_connected.
    unfold bind at 1. reflexivity. }
  destruct (deleteByUrl_loop_ideal fuel (getBaseUrl url) b 0 0 [EvConnect] true Hnd)
    as (evs1 & E1 & _).
  { change (skipn 0 b) with b. lia. }
  change (skipn 0 b) with b in E1. change (firstn 0 b) with (@nil StoredRecord) in E1.
  cbn [app Nat.add] in E1.
  set (b' := List.filter (keeps (getBaseUrl url)) b) in *.
  destruct (deleteByUrl_loop_clean fuel (getBaseUrl url) b' 0 0
              (EvConnect :: evs1) true) as (evs2 & E2 & Hevs2).
  { change (skipn 0 b') with b'. unfold b'.
    change (keeps (getBaseUrl url))
      with (fun r => negb (matchesBase (getBaseUrl url) r)).
    apply filter_negb_filter. }
  { change (skipn 0 b') with b'. unfold b'.
    pose proof (filter_split_length (matchesBase (getBaseUrl url)) b) as Hlen.
    change (fun x => negb (matchesBase (getBaseUrl url) x))
      with (keeps (getBaseUrl url)) in Hlen. lia. }
  eexists _, _, evs2. rewrite Hfirst, E1. split; [reflexivity|].
  split; [|exact Hevs2].
  unfold deleteByUrl, getCollection.
  unfold bind at 1 2, get_connected. cbn [mkWorld connected].
  unfold ret at 1. exact E2.
Qed.
End DeleteTwice.

Lemma deleteByUrl_twice_witness :
  exists n w1 evs,
    @VectorStore.deleteByUrl Simple.platform _
      IdealStore.connect IdealStore.col_get IdealStore.col_delete
      3 (str "https://docs.example.com/intro") (IdealStore.world twoCrawls)
    = (Returns n, w1)
    /\ @VectorStore.deleteByUrl Simple.platform _
         IdealStore.connect IdealStore.col_get IdealStore.col_delete
         3 (str "https://docs.example.com/intro") w1
       = (Returns 0%nat, after w1 (backend w1) evs)
    /\ Forall isGet evs.
Proof.
  apply (@deleteByUrl_twice Simple.platform twoCrawls
           (str "https://docs.example.com/intro") 3).
  - apply distinctb_NoDup. vm_compute. reflexivity.
  - simpl. lia.
Defined.

(** ** The tools over their services (tools/crawl.ts, tools/delete.ts) *)

Section ToolRejects.
Context `{Platform} {B : Type}.
Variable ensureModelAvailable : M B bool.
Variable crawlWebsite : jsstring -> CrawlOptions -> M B (list CrawledPage).
Variable addChunks : list Chunk -> M B nat.
Import Tools.

(** X17. What the crawl tool turns down before it crawls. A [max_depth]
    that is given and is no integer of 0 or more, a URL that does not
    parse, and a URL of another protocol than [http:] and [https:] are
    answered with a failure that names the reason, and no service is
    called: the world stays as it is; the depth is looked at first. When the
    embedding model is not there, the answer is a failure too, and the
    crawler is not called. *)
Theorem crawlAndIndex_rejects (input : CrawlAndIndexInput) (w : World B) :
  (invalidDepth (crawl_max_depth input) = true ->
   crawlAndIndex ensureModelAvailable crawlWebsite addChunks input w
   = (Returns (crawlFailure (crawl_url input)
                 (str "max_depth must be a non-negative integer")), w))
  /\ (invalidDepth (crawl_max_depth input) = false ->
      URL_new (crawl_url input) None = None ->
      crawlAndIndex ensureModelAvailable crawlWebsite addChunks input w
      = (Returns (crawlFailure (crawl_url input) (str "Invalid URL")), w))
  /\ (forall parsedUrl,
         invalidDepth (crawl_max_depth input) = false ->
         URL_new (crawl_url input) None = Some parsedUrl ->
         includes [str "http:"; str "https:"] (protocol parsedUrl) = false ->
         crawlAndIndex ensureModelAvailable crawlWebsite addChunks input w
         = (Returns (crawlFailure (crawl_url input)
                       (str "Invalid URL: must use http or https protocol")), w))
  /\ (forall parsedUrl w1,
         invalidDepth (crawl_max_depth input) = false ->
         URL_new (crawl_url input) None = Some parsedUrl ->
         includes [str "http:"; str "https:"] (protocol parsedUrl) = true ->
         ensureModelAvailable w = (Returns false, w1) ->
         crawlAndIndex ensureModelAvailable crawlWebsite addChunks input w
         = (Returns (crawlFailure (crawl_url input)
                       (str "Embedding model not available. Is Ollama running?")),
            w1)).
Proof.
  unfold crawlAndIndex. split; [|split; [|split]].
  - now intros ->.
  - intros -> ->. reflexivity.
  - intros parsedUrl -> -> ->. reflexivity.
  - intros parsedUrl w1 -> -> -> E. unfold try_catch, bind.
    cbn [negb]. now rewrite E.
Qed.
End ToolRejects.

Section ToolsOverServices.
Context `{Platform} {B : Type}.
Import Tools.

Lemma crawlWebsite_at_most (fetchPage : jsstring -> M B (option CrawledPage))
    (startUrl : jsstring) (options : CrawlOptions) (w : World B) pages :
  quiet fetchPage ->
  fst (Crawler.crawlWebsite fetchPage startUrl options w) = Returns pages ->
  (length pages <= default Crawler.DEFAULT_MAX_PAGES (maxPages options))%nat.
Proof.
  intros Hq. unfold Crawler.crawlWebsite.
  destruct (UrlGuard.isBlockedUrl startUrl); [discriminate|].
  destruct (URL_new startUrl None) as [u|]; [|discriminate].
  destruct (crawl_loop_bounded fetchPage
              (Z.min (maxDepth options) Crawler.MAX_DEPTH_LIMIT)
              (default [hostname u] (allowedDomains options))
              (default Crawler.DEFAULT_MAX_PAGES (maxPages options))
              Hq [(startUrl, 0)] [] [] w) as (_ & Hlen & _).
  exact (Hlen pages).
Qed.

(** X18. The crawl tool over the crawler of the repository, with a fetcher
    that logs no visits of its own, whatever the embedding service and the
    store do: a result that it returns counts at most 100 pages, at least
    one when it is a success and none when it is a failure. *)
Theorem crawlAndIndex_pages (ensureModelAvailable : M B bool)
    (addChunks : list Chunk -> M B nat)
    (fetchPage : jsstring -> M B (option CrawledPage))
    (input : CrawlAndIndexInput) (w w' : World B) (r : CrawlAndIndexResult) :
  quiet fetchPage ->
  crawlAndIndex ensureModelAvailable (Crawler.crawlWebsite fetchPage) addChunks
    input w = (Returns r, w') ->
  (crawl_pagesIndexed r <= 100)%nat
  /\ if crawl_success r then (1 <= crawl_pagesIndexed r)%nat
     else crawl_pagesIndexed r = 0%nat.
Proof.
  intros Hq. unfold crawlAndIndex.
  assert (forall url message,
             (crawl_pagesIndexed (crawlFailure url message) <= 100)%nat
             /\ (if crawl_success (crawlFailure url message)
                 then (1 <= crawl_pagesIndexed (crawlFailure url message))%nat
                 else crawl_pagesIndexed (crawlFailure url message) = 0%nat))
    as Hfail by (intros; simpl; split; [lia|reflexivity]).
  destruct (invalidDepth (crawl_max_depth input)).
  { intros [= <- _]. apply Hfail. }
  unfold try_catch.
  destruct (URL_new (crawl_url input) None) as [parsedUrl|].
  2:{ unfold throw, ret. intros [= <- _]. apply Hfail. }
  destruct (negb (includes _ (protocol parsedUrl))).
  { unfold ret. intros [= <- _]. apply Hfail. }
  unfold bind at 1.
  destruct (ensureModelAvailable w) as [[modelReady|e|] w1];
    [|unfold ret; intros [= <- _]; apply Hfail|discriminate].
  destruct (negb modelReady).
  { unfold ret. intros [= <- _]. apply Hfail. }
  unfold bind at 1.
  destruct (Crawler.crawlWebsite fetchPage (crawl_url input) _ w1)
    as [[pages|e|] w2] eqn:Ecrawl;
    [|unfold ret; intros [= <- _]; apply Hfail|discriminate].
  destruct (length pages =? 0)%nat eqn:E0.
  { unfold ret. intros [= <- _]. apply Hfail. }
  destruct (Chunker.chunkPages pages None) as [chunks|]; [|discriminate].
  unfold bind at 1.
  destruct (addChunks chunks w2) as [[addedCount|e|] w3];
    [|unfold ret; intros [= <- _]; apply Hfail|discriminate].
  unfold ret. intros [= <- _].
  cbn [crawl_pagesIndexed crawl_success].
  apply Nat.eqb_neq in E0.
  pose proof (crawlWebsite_at_most fetchPage _ _ w1 pages Hq
                ltac:(now rewrite Ecrawl)) as Hmax.
  cbn [maxPages default] in Hmax.
  change Crawler.DEFAULT_MAX_PAGES with 100%nat in Hmax. lia.
Qed.
End ToolsOverServices.

Section DeleteOverStore.
Context `{Platform}.
Import Tools VectorStore IdealStore.

Lemma deleteByUrl_ideal_run (b : store) (url : jsstring) (fuel : nat) :
  List.NoDup (List.map rec_id b) ->
  (length b < fuel)%nat ->
  exists evs,
    deleteByUrl connect col_get col_delete fuel url (world b)
    = (Returns (length (List.filter (matchesBase (getBaseUrl url)) b)),
       mkWorld (List.filter (keeps (getBaseUrl url)) b) (EvConnect :: evs) true).
Proof.
  intros Hnd Hfuel. unfold deleteByUrl, getCollection, world.
  unfold bind at 1 2, get_connected, call at 1, connect, set_connected.
  unfold bind at 1. cbn [backend trace connected].
  destruct (deleteByUrl_loop_ideal fuel (getBaseUrl url) b 0 0
              ([] ++ [EvConnect]) true Hnd) as (evs & E & _).
  { change (skipn 0 b) with b. lia. }
  exists evs. unfold mkWorld in *. rewrite E. reflexivity.
Qed.

(** X19. The delete tool over the store of the repository, on a store
    that behaves (records of different ids, fuel for them). For a URL that
    parses: the records whose stored url starts with its base URL are
    removed and all others stay; the result is a success that counts them,
    or, when there is none, the failure [No documents found matching this
    URL]. For a URL that does not parse: the failure [Invalid URL], and the
    store is not even opened. *)
Theorem deleteSource_over_store (b : store) (input : DeleteSourceInput)
    (fuel : nat) :
  List.NoDup (List.map rec_id b) ->
  (length b < fuel)%nat ->
  match URL_new (delete_url input) None with
  | Some _ =>
      exists w',
        deleteSource (deleteByUrl connect col_get col_delete fuel) input (world b)
        = (Returns
             (if (length (List.filter (matchesBase (getBaseUrl (delete_url input))) b)
                  =? 0)%nat
              then deleteFailure (delete_url input)
                     (str "No documents found matching this URL")
              else {| delete_success := true;
                      delete_deletedChunks :=
                        length (List.filter
                                  (matchesBase (getBaseUrl (delete_url input))) b);
                      delete_result_url := delete_url input;
                      delete_error := None |}), w')
        /\ backend w' = List.filter (keeps (getBaseUrl (delete_url input))) b
  | None =>
      deleteSource (deleteByUrl connect col_get col_delete fuel) input (world b)
      = (Returns (deleteFailure (delete_url input) (str "Invalid URL")), world b)
  end.
Proof.
  intros Hnd Hfuel. unfold deleteSource, try_catch.
  destruct (URL_new (delete_url input) None) as [parsed|]; [|reflexivity].
  destruct (deleteByUrl_ideal_run b (delete_url input) fuel Hnd Hfuel) as [evs E].
  unfold bind. rewrite E. eexists. split.
  - destruct (_ =? 0)%nat; reflexivity.
  - reflexivity.
Qed.
End DeleteOverStore.

Lemma crawlAndIndex_pages_witness :
  exists r w',
    @Tools.crawlAndIndex Simple.platform unit (ret true)
      (@Crawler.crawlWebsite Simple.platform unit
         (@Crawler.fetchAndParsePage Simple.platform unit Site.load Site.fetch
            (fun _ => 0)))
      (fun chunks => ret (length chunks))
      {| crawl_url := Site.A; crawl_max_depth := None |} Site.world
    = (Returns r, w')
    /\ (crawl_pagesIndexed r <= 100)%nat
    /\ if crawl_success r then (1 <= crawl_pagesIndexed r)%nat
       else crawl_pagesIndexed r = 0%nat.
Proof.
  destruct (@Tools.crawlAndIndex Simple.platform unit (ret true)
              (@Crawler.crawlWebsite Simple.platform unit
                 (@Crawler.fetchAndParsePage Simple.platform unit Site.load
                    Site.fetch (fun _ => 0)))
              (fun chunks => ret (length chunks))
              {| crawl_url := Site.A; crawl_max_depth := None |} Site.world)
    as [[r|e|] w'] eqn:E; try (exfalso; vm_compute in E; discriminate).
  exists r, w'. split; [reflexivity|].
  exact (@crawlAndIndex_pages Simple.platform unit _ _ _ _ _ _ _
           (@fetchAndParsePage_quiet Simple.platform unit Site.load Site.fetch
              (fun _ => 0)) E).
Defined.

Lemma deleteSource_over_store_witness :
  exists w',
    @Tools.deleteSource Simple.platform _
      (@VectorStore.deleteByUrl Simple.platform _ IdealStore.connect
         IdealStore.col_get IdealStore.col_delete 3)
      {| delete_url := str "https://docs.example.com/intro" |}
      (IdealStore.world twoCrawls)
    = (Returns {| delete_success := true; delete_deletedChunks := 2;
                  delete_result_url := str "https://docs.example.com/intro";
                  delete_error := None |}, w')
    /\ backend w' = [].
Proof.
  pose proof (@deleteSource_over_store Simple.platform twoCrawls
                {| delete_url := str "https://docs.example.com/intro" |} 3
                ltac:(apply distinctb_NoDup; vm_compute; reflexivity)
                ltac:(simpl; lia)) as Hrun.
  change (@URL_new Simple.platform
            (delete_url {| delete_url := str "https://docs.example.com/intro" |})
            None)
    with (Simple.newURL (str "https://docs.example.com/intro") None) in Hrun.
  destruct (Simple.newURL (str "https://docs.example.com/intro") None) eqn:E;
    [|exfalso; vm_compute in E; discriminate].
  destruct Hrun as (w' & Hrun & Hb). exists w'. split.
  - rewrite Hrun. apply f_equal2; [|reflexivity]. f_equal.
  - rewrite Hb. vm_compute. reflexivity.
Defined.

(** ** When two chunk ids are the same (chunker.ts, [generateChunkId],
       [simpleHash]) *)

Section ChunkIdFacts.
Import Chunker.

Lemma digitChar_no_dash (d : N) : (d < 36)%N -> digitChar d <> 45%N.
Proof.
  intros Hd. unfold digitChar. destruct (d <? 10)%N; lia.
Qed.

Lemma digits_rev_no_dash (fuel : nat) (n : N) :
  ~ In 45%N (digits_rev fuel 36 n).
Proof.
  revert n. induction fuel as [|fuel IH]; intros n; [intros []|].
  cbn [digits_rev]. destruct (n =? 0)%N; [intros []|].
  intros [Hd|Hin]; [|exact (IH _ Hin)].
  revert Hd. apply digitChar_no_dash.
  apply N.mod_upper_bound. discriminate.
Qed.

Lemma simpleHash_no_dash (s : jsstring) : ~ In 45%N (simpleHash s).
Proof.
  unfold simpleHash, toStringRadix.
  destruct (_ =? 0)%N.
  - intros [E|[]]. discriminate.
  - rewrite <- in_rev. apply digits_rev_no_dash.
Qed.

Lemma app_separator_inj {A} (c : A) (h1 h2 r1 r2 : list A) :
  ~ In c h1 -> ~ In c h2 ->
  h1 ++ c :: r1 = h2 ++ c :: r2 -> h1 = h2 /\ r1 = r2.
Proof.
  revert h2. induction h1 as [|a h1 IH]; intros [|b h2] H1 H2 E; simpl in E.
  - injection E as ->. auto.
  - injection E as -> _. exfalso. apply H2. now left.
  - injection E as -> _. exfalso. apply H1. now left.
  - injection E as -> E.
    destruct (IH h2) as [-> ->]; auto.
    + intros Hin. apply H1. now right.
    + intros Hin. apply H2. now right.
Qed.

(** X20. Two chunk ids are the same exactly when the indices are the same
    and the urls have the same hash: the hash has no [-], so the id splits
    in one way only into hash and index. *)
Theorem generateChunkId_same (url1 url2 : jsstring) (i j : nat) :
  generateChunkId url1 i = generateChunkId url2 j
  <-> simpleHash url1 = simpleHash url2 /\ i = j.
Proof.
  unfold generateChunkId. split.
  - intros E. change (str "-" ++ ?x) with (45%N :: x) in E.
    apply app_separator_inj in E as [Eh En]; try apply simpleHash_no_dash.
    split; [exact Eh|]. now apply numToString_inj.
  - intros [-> ->]. reflexivity.
Qed.
End ChunkIdFacts.

(** ** Service URLs (config.ts, [validateServiceUrl]) *)

Section ServiceUrlFacts.
Context `{Platform}.
Import ServiceUrl.

(** X21. [validateServiceUrl] accepts a URL, and returns it as it is,
    exactly when it parses and its protocol is [http:] or [https:]: the host
    plays no part, a host off the list of allowed hosts is only logged.
    Every other URL makes it throw an [Error] whose message starts with
    [Invalid <serviceName> URL: ]. *)
Theorem validateServiceUrl_accepts (url serviceName : jsstring) :
  (validateServiceUrl url serviceName = Returns url
   <-> exists parsed,
         URL_new url None = Some parsed
         /\ includes [str "http:"; str "https:"] (protocol parsed) = true)
  /\ match validateServiceUrl url serviceName with
     | Returns accepted => accepted = url
     | Throws e =>
         exists reason,
           e = ErrorObject
                 (str "Invalid " ++ serviceName ++ str " URL: " ++ reason)
     | Diverges => False
     end.
Proof.
  unfold validateServiceUrl.
  destruct (URL_new url None) as [parsed|].
  - destruct (includes [str "http:"; str "https:"] (protocol parsed)) eqn:E;
      cbn [negb]; split.
    + split; [eauto|reflexivity].
    + reflexivity.
    + split; [discriminate|]. intros (parsed' & [= <-] & E'). congruence.
    + eauto.
  - split.
    + split; [discriminate|]. intros (parsed & Hp & _). discriminate.
    + cbn. eauto.
Qed.
End ServiceUrlFacts.

(** ** The logger's levels (logger.ts, [shouldLog]) *)

Section LoggerFacts.
Import Logger.

Lemma LOG_LEVELS_levelName (level : LogLevel) :
  LOG_LEVELS (levelName level) = Some (rankOf level).
Proof. destruct level; reflexivity. Qed.

(** X22. What is logged. With [LOG_LEVEL] not set: everything but debug.
    With [LOG_LEVEL] set to the name of a level: the levels of that rank
    and above, so errors always. With [LOG_LEVEL] set to anything else
    (another spelling, the empty string): nothing at all, not even
    errors. *)
Theorem shouldLog_levels (env_LOG_LEVEL : option jsstring) :
  (forall level,
      shouldLog None level
      = match level with level_debug => false | _ => true end)
  /\ (forall rank,
         LOG_LEVELS (currentLevel env_LOG_LEVEL) = Some rank ->
         shouldLog env_LOG_LEVEL level_error = true
         /\ forall level,
              shouldLog env_LOG_LEVEL level = (rank <=? rankOf level))
  /\ (LOG_LEVELS (currentLevel env_LOG_LEVEL) = None ->
      forall level, shouldLog env_LOG_LEVEL level = false).
Proof.
  split; [|split].
  - intros []; reflexivity.
  - intros rank E. unfold shouldLog. split.
    + rewrite LOG_LEVELS_levelName, E. cbn [rankOf].
      unfold LOG_LEVELS in E.
      repeat (destruct (str_eqb _ _) in E; [injection E as <-; reflexivity|]).
      discriminate.
    + intros level. now rewrite LOG_LEVELS_levelName, E.
  - intros E level. unfold shouldLog. rewrite E.
    now destruct (LOG_LEVELS (levelName level)).
Qed.
End LoggerFacts.

(** ** The check of the embedding model (services/embedder.ts,
       [ensureModelAvailable], [pullModel]) *)

Section EmbedderFacts.
Context {B : Type}.
Variable host : jsstring.
Variable fetchTags : B -> outcome TagsReply * B.
Variable fetchPull : B -> outcome PullReply * B.
Import Embedder.

Lemma drain_ends (reader : stream) (w : World B) :
  snd (drain reader w) = w
  /\ exists r, fst (drain reader w) = r /\ r <> Diverges.
Proof.
  induction reader as [|chunk rest IH|e]; cbn [drain].
  - split; [reflexivity|]. eexists. split; [reflexivity|discriminate].
  - exact IH.
  - split; [reflexivity|]. eexists. split; [reflexivity|discriminate].
Qed.

(** What [pullModel] does: one request; it returns when the reply is a
    2xx whose body can be read to its end. *)
Lemma pullModel_run (w : World B) :
  trace (snd (pullModel host fetchPull w)) = trace w ++ [pullRequest host]
  /\ (fst (pullModel host fetchPull w) = Returns tt ->
      exists pull b2,
        fetchPull (backend w) = (Returns pull, b2) /\ pull_ok pull = true).
Proof.
  unfold pullModel, bind, call.
  destruct (fetchPull (backend w)) as [[pull|e|] b2];
    [|split; [reflexivity|discriminate]..].
  destruct (pull_ok pull) eqn:Eok; cbn [negb];
    [|split; [reflexivity|discriminate]].
  destruct (pull_body pull) as [reader|].
  - match goal with
    | |- context [drain reader ?w0] =>
        destruct (drain_ends reader w0) as [Hw _]; rewrite Hw
    end.
    split; [reflexivity|eauto].
  - split; [reflexivity|eauto].
Qed.

(** X23. [ensureModelAvailable] never throws: it answers true or false
    (or not at all, when the server does not). It makes the tags request
    and at most the pull request after it. It answers true only when the
    tags reply is a 2xx whose JSON can be read and either lists the model or
    the pull reply is a 2xx too; when the model is listed it answers true
    after the one request, without a pull; when the tags request throws it
    answers false. *)
Theorem ensureModelAvailable_answers (w : World B) :
  noThrow (fun _ => True)
    (fst (ensureModelAvailable host fetchTags fetchPull w))
  /\ (exists evs,
         trace (snd (ensureModelAvailable host fetchTags fetchPull w))
         = trace w ++ evs
         /\ (evs = [tagsRequest host]
             \/ evs = [tagsRequest host; pullRequest host]))
  /\ (fst (ensureModelAvailable host fetchTags fetchPull w) = Returns true ->
      exists reply b1 models,
        fetchTags (backend w) = (Returns reply, b1)
        /\ tags_ok reply = true /\ tags_json reply = Returns models
        /\ (hasModel models = true
            \/ exists pull b2,
                 fetchPull b1 = (Returns pull, b2) /\ pull_ok pull = true))
  /\ (forall reply b1 models,
         fetchTags (backend w) = (Returns reply, b1) ->
         tags_ok reply = true -> tags_json reply = Returns models ->
         hasModel models = true ->
         ensureModelAvailable host fetchTags fetchPull w
         = (Returns true, after w b1 [tagsRequest host]))
  /\ (forall e b1,
         fetchTags (backend w) = (Throws e, b1) ->
         ensureModelAvailable host fetchTags fetchPull w
         = (Returns false, after w b1 [tagsRequest host])).
Proof.
  unfold ensureModelAvailable, try_catch, bind, call, after.
  destruct (fetchTags (backend w)) as [[reply|e|] b1] eqn:Etags;
    cbv beta iota.
  2:{ unfold ret. cbn [fst snd trace noThrow].
      split; [exact I|]. split; [exists [tagsRequest host]; split; [reflexivity|now left]|].
      split; [discriminate|].
      split; [discriminate|]. now intros e' b1' [= <- <-]. }
  2:{ cbn [fst snd trace noThrow].
      split; [exact I|]. split; [exists [tagsRequest host]; split; [reflexivity|now left]|].
      split; [discriminate|].
      split; discriminate. }
  destruct (tags_ok reply) eqn:Eok; cbn [negb]; cbv beta iota.
  2:{ unfold ret. cbn [fst snd trace noThrow].
      split; [exact I|]. split; [exists [tagsRequest host]; split; [reflexivity|now left]|].
      split; [discriminate|].
      split; [|discriminate].
      intros reply' b1' models [= <- <-]. congruence. }
  destruct (tags_json reply) as [models|e|] eqn:Ejson; cbv beta iota.
  2:{ unfold throw, ret. cbn [fst snd trace noThrow].
      split; [exact I|]. split; [exists [tagsRequest host]; split; [reflexivity|now left]|].
      split; [discriminate|].
      split; [|discriminate].
      intros reply' b1' models [= <- <-]. congruence. }
  2:{ unfold diverge. cbn [fst snd trace noThrow].
      split; [exact I|]. split; [exists [tagsRequest host]; split; [reflexivity|now left]|].
      split; [discriminate|].
      split; [|discriminate].
      intros reply' b1' models [= <- <-]. congruence. }
  destruct (hasModel models) eqn:Ehas; cbn [negb]; cbv beta iota.
  - unfold ret. cbn [fst snd trace noThrow].
    split; [exact I|].
    split; [exists [tagsRequest host]; split; [reflexivity|now left]|].
    split; [intros _; exists reply, b1, models; auto|].
    split; [|discriminate].
    now intros reply' b1' models' [= <- <-] _ _ _.
  - match goal with
    | |- context [pullModel host fetchPull ?w0] =>
        destruct (pullModel_run w0) as [Htrace Hpull];
        destruct (pullModel host fetchPull w0) as [[[]|e|] w2]
    end; unfold ret; cbn [fst snd trace backend noThrow] in *.
    + split; [exact I|].
      split; [exists [tagsRequest host; pullRequest host];
              rewrite Htrace, <- app_assoc; auto|].
      split.
      { intros _. destruct (Hpull eq_refl) as (pull & b2 & Hp & Hok).
        exists reply, b1, models. repeat split; eauto. }
      split; [|discriminate].
      intros reply' b1' models' [= <- <-] _ E'. congruence.
    + split; [exact I|].
      split; [exists [tagsRequest host; pullRequest host];
              rewrite Htrace, <- app_assoc; auto|].
      split; [discriminate|].
      split; [|discriminate].
      intros reply' b1' models' [= <- <-] _ E'. congruence.
    + split; [exact I|].
      split; [exists [tagsRequest host; pullRequest host];
              rewrite Htrace, <- app_assoc; auto|].
      split; [discriminate|].
      split; [|discriminate].
      intros reply' b1' models' [= <- <-] _ E'. congruence.
Qed.

Lemma ensureModelAvailable_fails (w : World B) :
  tagsFail fetchTags (backend w) ->
  ensureModelAvailable host fetchTags fetchPull w
  = (Returns false, after w (snd (fetchTags (backend w))) [tagsRequest host]).
Proof.
  unfold tagsFail, ensureModelAvailable, try_catch.
  unfold bind at 1, call at 1.
  destruct (fetchTags (backend w)) as [[reply|e|] b1]; cbn [snd].
  - intros ->. reflexivity.
  - reflexivity.
  - intros [].
Qed.
End EmbedderFacts.

(** X24. The crawl tool over the model check of the repository: when the
    tags request to the Ollama server fails (it throws, or its reply is no
    2xx), a call with a valid depth and an [http:] or [https:] URL is
    answered with the failure [Embedding model not available. Is Ollama
    running?] after that one request; the crawler and the store are not
    called. *)
Theorem crawlAndIndex_without_model `{Platform} {B : Type}
    (host : jsstring) (fetchTags : B -> outcome TagsReply * B)
    (fetchPull : B -> outcome PullReply * B)
    (crawlWebsite : jsstring -> CrawlOptions -> M B (list CrawledPage))
    (addChunks : list Chunk -> M B nat)
    (input : CrawlAndIndexInput) (parsedUrl : URL) (w : World B) :
  Tools.invalidDepth (crawl_max_depth input) = false ->
  URL_new (crawl_url input) None = Some parsedUrl ->
  includes [str "http:"; str "https:"] (protocol parsedUrl) = true ->
  tagsFail fetchTags (backend w) ->
  Tools.crawlAndIndex (Embedder.ensureModelAvailable host fetchTags fetchPull)
    crawlWebsite addChunks input w
  = (Returns (Tools.crawlFailure (crawl_url input)
                (str "Embedding model not available. Is Ollama running?")),
     after w (snd (fetchTags (backend w))) [tagsRequest host]).
Proof.
  intros Hdepth Hurl Hprotocol Hfail. unfold Tools.crawlAndIndex.
  rewrite Hdepth, Hurl, Hprotocol. cbn [negb].
  unfold try_catch, bind.
  rewrite (ensureModelAvailable_fails host fetchTags fetchPull w Hfail).
  reflexivity.
Qed.

Lemma crawlAndIndex_without_model_witness :
  @Tools.crawlAndIndex Simple.platform unit
    (Embedder.ensureModelAvailable (str "http://localhost:11434")
       ollamaDown ollamaNoPull)
    (@Crawler.crawlWebsite Simple.platform unit
       (@Crawler.fetchAndParsePage Simple.platform unit Site.load Site.fetch
          (fun _ => 0)))
    (fun chunks => ret (length chunks))
    {| crawl_url := Site.A; crawl_max_depth := None |} Site.world
  = (Returns (Tools.crawlFailure Site.A
                (str "Embedding model not available. Is Ollama running?")),
     after Site.world tt [tagsRequest (str "http://localhost:11434")]).
Proof.
  destruct (Simple.newURL Site.A None) as [parsedUrl|] eqn:E;
    [|exfalso; vm_compute in E; discriminate].
  apply (@crawlAndIndex_without_model Simple.platform unit _ ollamaDown
           ollamaNoPull _ _ {| crawl_url := Site.A; crawl_max_depth := None |}
           parsedUrl Site.world).
  - reflexivity.
  - exact E.
  - revert E. vm_compute. intros [= <-]. reflexivity.
  - exact I.
Defined.

(** ** Search (vectorstore.ts, [semanticSearch], [keywordSearch],
       [searchSimilar]; tools/search.ts, [searchDocs]) *)

Section RetrievalFacts.
Context `{Platform}.
Import VectorStore Retrieval.

Lemma seen_get_keys key seen :
  seen_get key seen = None <-> ~ In key (List.map fst seen).
Proof.
  induction seen as [|[k' r] rest IH]; simpl; [tauto|].
  destruct (str_eqb k' key) eqn:E.
  - apply str_eqb_eq in E. subst. split; [discriminate|]. intros Hn.
    exfalso. apply Hn. now left.
  - apply str_eqb_neq in E. rewrite IH. tauto.
Qed.

Lemma seen_get_present key seen existing :
  seen_get key seen = Some existing -> In key (List.map fst seen).
Proof.
  induction seen as [|[k' r] rest IH]; simpl; [discriminate|].
  destruct (str_eqb k' key) eqn:E; [|auto].
  apply str_eqb_eq in E. auto.
Qed.

Lemma seen_set_present key result seen :
  In key (List.map fst seen) ->
  List.map fst (seen_set key result seen) = List.map fst seen.
Proof.
  induction seen as [|[k' r] rest IH]; simpl; [intros []|].
  destruct (str_eqb k' key) eqn:E; [reflexivity|].
  apply str_eqb_neq in E. intros [Hk|Hin]; [contradiction|].
  simpl. now rewrite IH.
Qed.

Lemma seen_set_absent key result seen :
  ~ In key (List.map fst seen) ->
  seen_set key result seen = seen ++ [(key, result)].
Proof.
  induction seen as [|[k' r] rest IH]; simpl; [reflexivity|].
  intros Hn. destruct (str_eqb k' key) eqn:E.
  - apply str_eqb_eq in E. subst. exfalso. apply Hn. now left.
  - rewrite IH; [reflexivity|]. intros Hin. apply Hn. now right.
Qed.

Lemma seen_set_entries key result seen :
  dedupKey result = key ->
  Forall (fun kv => dedupKey (snd kv) = fst kv) seen ->
  Forall (fun kv => dedupKey (snd kv) = fst kv) (seen_set key result seen).
Proof.
  intros Hkey. induction 1 as [|[k' r] rest Hkv Hrest IH]; simpl.
  - constructor; [exact Hkey|constructor].
  - destruct (str_eqb k' key) eqn:E.
    + apply str_eqb_eq in E. subst k'. constructor; [exact Hkey|exact Hrest].
    + constructor; [exact Hkv|exact IH].
Qed.

Lemma seen_set_results (P : SearchResult -> Prop) key result seen :
  P result ->
  Forall P (List.map snd seen) ->
  Forall P (List.map snd (seen_set key result seen)).
Proof.
  intros Hr. induction seen as [|[k' r] rest IH]; simpl; intros Hs.
  - constructor; [exact Hr|constructor].
  - apply Forall_cons in Hs as [Hhead Hrest].
    destruct (str_eqb k' key); simpl; constructor; auto.
Qed.

Lemma keepBest_ok seen result : seenOk seen -> seenOk (keepBest seen result).
Proof.
  intros [Hnd Hent]. unfold keepBest.
  destruct (seen_get (dedupKey result) seen) as [existing|] eqn:E.
  - apply seen_get_present in E.
    destruct (_ <? _)%float; [|now split].
    split; [now rewrite seen_set_present|now apply seen_set_entries].
  - apply seen_get_keys in E. split.
    + rewrite seen_set_absent, List.map_app by exact E. cbn [List.map fst].
      apply List.NoDup_app; [exact Hnd|repeat constructor; intros []|].
      intros k Hk [<-|[]]. contradiction.
    + now apply seen_set_entries.
Qed.

Lemma keepBest_results (P : SearchResult -> Prop) seen result :
  P result -> Forall P (List.map snd seen) ->
  Forall P (List.map snd (keepBest seen result)).
Proof.
  intros Hr Hs. unfold keepBest.
  destruct (seen_get (dedupKey result) seen);
    [destruct (_ <? _)%float; [|exact Hs]|]; now apply seen_set_results.
Qed.

Lemma fold_keepBest (P : SearchResult -> Prop) allResults seen :
  seenOk seen -> Forall P (List.map snd seen) -> Forall P allResults ->
  seenOk (fold_left keepBest allResults seen)
  /\ Forall P (List.map snd (fold_left keepBest allResults seen)).
Proof.
  revert seen. induction allResults as [|r rest IH]; intros seen Hok Hs Hall;
    [now split|].
  apply Forall_cons in Hall as [Hr Hall]. cbn [fold_left].
  apply IH; [now apply keepBest_ok|now apply keepBest_results|exact Hall].
Qed.

Lemma collect_hasText documents i results allResults :
  Forall hasText allResults ->
  Forall hasText (collect documents i results allResults).
Proof.
  revert i allResults. induction documents as [|doc rest IH];
    intros i allResults Hall; [exact Hall|].
  cbn [collect]. apply IH.
  destruct doc as [doc|]; [|exact Hall].
  destruct (default None (nth_error (q_metadatas results) i)) as [meta|];
    [|exact Hall].
  destruct (truthy doc) eqn:E; [|exact Hall].
  apply Forall_app. split; [exact Hall|]. constructor; [exact E|constructor].
Qed.

Section AnyStore.
Context {B : Type}.
Variable connect : B -> outcome unit * B.
Variable generateEmbedding : jsstring -> M B (list float).
Variable col_query : list float -> Z -> M B QueryReply.
Variable col_getDocs : nat -> nat -> B -> outcome DocsResponse * B.

Lemma queries_loop_hasText queries topK allResults (w w' : World B) results :
  Forall hasText allResults ->
  queries_loop generateEmbedding col_query queries topK allResults w
  = (Returns results, w') ->
  Forall hasText results.
Proof.
  revert allResults w. induction queries as [|query rest IH];
    intros allResults w Hall.
  - now intros [= <- _].
  - cbn [queries_loop]. unfold bind at 1.
    destruct (generateEmbedding query w) as [[embedding|e|] w1];
      [|discriminate|discriminate].
    unfold bind at 1.
    destruct (col_query embedding topK w1) as [[reply|e|] w2];
      [|discriminate|discriminate].
    apply IH. destruct (q_documents reply); [|exact Hall].
    now apply collect_hasText.
Qed.

(** What [semanticSearch] returns: the entries of the [seen] map over
    the results collected, in some order. *)
Lemma semanticSearch_seen (queries : list jsstring) (topK : Z)
    (w w' : World B) (results : list SearchResult) :
  semanticSearch generateEmbedding col_query queries topK w
  = (Returns results, w') ->
  exists allResults,
    Forall hasText allResults
    /\ Permutation results (List.map snd (fold_left keepBest allResults [])).
Proof.
  unfold semanticSearch, bind.
  destruct (queries_loop generateEmbedding col_query queries topK [] w)
    as [[allResults|e|] w1] eqn:E; [|discriminate|discriminate].
  unfold ret. intros [= <- _].
  apply queries_loop_hasText in E; [|constructor].
  exists allResults. split; [exact E|apply stable_sort_perm].
Qed.

Lemma seen_keys_distinct (allResults : list SearchResult) :
  List.NoDup
    (List.map dedupKey (List.map snd (fold_left keepBest allResults []))).
Proof.
  destruct (fold_keepBest (fun _ => True) allResults [])
    as [[Hnd Hent] _];
    [split; constructor|constructor|apply List.Forall_forall; auto|].
  rewrite List.map_map. rewrite (map_ext_in _ fst); [exact Hnd|].
  intros kv Hkv. rewrite List.Forall_forall in Hent. now apply Hent.
Qed.

(** X25. Whatever the embedding service and the store answer, the results
    that [semanticSearch] returns have pairwise different keys (url plus
    the first 100 characters of the text), and each has a text that is not
    empty. *)
Theorem semanticSearch_results (queries : list jsstring) (topK : Z)
    (w w' : World B) (results : list SearchResult) :
  semanticSearch generateEmbedding col_query queries topK w
  = (Returns results, w') ->
  List.NoDup (List.map dedupKey results) /\ Forall hasText results.
Proof.
  intros (allResults & Htext & HP)%semanticSearch_seen. split.
  - apply (Permutation_NoDup
             (l := List.map dedupKey
                     (List.map snd (fold_left keepBest allResults [])))).
    + apply Permutation_map. now symmetry.
    + apply seen_keys_distinct.
  - destruct (fold_keepBest hasText allResults [])
      as [_ Hseen]; [split; constructor|constructor|exact Htext|].
    rewrite List.Forall_forall in Hseen |- *. intros r Hr.
    apply Hseen. now apply (Permutation_in _ HP).
Qed.

Lemma NoDup_firstn {A} (n : nat) (l : list A) :
  List.NoDup l -> List.NoDup (firstn n l).
Proof.
  intros Hnd. rewrite <- (firstn_skipn n l) in Hnd.
  now apply List.NoDup_app_remove_r in Hnd.
Qed.

Lemma matchCount_word queryWords keywords doc :
  (0 < matchCount queryWords keywords doc)%nat ->
  exists qWord,
    In qWord queryWords
    /\ (In qWord keywords \/ str_includes (toLowerCase doc) qWord = true).
Proof.
  unfold matchCount.
  destruct (List.filter _ queryWords) as [|qWord rest] eqn:E;
    [cbn [length]; lia|].
  intros _. assert (In qWord (qWord :: rest)) as Hin by now left.
  rewrite <- E in Hin. apply List.filter_In in Hin as [Hin Hq].
  exists qWord. split; [exact Hin|].
  apply orb_true_iff in Hq as [Hq|Hq]; [left; now apply includes_In|now right].
Qed.

Lemma scoreBatch_records (P : ScoredDoc -> Prop) queryWords documents
    metadatas i allScored :
  (forall k meta,
      nth_error metadatas k = Some (Some meta) ->
      (0 < matchCount queryWords (split re_comma (md_keywords meta))
             (default [] (default None (nth_error documents (i + k)))))%nat ->
      P {| sd_doc := default [] (default None (nth_error documents (i + k)));
           sd_url := md_url meta; sd_title := md_title meta;
           sd_score :=
             (num (matchCount queryWords (split re_comma (md_keywords meta))
                     (default [] (default None (nth_error documents (i + k)))))
              / num (length queryWords))%float |}) ->
  Forall P allScored ->
  Forall P (scoreBatch queryWords documents metadatas i allScored).
Proof.
  revert i allScored. induction metadatas as [|meta rest IH];
    intros i allScored Hrec Hall; [exact Hall|].
  cbn [scoreBatch]. apply IH.
  - intros k meta' Hk. replace (S i + k)%nat with (i + S k)%nat by lia.
    now apply Hrec.
  - destruct meta as [meta|]; [|exact Hall].
    destruct (0 <? matchCount _ _ _)%nat eqn:E; [|exact Hall].
    apply Nat.ltb_lt in E. apply Forall_app. split; [exact Hall|].
    constructor; [|constructor].
    specialize (Hrec 0%nat meta eq_refl). rewrite Nat.add_0_r in Hrec.
    now apply Hrec.
Qed.

Lemma keywordSearch_loop_records (P : ScoredDoc -> Prop) queryWords fuel :
  forall allScored offset (w w' : World B) scored,
    (forall batch doc meta,
        In batch (pagesRead col_getDocs fuel offset (backend w)) ->
        recordOf batch doc meta ->
        (0 < matchCount queryWords (split re_comma (md_keywords meta)) doc)%nat ->
        P {| sd_doc := doc; sd_url := md_url meta; sd_title := md_title meta;
             sd_score :=
               (num (matchCount queryWords (split re_comma (md_keywords meta))
                       doc)
                / num (length queryWords))%float |}) ->
    Forall P allScored ->
    keywordSearch_loop col_getDocs fuel queryWords allScored offset w
    = (Returns scored, w') ->
    Forall P scored.
Proof.
  induction fuel as [|fuel IH];
    intros allScored offset w w' scored Hrec Hall; [discriminate|].
  cbn [keywordSearch_loop pagesRead] in *. unfold bind at 1, call at 1.
  destruct (col_getDocs BATCH_SIZE offset (backend w)) as [[batch|e|] b1] eqn:Eget;
    [|discriminate|discriminate].
  destruct (docs_documents batch) as [documents|] eqn:Edocs;
    [|now intros [= <- _]].
  destruct (docs_metadatas batch) as [metadatas|] eqn:Emetas;
    [|now intros [= <- _]].
  destruct (length documents =? 0)%nat; [now intros [= <- _]|].
  assert (Forall P (scoreBatch queryWords documents metadatas 0 allScored))
    as Hbatch.
  { apply scoreBatch_records; [|exact Hall].
    intros k meta Hk Hcount. cbn [Nat.add] in *.
    apply (Hrec batch); [now left| |exact Hcount].
    exists documents, metadatas, k. repeat split; assumption. }
  destruct (length documents =? BATCH_SIZE)%nat.
  - apply IH; [|exact Hbatch]. cbn [backend].
    intros batch' doc meta Hin. apply Hrec. now right.
  - now intros [= <- _].
Qed.

(** X27. [keywordSearch]: for a query without a word of three letters
    a-z or more it returns no results and does not read the store; for a
    [topK] of 0 or more it returns at most [topK] results, and each of them
    is made of a record of a page that the search read from the store, with
    the record's document, url and title: a word of the query is among the
    keywords stored with that record or occurs in its document, and the
    score is the share of the words of the query that do. *)
Theorem keywordSearch_results (fuel : nat) (query : jsstring) (topK : Z)
    (w : World B) :
  (match_words (toLowerCase query) = [] ->
   keywordSearch col_getDocs fuel query topK w = (Returns [], w))
  /\ (forall results w',
         0 <= topK ->
         keywordSearch col_getDocs fuel query topK w = (Returns results, w') ->
         (length results <= Z.to_nat topK)%nat
         /\ Forall (fun r => exists batch doc meta,
                               In batch (pagesRead col_getDocs fuel 0 (backend w))
                               /\ recordOf batch doc meta
                               /\ madeOf query doc meta r) results).
Proof.
  unfold keywordSearch. split.
  - intros ->. reflexivity.
  - intros results w' HtopK.
    destruct (length (match_words (toLowerCase query)) =? 0)%nat.
    { unfold ret. intros [= <- _]. split; [simpl; lia|constructor]. }
    unfold bind.
    destruct (keywordSearch_loop col_getDocs fuel
                (match_words (toLowerCase query)) [] 0 w)
      as [[scored|e|] w1] eqn:E; [|discriminate|discriminate].
    unfold ret. intros [= <- _].
    apply (keywordSearch_loop_records
             (fun s => exists batch doc meta,
                         In batch (pagesRead col_getDocs fuel 0 (backend w))
                         /\ recordOf batch doc meta
                         /\ madeOf query doc meta
                              {| res_text := sd_doc s; res_url := sd_url s;
                                 res_title := sd_title s;
                                 res_score := sd_score s |})) in E;
      [| |constructor].
    2:{ intros batch doc meta Hread Hrecord Hcount. exists batch, doc, meta.
        split; [exact Hread|]. split; [exact Hrecord|]. unfold madeOf.
        cbn [res_text res_url res_title res_score sd_doc sd_url sd_title
             sd_score].
        repeat split. now apply matchCount_word. }
    rewrite arr_slice_prefix by exact HtopK. split.
    + rewrite length_map, length_firstn. lia.
    + apply List.Forall_forall. intros r (s0 & <- & Hs)%in_map_iff.
      rewrite List.Forall_forall in E. apply E.
      eapply Permutation_in; [apply stable_sort_perm|].
      erewrite <- (firstn_skipn (Z.to_nat topK)).
      apply in_or_app. left. exact Hs.
Qed.

Lemma searchSimilar_bound (fuel : nat) (query : jsstring)
    (options : SearchOptions) (w w' : World B) (results : list SearchResult) :
  (0 <= default 5 (topK options))%Z ->
  searchSimilar connect generateEmbedding col_query col_getDocs fuel query
    options w = (Returns results, w') ->
  (length results <= Z.to_nat (default 5%Z (topK options)))%nat
  /\ List.NoDup (List.map dedupKey results).
Proof.
  intros HtopK. unfold searchSimilar. unfold bind at 1.
  destruct (getCollection connect w) as [[[]|e|] w1];
    [|discriminate|discriminate].
  unfold bind at 1.
  destruct (semanticSearch generateEmbedding col_query _ _ w1)
    as [[semanticResults|e|] w2] eqn:Esem; [|discriminate|discriminate].
  destruct (negb (default true (hybrid options))).
  - unfold ret. intros [= <- _]. rewrite arr_slice_prefix by exact HtopK.
    split; [rewrite length_firstn; lia|].
    rewrite <- firstn_map. apply NoDup_firstn.
    apply semanticSearch_seen in Esem as (allResults & _ & HP).
    apply (Permutation_NoDup
             (l := List.map dedupKey
                     (List.map snd (fold_left keepBest allResults [])))).
    + apply Permutation_map. now symmetry.
    + apply seen_keys_distinct.
  - unfold bind.
    destruct (keywordSearch col_getDocs fuel query _ w2)
      as [[keywordResults|e|] w3]; [|discriminate|discriminate].
    unfold ret. intros [= <- _]. split.
    + rewrite fused_length by exact HtopK. lia.
    + now apply fused_keys_distinct.
Qed.

(** X26. Whatever the embedding service and the store answer:
    [searchSimilar], for a [topK] of 0 or more (5 when not given), returns
    at most [topK] results, no two of them with the same key; and
    [searchDocs] over it returns at most [top_k] results (at most one for a
    [top_k] below 1) and never more than 100, no two with the same key. *)
Theorem search_result_bounds (fuel : nat) :
  (forall query options (w w' : World B) results,
      (0 <= default 5 (topK options))%Z ->
      searchSimilar connect generateEmbedding col_query col_getDocs fuel query
        options w = (Returns results, w') ->
      (length results <= Z.to_nat (default 5%Z (topK options)))%nat
      /\ List.NoDup (List.map dedupKey results))
  /\ (forall input (w w' : World B) r,
         Tools.searchDocs
           (searchSimilar connect generateEmbedding col_query col_getDocs fuel)
           input w = (Returns r, w') ->
         (length (search_results r)
          <= Z.to_nat (Z.max 1%Z (default 5%Z (search_top_k input))))%nat
         /\ (length (search_results r) <= 100)%nat
         /\ List.NoDup (List.map dedupKey (search_results r))).
Proof.
  split; [intros query options w w' results; apply searchSimilar_bound|].
  intros input w w' r. unfold Tools.searchDocs.
  destruct (_ <? _).
  { unfold ret. intros [= <- _]. cbn [search_results length List.map].
    split; [lia|split; [lia|constructor]]. }
  destruct (negb (truthy _)).
  { unfold ret. intros [= <- _]. cbn [search_results length List.map].
    split; [lia|split; [lia|constructor]]. }
  unfold bind.
  destruct (searchSimilar _ _ _ _ _ _ _ w) as [[results|e|] w1] eqn:E;
    [|discriminate|discriminate].
  unfold ret. intros [= <- _]. cbn [search_results].
  set (top_k := default 5 (search_top_k input)) in *.
  apply searchSimilar_bound in E as [Hlen Hnd]; cbn [topK] in *;
    change (default 5 (Some ?v)) with v in *;
    unfold Tools.MAX_TOP_K, Config.search_maxTopK in *; [|lia].
  split; [lia|split; [lia|exact Hnd]].
Qed.
End AnyStore.
End RetrievalFacts.

(** A search for three words over a store of one record: the result is made
    of that record. *)
Lemma keywordSearch_results_witness :
  exists results w',
    @Retrieval.keywordSearch Simple.platform unit OneDoc.col_getDocs 2
      (str "how to install npm") 5 Site.world = (Returns results, w')
    /\ (length results <= 5)%nat
    /\ Forall (fun r => exists batch doc meta,
                          In batch (pagesRead OneDoc.col_getDocs 2 0 tt)
                          /\ recordOf batch doc meta
                          /\ @madeOf Simple.platform
                               (str "how to install npm") doc meta r)
         results.
Proof.
  destruct (@Retrieval.keywordSearch Simple.platform unit OneDoc.col_getDocs 2
              (str "how to install npm") 5 Site.world)
    as [[results|e|] w'] eqn:E; try (exfalso; vm_compute in E; discriminate).
  exists results, w'. split; [reflexivity|].
  apply (proj2 (@keywordSearch_results Simple.platform unit OneDoc.col_getDocs
                  2 (str "how to install npm") 5 Site.world) results w');
    [lia|exact E].
Defined.

Lemma semanticSearch_results_witness :
  exists results w',
    @Retrieval.semanticSearch unit OneDoc.generateEmbedding OneDoc.col_query
      [str "install"; str "how to install"] 10 Site.world
    = (Returns results, w')
    /\ List.NoDup (List.map VectorStore.dedupKey results)
    /\ Forall hasText results.
Proof.
  destruct (@Retrieval.semanticSearch unit OneDoc.generateEmbedding
              OneDoc.col_query [str "install"; str "how to install"] 10
              Site.world) as [[results|e|] w'] eqn:E;
    try (exfalso; vm_compute in E; discriminate).
  exists results, w'. split; [reflexivity|].
  exact (semanticSearch_results _ _ _ _ _ _ _ E).
Defined.

Lemma search_result_bounds_witness :
  exists r w',
    OneDoc.search (askFor "install the package") = (Returns r, w')
    /\ (length (search_results r) <= 5)%nat
    /\ List.NoDup (List.map VectorStore.dedupKey (search_results r)).
Proof.
  destruct (OneDoc.search (askFor "install the package")) as [[r|e|] w'] eqn:E;
    try (exfalso; vm_compute in E; discriminate).
  exists r, w'. split; [reflexivity|].
  destruct (@search_result_bounds Simple.platform unit OneDoc.connect
              OneDoc.generateEmbedding OneDoc.col_query OneDoc.col_getDocs 2)
    as [_ Hdocs].
  destruct (Hdocs _ _ _ _ E) as (Hk & _ & Hnd). split; [exact Hk|exact Hnd].
Defined.

(** ** The keywords from the chunker to the keyword search (chunker.ts
       [extractKeywords], vectorstore.ts [addChunks], [keywordSearch]) *)

Section KeywordRoundTrip.
Context `{Platform}.
Import Chunker Retrieval.

Lemma split_comma_word (cur w s : jsstring) :
  ~ In 44%N w ->
  split_loop re_comma 0 cur (w ++ s) = split_loop re_comma 0 (rev w ++ cur) s.
Proof.
  revert cur. induction w as [|c w IH]; intros cur Hw; [reflexivity|].
  cbn [app split_loop]. unfold re_comma at 1.
  destruct (c =? 44)%N eqn:E.
  - apply N.eqb_eq in E. subst. exfalso. apply Hw. now left.
  - rewrite IH by (intros Hin; apply Hw; now right).
    cbn [rev]. now rewrite <- app_assoc.
Qed.

Lemma split_join_comma (ws : list jsstring) :
  ws <> [] -> Forall (fun w => ~ In 44%N w) ws ->
  split re_comma (join (str ",") ws) = ws.
Proof.
  unfold split. induction ws as [|w ws IH]; [contradiction|].
  intros _ Hall. apply Forall_cons in Hall as [Hw Hall].
  destruct ws as [|w' ws'].
  - cbn [join]. rewrite <- (app_nil_r w) at 1.
    rewrite split_comma_word by exact Hw. cbn [split_loop].
    now rewrite app_nil_r, rev_involutive.
  - change (join (str ",") (w :: w' :: ws'))
      with (w ++ 44%N :: join (str ",") (w' :: ws')).
    rewrite split_comma_word by exact Hw. cbn [split_loop].
    change (re_comma (44%N :: ?x)) with (Some 1%nat).
    rewrite app_nil_r, rev_involutive. f_equal.
    apply IH; [discriminate|exact Hall].
Qed.

Lemma extractKeywords_words (text k : jsstring) :
  In k (extractKeywords text) -> In k (lowerWords text).
Proof.
  rewrite extractKeywords_frequencies.
  intros (kv & <- & Hkv)%in_map_iff.
  assert (In kv (stable_sort (fun a b => 0 <? snd b - snd a)
                   (frequencies (lowerWords text)))) as Hs.
  { erewrite <- (firstn_skipn 20). apply in_or_app. left. exact Hkv. }
  apply (Permutation_in _ (stable_sort_perm _ _)) in Hs.
  unfold frequencies in Hs. apply in_map_iff in Hs as (k & <- & Hk).
  apply (proj1 (dedup_In _ _)), significant_In in Hk. apply Hk.
Qed.

Lemma extractKeywords_no_comma (text : jsstring) :
  Forall (fun w => ~ In 44%N w) (extractKeywords text).
Proof.
  apply List.Forall_forall. intros k Hk%extractKeywords_words Hin.
  pose proof (match_words_loop_shape 0 false (toLowerCase text)) as Hshape.
  rewrite List.Forall_forall in Hshape.
  destruct (Hshape k Hk) as [_ Hlower].
  rewrite forallb_forall in Hlower. specialize (Hlower _ Hin). discriminate.
Qed.

(** X28. The keywords of a chunk that [chunkPages] makes go through the
    store unchanged: [addChunks] stores them joined by commas, and
    [keywordSearch], splitting at the commas, reads the same list of
    keywords back. The one exception is a chunk without keywords: the empty
    list is read back as one empty keyword. *)
Theorem chunk_keywords_read_back (pages : list CrawledPage)
    (options : option ChunkOptions) (chunks : list Chunk)
    (indexedAt : jsstring) :
  chunkPages pages options = Some chunks ->
  Forall (fun c =>
            meta_keywords (chunk_metadata c)
            = Some (extractKeywords (chunk_text c))
            /\ keywordsReadBack indexedAt c
               = match extractKeywords (chunk_text c) with
                 | [] => [[]]
                 | keywords => keywords
                 end)
    chunks.
Proof.
  unfold chunkPages. intros E.
  apply pages_loop_spec in E as (pieces & _ & ->). cbn [app].
  apply Forall_concat, List.Forall_forall.
  intros cs [[page texts] [<- _]]%in_map_iff. cbn [fst snd].
  generalize (length texts). generalize 0%nat.
  induction texts as [|t ts IHt]; intros i total; constructor; [|apply IHt].
  cbn [chunkAt chunk_metadata chunk_text meta_keywords].
  split; [reflexivity|].
  unfold keywordsReadBack, storedMetadataOf.
  cbn [chunkAt chunk_metadata meta_keywords md_keywords].
  pose proof (extractKeywords_no_comma t) as Hno.
  destruct (extractKeywords t) as [|k ks] eqn:Ek; [reflexivity|].
  apply split_join_comma; [discriminate|exact Hno].
Qed.
End KeywordRoundTrip.

Lemma chunk_keywords_read_back_witness :
  exists chunks,
    @Chunker.chunkPages Simple.platform [pageFirstCrawl] None = Some chunks
    /\ Forall (fun c =>
                 meta_keywords (chunk_metadata c)
                 = Some (@Chunker.extractKeywords Simple.platform (chunk_text c))
                 /\ keywordsReadBack (str "2024-01-01") c
                    = match @Chunker.extractKeywords Simple.platform (chunk_text c) with
                      | [] => [[]]
                      | keywords => keywords
                      end)
         chunks.
Proof.
  destruct (@Chunker.chunkPages Simple.platform [pageFirstCrawl] None)
    as [chunks|] eqn:E; [|exfalso; vm_compute in E; discriminate].
  exists chunks. split; [reflexivity|].
  exact (@chunk_keywords_read_back Simple.platform _ None chunks
           (str "2024-01-01") E).
Defined.

(** ** The pages of a crawl (crawler.ts, [crawlWebsite],
       [fetchAndParsePage]) *)

Section CrawlPagesFacts.
Context `{Platform} {B : Type}.
Variable fetchPage : jsstring -> M B (option CrawledPage).
Variable P : CrawledPage -> Prop.
Hypothesis fetch_P :
  forall url (w w' : World B) page,
    UrlGuard.isBlockedUrl url = false ->
    fetchPage url w = (Returns (Some page), w') -> P page.
Import Crawler UrlGuard.

Lemma rateLimit_returns {A} (queue : list A) (m : M B (list CrawledPage))
    (w : World B) result :
  fst ((rateLimit queue ;;; m) w) = Returns result ->
  exists w1, fst (m w1) = Returns result.
Proof.
  destruct queue as [|a queue].
  - change ((rateLimit [] ;;; m) w) with (m w). eauto.
  - change ((rateLimit (a :: queue) ;;; m) w)
      with (m (snd (tell (EvSleep REQUEST_DELAY_MS) w))). eauto.
Qed.

Lemma crawl_scan_pages D domains resume pages :
  (forall queue visited pages (w : World B) result,
      Forall P pages ->
      fst (resume queue visited pages w) = Returns result -> Forall P result) ->
  Forall P pages ->
  forall queue visited (w : World B) result,
    fst (crawl_scan fetchPage D domains resume pages queue visited w)
    = Returns result ->
    Forall P result.
Proof.
  intros Hresume Hpages queue.
  induction queue as [|[url depth] queue IH]; intros visited w result.
  - cbn. now intros [= <-].
  - cbn [crawl_scan].
    destruct (set_has visited url || (D <? depth)); [apply IH|].
    destruct (isBlockedUrl url) eqn:Epass; [apply IH|].
    change ((tell (EvVisit url depth) ;;; fetchPage url) w)
      with (fetchPage url (snd (tell (EvVisit url depth) w))).
    destruct (fetchPage url (snd (tell (EvVisit url depth) w)))
      as [[[page|]|e|] w1] eqn:E1.
    + intros [w2 Hr]%rateLimit_returns. eapply Hresume; [|exact Hr].
      apply Forall_app. split; [exact Hpages|].
      constructor; [|constructor]. eapply fetch_P; eassumption.
    + intros [w2 Hr]%rateLimit_returns. eapply IH, Hr.
    + apply IH.
    + discriminate.
Qed.

Lemma crawl_loop_pages D domains budget :
  forall queue visited pages (w : World B) result,
    Forall P pages ->
    fst (crawl_loop fetchPage D domains budget queue visited pages w)
    = Returns result ->
    Forall P result.
Proof.
  induction budget as [|budget IH]; intros queue visited pages w result Hpages.
  - cbn. now intros [= <-].
  - cbn [crawl_loop]. apply crawl_scan_pages; [|exact Hpages].
    intros queue' visited' pages' w1 result' Hp. now apply IH.
Qed.
End CrawlPagesFacts.

Lemma fetchAndParsePage_url_guarded `{Platform} {B : Type} load
    (fetch : jsstring -> B -> outcome Response * B) clock
    (url : jsstring) (w w' : World B) (page : CrawledPage) :
  UrlGuard.isBlockedUrl url = false ->
  Crawler.fetchAndParsePage load fetch clock url w = (Returns (Some page), w') ->
  UrlGuard.isBlockedUrl (page_url page) = false.
Proof.
  intros Hpass. unfold Crawler.fetchAndParsePage, try_finally.
  unfold bind at 1, call at 1.
  destruct (fetch url (backend w)) as [[response|e|] b1];
    [|discriminate|discriminate].
  destruct (Crawler.isRedirect response).
  - destruct (header_location response) as [location|]; [|discriminate].
    destruct (truthy location); [|discriminate].
    destruct (URL_new location (Some url)) as [u|]; [|discriminate].
    destruct (UrlGuard.isBlockedUrl (href u)) eqn:Etarget; [discriminate|].
    unfold Crawler.fetchWithoutRedirect. unfold bind at 1, call at 1.
    cbn [backend trace connected].
    destruct (fetch (href u) b1) as [[response2|e2|] b2];
      [|discriminate|discriminate].
    destruct (negb (ok response2) || Crawler.isRedirect response2);
      [discriminate|].
    intros (_ & _ & _ & html & _ & _ & ->)%readAndParse_page. exact Etarget.
  - destruct (negb (ok response)); [discriminate|].
    intros (_ & _ & _ & html & _ & _ & ->)%readAndParse_page. exact Hpass.
Qed.

(** X29. Whatever the HTTP backend answers, every page that a crawl with
    the fetcher of the repository returns has a url that the URL guard lets
    pass: the url of a page is the URL that was fetched last, the one taken
    from the queue or the target of its redirect. *)
Theorem crawlWebsite_pages_guarded `{Platform} {B : Type}
    (load : jsstring -> Dom) (fetch : jsstring -> B -> outcome Response * B)
    (clock : B -> Z) (startUrl : jsstring) (options : CrawlOptions)
    (w w' : World B) (pages : list CrawledPage) :
  Crawler.crawlWebsite (Crawler.fetchAndParsePage load fetch clock)
    startUrl options w = (Returns pages, w') ->
  Forall (fun page => UrlGuard.isBlockedUrl (page_url page) = false) pages.
Proof.
  unfold Crawler.crawlWebsite.
  destruct (UrlGuard.isBlockedUrl startUrl); [discriminate|].
  destruct (URL_new startUrl None) as [u|]; [|discriminate].
  intros E.
  eapply (crawl_loop_pages (Crawler.fetchAndParsePage load fetch clock)
            (fun page => UrlGuard.isBlockedUrl (page_url page) = false)
            (fetchAndParsePage_url_guarded load fetch clock)).
  - apply List.Forall_nil.
  - rewrite E. reflexivity.
Qed.

Lemma crawlWebsite_pages_guarded_witness :
  exists pages w',
    Site.crawl 1 = (Returns pages, w')
    /\ Forall (fun page =>
                 @UrlGuard.isBlockedUrl Simple.platform (page_url page) = false)
         pages.
Proof.
  destruct (Site.crawl 1) as [[pages|e|] w'] eqn:E;
    try (exfalso; vm_compute in E; discriminate).
  exists pages, w'. split; [reflexivity|].
  exact (@crawlWebsite_pages_guarded Simple.platform unit Site.load Site.fetch
           (fun _ => 0) Site.A
           {| maxDepth := 1; maxPages := None; allowedDomains := None |}
           Site.world w' pages E).
Defined.

(** ** Deleting and then listing (vectorstore.ts, [deleteByUrl],
       [listSources]) *)

Section DeleteThenList.
Context `{Platform}.
Import VectorStore IdealStore.

Lemma storedMetadata_split (baseUrl : jsstring) (b : store) :
  (length (List.filter (matchesBase baseUrl) b)
   + length (storedMetadata (List.filter (keeps baseUrl) b))
   = length (storedMetadata b))%nat.
Proof.
  unfold storedMetadata, present, keeps, matchesBase.
  induction b as [|r b IH]; [reflexivity|].
  cbn [List.filter List.map flat_map].
  destruct (rec_metadata r) as [m|] eqn:Em.
  - destruct (startsWith (md_url m) baseUrl); cbn [negb];
      cbn [List.map flat_map length app]; rewrite ?Em;
      cbn [length app]; lia.
  - cbn [negb List.map flat_map]. rewrite Em. cbn [app]. exact IH.
Qed.

(** X30. Over a store that behaves, with records of different ids and
    fuel for them: [listSources] after [deleteByUrl(url)] lists the sources
    of the records that are left, those whose stored url does not start with
    the base URL of [url]; it does not change the store; and the number
    deleted and the chunk counts listed add up to the number of records
    with metadata that were there before. *)
Theorem deleteByUrl_then_listSources (b : store) (url : jsstring) (fuel : nat) :
  List.NoDup (List.map rec_id b) ->
  (length b < fuel)%nat ->
  exists n w1 sources w2,
    deleteByUrl connect col_get col_delete fuel url (world b) = (Returns n, w1)
    /\ listSources connect col_get fuel w1 = (Returns sources, w2)
    /\ backend w2 = List.filter (keeps (getBaseUrl url)) b
    /\ sources
       = List.map
           (sourceInfoOf (storedMetadata (List.filter (keeps (getBaseUrl url)) b)))
           (dedup (List.map baseOf
                     (storedMetadata (List.filter (keeps (getBaseUrl url)) b))))
    /\ (n + list_sum (List.map src_chunkCount sources)
        = length (storedMetadata b))%nat.
Proof.
  intros Hnd Hfuel.
  set (b' := List.filter (keeps (getBaseUrl url)) b).
  assert (deleteByUrl connect col_get col_delete fuel url (world b)
          = deleteByUrl_loop col_get col_delete fuel (getBaseUrl url) 0 0
              (mkWorld b [EvConnect] true)) as Hfirst.
  { unfold deleteByUrl, getCollection, world.
    unfold bind at 1 2, get_connected, call at 1, connect, set_connected.
    unfold bind at 1. reflexivity. }
  destruct (deleteByUrl_loop_ideal fuel (getBaseUrl url) b 0 0 [EvConnect] true Hnd)
    as (evs1 & E1 & _).
  { change (skipn 0 b) with b. lia. }
  change (skipn 0 b) with b in E1. change (firstn 0 b) with (@nil StoredRecord) in E1.
  cbn [app Nat.add] in E1. fold b' in E1.
  assert (length b' <= length b)%nat as Hshort.
  { unfold b'.
    pose proof (filter_split_length (matchesBase (getBaseUrl url)) b) as Hlen.
    change (fun x => negb (matchesBase (getBaseUrl url) x))
      with (keeps (getBaseUrl url)) in Hlen. lia. }
  destruct (listSources_loop_ideal fuel b' 0 ([EvConnect] ++ evs1) true)
    as [tr' E2]; [lia|].
  change (catalog (storedMetadata (firstn 0 b')))
    with (@nil (jsstring * SourceEntry)) in E2.
  eexists _, _, _, _. rewrite Hfirst, E1.
  split; [reflexivity|]. split.
  { unfold listSources, getCollection.
    unfold bind at 1 2, get_connected. cbn [mkWorld connected].
    unfold ret at 1. cbv beta iota. unfold bind at 1.
    change ([EvConnect] ++ evs1) with (EvConnect :: evs1) in E2.
    unfold mkWorld. rewrite E2. unfold ret. reflexivity. }
  split; [reflexivity|]. split.
  { unfold catalog. rewrite List.map_map. reflexivity. }
  unfold catalog. rewrite !List.map_map.
  cbn [toSourceInfo src_chunkCount entryOf entry_chunkCount].
  rewrite under_sum;
    [apply storedMetadata_split|apply dedup_NoDup|].
  intros m Hm. apply dedup_In, in_map. exact Hm.
Qed.
End DeleteThenList.

Lemma deleteByUrl_then_listSources_witness :
  exists n w1 sources w2,
    @VectorStore.deleteByUrl Simple.platform _ IdealStore.connect
      IdealStore.col_get IdealStore.col_delete 3
      (str "https://docs.example.com/intro") (IdealStore.world twoCrawls)
    = (Returns n, w1)
    /\ @VectorStore.listSources Simple.platform _ IdealStore.connect
         IdealStore.col_get 3 w1 = (Returns sources, w2)
    /\ (n + list_sum (List.map src_chunkCount sources) = 2)%nat.
Proof.
  destruct (@deleteByUrl_then_listSources Simple.platform twoCrawls
              (str "https://docs.example.com/intro") 3)
    as (n & w1 & sources & w2 & E1 & E2 & _ & _ & Hsum).
  - apply distinctb_NoDup. vm_compute. reflexivity.
  - simpl. lia.
  - exists n, w1, sources, w2. auto.
Defined.
